(** * Elements: the ordered child collection of the gadget scene graph

    A shallow embedding of [ggadget::Elements::Impl] (elements.cc), of the
    string comparison policy it relies on (string_utils.cc) and of
    [ImgElement::IsPointIn] (img_element.cc), with the properties of the
    collection proved over the embedding.

    Conventions:
    - an element pointer [BasicElement *] is an [option] of an address
      ([None] is [NULL]); the objects live in a heap, a finite map from
      addresses to element states;
    - [int] values are integers with the 32-bit conversion written out;
    - [double] values are kept abstract (class [Double]): the collection only
      compares, adds, subtracts and rounds them. *)

From Stdlib Require Import ZArith QArith Qround Lqa Bool String Ascii Lia.
From stdpp Require Import base option list gmap strings.

Open Scope Z_scope.

(** ** Machine integers *)

Definition INT_MAX : Z := 2147483647.

(** [static_cast<int>(v)] for a [size_t] or [ptrdiff_t] value [v]. *)
Definition static_cast_int (v : Z) : Z := (v + 2 ^ 31) mod 2 ^ 32 - 2 ^ 31.

(** ** C strings and the comparison policy (string_utils.cc) *)

Module StringUtils.

Definition NUL : ascii := "000"%char.

(** The value of a [char] read as [unsigned char]. *)
Definition byte_val (c : ascii) : Z := Z.of_N (N_of_ascii c).

(** The first byte of the C string held in [s]: the terminator when [s] is
    exhausted. *)
Definition head_byte (s : string) : ascii :=
  match s with
  | EmptyString => NUL
  | String c _ => c
  end.

Definition tail (s : string) : string :=
  match s with
  | EmptyString => EmptyString
  | String _ r => r
  end.

(** [strlen]: bytes before the first terminator. *)
Fixpoint strlen (s : string) : nat :=
  match s with
  | EmptyString => O
  | String c r => if Ascii.eqb c NUL then O else S (strlen r)
  end.

(** [c_str]: what a C function sees of a [std::string]. *)
Fixpoint c_str (s : string) : string :=
  match s with
  | EmptyString => EmptyString
  | String c r => if Ascii.eqb c NUL then EmptyString else String c (c_str r)
  end.

(** [tolower] in the C locale. *)
Definition tolower (c : ascii) : ascii :=
  let n := N_of_ascii c in
  if (65 <=? n)%N && (n <=? 90)%N then ascii_of_N (n + 32) else c.

(** The common loop of [strcmp] and [strcasecmp]: bytes are compared after
    [fold], up to the first difference or terminator. *)
Fixpoint str_compare (fold : ascii -> ascii) (s1 s2 : string) : Z :=
  match s1 with
  | EmptyString => byte_val (fold NUL) - byte_val (fold (head_byte s2))
  | String c1 r1 =>
      let c2 := head_byte s2 in
      if Ascii.eqb c1 NUL || negb (Ascii.eqb (fold c1) (fold c2))
      then byte_val (fold c1) - byte_val (fold c2)
      else str_compare fold r1 (tail s2)
  end.

Definition strcmp : string -> string -> Z := str_compare (fun c => c).
Definition strcasecmp : string -> string -> Z := str_compare tolower.

(** [GadgetStrCmp]; the argument stands for the build-time macro
    [GADGET_CASE_SENSITIVE]. *)
Definition GadgetStrCmp (GADGET_CASE_SENSITIVE : bool) (s1 s2 : string) : Z :=
  if GADGET_CASE_SENSITIVE then strcmp s1 s2 else strcasecmp s1 s2.

End StringUtils.

(** What the comparison is checked against: a case folding that never
    creates or removes a terminator, and the folding of a whole string. *)
Module StringSpec.

Definition keeps_NUL (fold : ascii -> ascii) : Prop :=
  forall c, fold c = StringUtils.NUL <-> c = StringUtils.NUL.

Fixpoint map_string (f : ascii -> ascii) (s : string) : string :=
  match s with
  | EmptyString => EmptyString
  | String c r => String (f c) (map_string f r)
  end.

End StringSpec.

(** ** Doubles

    The operations the collection applies to [double] values.  Nothing is
    assumed about them here; the order laws a proof needs are stated where
    it needs them. *)

Class Double (D : Type) := {
  d0 : D;                       (* the literal [.0] *)
  d2 : D;                       (* the literal [2.] *)
  dadd : D -> D -> D;
  dsub : D -> D -> D;
  dmul : D -> D -> D;
  ddiv : D -> D -> D;
  dneg : D -> D;
  dltb : D -> D -> bool;        (* [a < b] *)
  dgtb : D -> D -> bool;        (* [a > b] *)
  deqb : D -> D -> bool;        (* [a == b] *)
  ceil_size_t : D -> Z;         (* [static_cast<size_t>(ceil(a))] *)
  of_size_t : Z -> D            (* a [size_t] converted to [double] *)
}.

(** [std::max(a, b)]: [(a < b) ? b : a]. *)
Definition std_max {D} `{Double D} (a b : D) : D := if dltb a b then b else a.

(** ** Elements, events and pointers *)

(** [BasicElement *]: [None] is the null pointer. *)
Abbreviation ElementPtr := (option nat) (only parsing).

Inductive EventResult : Set :=
  | EVENT_RESULT_UNHANDLED
  | EVENT_RESULT_HANDLED
  | EVENT_RESULT_CANCELED.

Inductive EventType : Set :=
  | EVENT_MOUSE_DOWN
  | EVENT_MOUSE_UP
  | EVENT_MOUSE_CLICK
  | EVENT_MOUSE_DBLCLICK
  | EVENT_MOUSE_MOVE
  | EVENT_MOUSE_OUT
  | EVENT_MOUSE_OVER
  | EVENT_MOUSE_WHEEL
  | EVENT_DRAG_DROP
  | EVENT_DRAG_OUT
  | EVENT_DRAG_OVER
  | EVENT_DRAG_MOTION.

#[global] Instance EventResult_eq_dec : EqDecision EventResult.
Proof. solve_decision. Defined.

#[global] Instance EventType_eq_dec : EqDecision EventType.
Proof. solve_decision. Defined.

(** [PositionEvent], the common part of [MouseEvent] and [DragEvent]: the
    type, the coordinates, and the rest of the event (buttons, wheel delta,
    dragged files), which the collection copies and never reads. *)
Record PositionEvent (D : Type) := {
  GetType : EventType;
  GetX : D;
  GetY : D;
  GetDetail : Z
}.
Arguments GetType {D} _.
Arguments GetX {D} _.
Arguments GetY {D} _.
Arguments GetDetail {D} _.

(** [new_event->SetX(x); new_event->SetY(y)] *)
Definition SetXY {D} (e : PositionEvent D) (x y : D) : PositionEvent D :=
  {| GetType := GetType e; GetX := x; GetY := y; GetDetail := GetDetail e |}.

(** The state of a [BasicElement] that the collection reads through the
    element's accessors; [GetPrivate] stands for the rest of the object
    (the state of the concrete element class). *)
Record BasicElement (D St : Type) := {
  GetTagName : string;
  GetName : string;
  GetParentElement : ElementPtr;
  IsVisible : bool;
  GetPixelX : D;
  GetPixelY : D;
  GetPixelPinX : D;
  GetPixelPinY : D;
  GetPixelWidth : D;
  GetPixelHeight : D;
  GetRotation : D;
  IsPositionChanged : bool;
  IsSizeChanged : bool;
  GetMaskCanvas : option nat;
  GetPrivate : St
}.
Arguments GetTagName {D St} _.
Arguments GetName {D St} _.
Arguments GetParentElement {D St} _.
Arguments IsVisible {D St} _.
Arguments GetPixelX {D St} _.
Arguments GetPixelY {D St} _.
Arguments GetPixelPinX {D St} _.
Arguments GetPixelPinY {D St} _.
Arguments GetPixelWidth {D St} _.
Arguments GetPixelHeight {D St} _.
Arguments GetRotation {D St} _.
Arguments IsPositionChanged {D St} _.
Arguments IsSizeChanged {D St} _.
Arguments GetMaskCanvas {D St} _.
Arguments GetPrivate {D St} _.

(** [element->ClearPositionChanged()] *)
Definition ClearPositionChanged {D St} (e : BasicElement D St) : BasicElement D St :=
  {| GetTagName := GetTagName e; GetName := GetName e;
     GetParentElement := GetParentElement e; IsVisible := IsVisible e;
     GetPixelX := GetPixelX e; GetPixelY := GetPixelY e;
     GetPixelPinX := GetPixelPinX e; GetPixelPinY := GetPixelPinY e;
     GetPixelWidth := GetPixelWidth e; GetPixelHeight := GetPixelHeight e;
     GetRotation := GetRotation e;
     IsPositionChanged := false; IsSizeChanged := IsSizeChanged e;
     GetMaskCanvas := GetMaskCanvas e; GetPrivate := GetPrivate e |}.

(** What [element->Draw(&changed)] gives back: the element's canvas (or
    null), the [changed] flag, and the element after the call. *)
Record DrawResult (D St : Type) := {
  dr_canvas : option nat;
  dr_changed : bool;
  dr_element : BasicElement D St
}.
Arguments dr_canvas {D St} _.
Arguments dr_changed {D St} _.
Arguments dr_element {D St} _.

(** The virtual methods of [BasicElement] the collection calls; their bodies
    belong to the concrete element classes (basic_element.cc and its
    subclasses), so they are parameters of the development. *)
Class ElementMethods (D St : Type) := {
  IsPointIn : BasicElement D St -> D -> D -> bool;
  Element_Layout : BasicElement D St -> BasicElement D St;
  Element_Draw : BasicElement D St -> DrawResult D St;
  SelfCoordToChildCoord :
    BasicElement D St -> BasicElement D St -> D -> D -> D * D
}.

(** The helpers of math_utils.h the collection calls. *)
Class MathUtils (D : Type) := {
  DegreesToRadians : D -> D;
  (* x, y, child x, child y, pin x, pin y, rotation in radians *)
  ParentCoordToChildCoord : D -> D -> D -> D -> D -> D -> D -> D * D;
  (* x, y, pin x, pin y, width, height, rotation in radians *)
  GetChildExtentInParent : D -> D -> D -> D -> D -> D -> D -> D * D
}.

(** [p == NULL] *)
Definition is_null {A} (p : option A) : bool :=
  match p with
  | None => true
  | Some _ => false
  end.

(** The heap of live elements. *)
Abbreviation Heap D St := (gmap nat (BasicElement D St)) (only parsing).

(** ** The drawing surface (canvas_interface.h)

    A canvas is known by its identity and pixel size; the drawing calls made
    on it are logged in order. *)

Inductive CanvasOp (D : Type) :=
  | ClearCanvas
  | IntersectRectClipRegion (x y w h : D)
  | PushState
  | PopState
  | TranslateCoordinates (dx dy : D)
  | RotateCoordinates (radians : D)
  | DrawCanvas (x y : D) (img : nat)
  | DrawCanvasWithMask (x y : D) (img : nat) (mx my : D) (mask : nat)
  | DrawLine (x0 y0 x1 y1 : D).
Arguments ClearCanvas {D}.
Arguments IntersectRectClipRegion {D} _ _ _ _.
Arguments PushState {D}.
Arguments PopState {D}.
Arguments TranslateCoordinates {D} _ _.
Arguments RotateCoordinates {D} _.
Arguments DrawCanvas {D} _ _ _.
Arguments DrawCanvasWithMask {D} _ _ _ _ _ _.
Arguments DrawLine {D} _ _ _ _.

Record Canvas (D : Type) := {
  canvas_id : nat;
  canvas_width : Z;            (* [GetWidth()], a [size_t] *)
  canvas_height : Z;           (* [GetHeight()], a [size_t] *)
  canvas_ops : list (CanvasOp D)
}.
Arguments canvas_id {D} _.
Arguments canvas_width {D} _.
Arguments canvas_height {D} _.
Arguments canvas_ops {D} _.

Definition canvas_do {D} (c : Canvas D) (ops : list (CanvasOp D)) : Canvas D :=
  {| canvas_id := canvas_id c; canvas_width := canvas_width c;
     canvas_height := canvas_height c; canvas_ops := canvas_ops c ++ ops |}.

(** The graphics backend behind [view_->GetGraphics()]: it hands out fresh
    canvases, may refuse to ([NewCanvas] returns null), and records the
    canvases destroyed. *)
Record Graphics := {
  gfx_next_id : nat;
  gfx_destroyed : list nat;
  gfx_can_allocate : Z -> Z -> bool
}.

Definition NewCanvas {D} (g : Graphics) (w h : Z) : option (Canvas D) * Graphics :=
  if gfx_can_allocate g w h
  then (Some {| canvas_id := gfx_next_id g; canvas_width := w;
                canvas_height := h; canvas_ops := [] |},
        {| gfx_next_id := S (gfx_next_id g); gfx_destroyed := gfx_destroyed g;
           gfx_can_allocate := gfx_can_allocate g |})
  else (None, g).

Definition DestroyCanvas {D} (g : Graphics) (c : Canvas D) : Graphics :=
  {| gfx_next_id := gfx_next_id g;
     gfx_destroyed := gfx_destroyed g ++ [canvas_id c];
     gfx_can_allocate := gfx_can_allocate g |}.

(** ** The view (view.h)

    What the collection asks of its view: the veto hook, the popup element,
    the view's size and the debug mode. *)

Record View (D St : Type) := {
  OnElementAdd : gmap nat (BasicElement D St) -> nat -> bool;
  GetPopupElement : ElementPtr;
  GetWidth : D;
  GetHeight : D;
  GetDebugMode : Z
}.
Arguments OnElementAdd {D St} _ _ _.
Arguments GetPopupElement {D St} _.
Arguments GetWidth {D St} _.
Arguments GetHeight {D St} _.
Arguments GetDebugMode {D St} _.

(** The pointer variables of a running dispatch: the locals [child] and
    [descendant_in_element] of the loop body and the caller's
    [*fired_element] and [*in_element]. *)
Inductive Cell : Set := CellChild | CellDescendant | CellFired | CellIn.

#[global] Instance Cell_eq_dec : EqDecision Cell.
Proof. solve_decision. Defined.

Record Cells := {
  cell_child : ElementPtr;
  cell_descendant : ElementPtr;
  cell_fired : ElementPtr;
  cell_in : ElementPtr
}.

Definition get_cell (c : Cell) (cs : Cells) : ElementPtr :=
  match c with
  | CellChild => cell_child cs
  | CellDescendant => cell_descendant cs
  | CellFired => cell_fired cs
  | CellIn => cell_in cs
  end.

Definition set_cell (c : Cell) (p : ElementPtr) (cs : Cells) : Cells :=
  match c with
  | CellChild =>
      {| cell_child := p; cell_descendant := cell_descendant cs;
         cell_fired := cell_fired cs; cell_in := cell_in cs |}
  | CellDescendant =>
      {| cell_child := cell_child cs; cell_descendant := p;
         cell_fired := cell_fired cs; cell_in := cell_in cs |}
  | CellFired =>
      {| cell_child := cell_child cs; cell_descendant := cell_descendant cs;
         cell_fired := p; cell_in := cell_in cs |}
  | CellIn =>
      {| cell_child := cell_child cs; cell_descendant := cell_descendant cs;
         cell_fired := cell_fired cs; cell_in := p |}
  end.

(** The mutable world around a collection: the live elements, the pointer
    cells, and the view's registry of death-detected cells (most recent
    first). *)
Record World (D St : Type) := {
  heap : gmap nat (BasicElement D St);
  cells : Cells;
  death_detected_elements_ : list Cell
}.
Arguments heap {D St} _.
Arguments cells {D St} _.
Arguments death_detected_elements_ {D St} _.

(** Modelled from the spec: [ScopedDeathDetector] and the view's
    [OnElementRemove] (view.h and view.cc are not among the sources).  A
    detector registers a pointer cell with the view for the length of its
    scope; when an element is about to be destroyed the view nulls out every
    registered cell that points to it. *)
Definition ScopedDeathDetector_enter {D St} (c : Cell) (w : World D St) : World D St :=
  {| heap := heap w; cells := cells w;
     death_detected_elements_ := c :: death_detected_elements_ w |}.

Definition ScopedDeathDetector_leave {D St} (w : World D St) : World D St :=
  {| heap := heap w; cells := cells w;
     death_detected_elements_ := List.tl (death_detected_elements_ w) |}.

Definition null_out (e : nat) (c : Cell) (cs : Cells) : Cells :=
  if decide (get_cell c cs = Some e) then set_cell c None cs else cs.

Definition OnElementRemove {D St} (e : nat) (w : World D St) : World D St :=
  {| heap := heap w;
     cells := foldr (null_out e) (cells w) (death_detected_elements_ w);
     death_detected_elements_ := death_detected_elements_ w |}.

(** [delete e] *)
Definition delete_element {D St} (e : nat) (w : World D St) : World D St :=
  {| heap := delete e (heap w); cells := cells w;
     death_detected_elements_ := death_detected_elements_ w |}.

Definition write_cell {D St} (c : Cell) (p : ElementPtr) (w : World D St) : World D St :=
  {| heap := heap w; cells := set_cell c p (cells w);
     death_detected_elements_ := death_detected_elements_ w |}.

Definition store_element {D St} (a : nat) (e : BasicElement D St) (w : World D St) : World D St :=
  {| heap := <[a := e]> (heap w); cells := cells w;
     death_detected_elements_ := death_detected_elements_ w |}.

(** ** The element factory

    Modelled from the spec: the factory (element_factory.cc is not among the
    sources; its test is).  A table maps a tag name, compared exactly, to the
    creator function of an element class; registering a tag twice fails;
    [CreateElement] returns null for a tag that is not registered and
    otherwise a newly allocated element built by the creator from the parent
    and the name. *)

Module ElementFactory.

Definition Creator (D St : Type) : Type :=
  ElementPtr -> option string -> BasicElement D St.

Definition t (D St : Type) : Type := gmap string (Creator D St).

Definition RegisterElementClass {D St} (f : t D St) (tag_name : string)
    (creator : Creator D St) : bool * t D St :=
  match f !! tag_name with
  | Some _ => (false, f)
  | None => (true, <[tag_name := creator]> f)
  end.

(** [new]: an address that holds no live element. *)
Definition allocate {D St} (h : gmap nat (BasicElement D St)) : nat :=
  fresh (dom h).

Definition CreateElement {D St} (f : t D St) (tag_name : string)
    (parent : ElementPtr) (name : option string) (w : World D St)
    : ElementPtr * World D St :=
  match f !! tag_name with
  | None => (None, w)
  | Some creator =>
      let a := allocate (heap w) in
      (Some a, store_element a (creator parent name) w)
  end.

End ElementFactory.

(** ** Elements::Impl (elements.cc) *)

(** The members of [Elements::Impl]; [view_] is passed to the operations
    that use it. *)
Record Impl (D St : Type) := {
  factory_ : ElementFactory.t D St;
  owner_ : ElementPtr;
  children_ : list nat;
  width_ : D;
  height_ : D;
  canvas_ : option (Canvas D);
  count_changed_ : bool;
  has_popup_ : bool;
  scrollable_ : bool
}.
Arguments factory_ {D St} _.
Arguments owner_ {D St} _.
Arguments children_ {D St} _.
Arguments width_ {D St} _.
Arguments height_ {D St} _.
Arguments canvas_ {D St} _.
Arguments count_changed_ {D St} _.
Arguments has_popup_ {D St} _.
Arguments scrollable_ {D St} _.

(** [std::find(v.begin(), v.end(), p) - v.begin()]: the index of the first
    entry equal to [p], the size of the vector when there is none. *)
Fixpoint std_find (v : list nat) (p : ElementPtr) : nat :=
  match v with
  | [] => O
  | a :: r => if decide (Some a = p) then O else S (std_find r p)
  end.

(** [v.insert(v.begin() + k, e)] *)
Definition vector_insert (k : nat) (e : nat) (v : list nat) : list nat :=
  take k v ++ e :: drop k v.

(** [v.erase(v.begin() + k)] *)
Definition vector_erase (k : nat) (v : list nat) : list nat :=
  take k v ++ drop (S k) v.

Section Elements.

Context {D St : Type} `{Double D}.

(** The build-time macro [GADGET_CASE_SENSITIVE]. *)
Variable GADGET_CASE_SENSITIVE : bool.

Definition set_children (impl : Impl D St) (v : list nat) (changed : bool)
    : Impl D St :=
  {| factory_ := factory_ impl; owner_ := owner_ impl; children_ := v;
     width_ := width_ impl; height_ := height_ impl; canvas_ := canvas_ impl;
     count_changed_ := changed; has_popup_ := has_popup_ impl;
     scrollable_ := scrollable_ impl |}.

(** The constructor. *)
Definition Impl_new (factory : ElementFactory.t D St) (owner : ElementPtr)
    : Impl D St :=
  {| factory_ := factory; owner_ := owner; children_ := [];
     width_ := d0; height_ := d0; canvas_ := None;
     count_changed_ := true; has_popup_ := false; scrollable_ := false |}.


Definition AppendElement (view : View D St) (tag_name : string)
    (name : option string) (w : World D St) (impl : Impl D St)
    : ElementPtr * World D St * Impl D St :=
  match ElementFactory.CreateElement (factory_ impl) tag_name (owner_ impl) name w with
  | (None, w1) => (None, w1, impl)
  | (Some e, w1) =>
      if OnElementAdd view (heap w1) e
      then (Some e, w1, set_children impl (children_ impl ++ [e]) true)
      else (None, delete_element e w1, impl)
  end.

Definition InsertElement (view : View D St) (tag_name : string)
    (before : ElementPtr) (name : option string)
    (w : World D St) (impl : Impl D St)
    : ElementPtr * World D St * Impl D St :=
  match ElementFactory.CreateElement (factory_ impl) tag_name (owner_ impl) name w with
  | (None, w1) => (None, w1, impl)
  | (Some e, w1) =>
      if OnElementAdd view (heap w1) e
      then let ite := std_find (children_ impl) before in
           (Some e, w1,
            set_children impl (vector_insert ite e (children_ impl)) true)
      else (None, delete_element e w1, impl)
  end.

Definition RemoveElement (element : ElementPtr)
    (w : World D St) (impl : Impl D St) : bool * World D St * Impl D St :=
  let ite := std_find (children_ impl) element in
  match children_ impl !! ite with
  | None => (false, w, impl)                       (* [ite == end()] *)
  | Some a =>
      (true, delete_element a (OnElementRemove a w),
       set_children impl (vector_erase ite (children_ impl)) true)
  end.

Definition RemoveAllElements (w : World D St) (impl : Impl D St)
    : World D St * Impl D St :=
  (foldl (fun w a => delete_element a (OnElementRemove a w)) w (children_ impl),
   set_children impl [] true).

Definition GetItemByIndex (impl : Impl D St) (index : Z) : ElementPtr :=
  if (0 <=? index) && (index <? static_cast_int (Z.of_nat (length (children_ impl))))
  then children_ impl !! Z.to_nat index
  else None.

(** The loop of [GetIndexByName] from position [i] on; [None] when a child
    pointer is dangling (the read of its name is undefined). *)
Fixpoint GetIndexByName_from (h : gmap nat (BasicElement D St)) (name : string)
    (v : list nat) (i : nat) : option Z :=
  match v with
  | [] => Some (-1)
  | a :: r =>
      match h !! a with
      | None => None
      | Some el =>
          if decide (StringUtils.GadgetStrCmp GADGET_CASE_SENSITIVE
                       (GetName el) name = 0)
          then Some (static_cast_int (Z.of_nat i))
          else GetIndexByName_from h name r (S i)
      end
  end.

(** [name] is a [const char *]: [None] is the null pointer. *)
Definition GetIndexByName (w : World D St) (impl : Impl D St)
    (name : option string) : option Z :=
  match name with
  | None => Some (-1)
  | Some s =>
      if decide (StringUtils.strlen s = O) then Some (-1)
      else GetIndexByName_from (heap w) s (children_ impl) O
  end.

Definition GetItemByName (w : World D St) (impl : Impl D St)
    (name : option string) : option ElementPtr :=
  match GetIndexByName w impl name with
  | None => None
  | Some index => Some (GetItemByIndex impl index)
  end.

End Elements.

(** ** Event dispatch *)

(** What a child's own [OnMouseEvent] or [OnDragEvent] does to the world of
    the dispatching collection, as a list of steps in order: it may remove
    elements (the child itself, a descendant, a sibling), add children to
    the collection through [AppendElement] and [InsertElement], write the
    [fired_element] and [in_element] outputs, and change element states. *)
Inductive Action (D St : Type) :=
  | ActRemoveElement (e : nat)
  | ActRemoveAllElements
  | ActAppendElement (tag_name : string) (name : option string)
  | ActInsertElement (tag_name : string) (before : ElementPtr)
                     (name : option string)
  | ActSetFired (p : ElementPtr)
  | ActSetIn (p : ElementPtr)
  | ActStore (a : nat) (e : BasicElement D St).
Arguments ActRemoveElement {D St} _.
Arguments ActRemoveAllElements {D St}.
Arguments ActAppendElement {D St} _ _.
Arguments ActInsertElement {D St} _ _ _.
Arguments ActSetFired {D St} _.
Arguments ActSetIn {D St} _.
Arguments ActStore {D St} _ _.

(** The event handlers of the children ([BasicElement::OnMouseEvent] and
    [BasicElement::OnDragEvent], with the script handlers they fire):
    parameters of the development. *)
Class ElementHandlers (D St : Type) := {
  Element_OnMouseEvent :
    nat -> PositionEvent D -> World D St -> Impl D St ->
    EventResult * list (Action D St);
  Element_OnDragEvent :
    nat -> PositionEvent D -> World D St -> Impl D St ->
    EventResult * list (Action D St)
}.

(** How a dispatch ends: with a result, or undefined: a dangling pointer is
    read, or the loop goes on after the handler changed the vector it
    iterates over.  An erasure or an insertion invalidates the iterators at
    and after its position, the past-the-end iterator included, and every
    iterator when the storage is reallocated; neither the positions nor the
    capacity are tracked here, so the loop is taken to be defined only when
    the vector is as it was. *)
Inductive Outcome : Set :=
  | Returned (r : EventResult)
  | Undefined.

Section Dispatch.

Context {D St : Type} `{Double D} `{ElementMethods D St} `{MathUtils D}
        `{ElementHandlers D St}.

(** One step of a handler.  Removing an element that is a child of this
    collection goes through the collection's [RemoveElement]; an element
    elsewhere in the tree is removed by its own collection: the view is
    notified and the element is deleted.  [in_cell] is the cell the
    handler's [in_element] output points to, if it has one. *)
Definition run_action (view : View D St) (in_cell : option Cell)
    (a : Action D St) (s : World D St * Impl D St) : World D St * Impl D St :=
  let '(w, impl) := s in
  match a with
  | ActRemoveElement e =>
      match RemoveElement (Some e) w impl with
      | (true, w', impl') => (w', impl')
      | (false, _, _) => (delete_element e (OnElementRemove e w), impl)
      end
  | ActRemoveAllElements => RemoveAllElements w impl
  | ActAppendElement tag_name name =>
      let '(_, w', impl') := AppendElement view tag_name name w impl in
      (w', impl')
  | ActInsertElement tag_name before name =>
      let '(_, w', impl') := InsertElement view tag_name before name w impl in
      (w', impl')
  | ActSetFired p => (write_cell CellFired p w, impl)
  | ActSetIn p =>
      match in_cell with
      | Some c => (write_cell c p w, impl)
      | None => (w, impl)
      end
  | ActStore a e =>
      match heap w !! a with
      | Some _ => (store_element a e w, impl)
      | None => (w, impl)
      end
  end.

Definition run_actions (view : View D St) (in_cell : option Cell)
    (l : list (Action D St)) (s : World D St * Impl D St)
    : World D St * Impl D St :=
  foldl (fun s a => run_action view in_cell a s) s l.

(** [MapChildPositionEvent]: [None] when [owner_] dangles. *)
Definition MapChildPositionEvent (w : World D St) (impl : Impl D St)
    (org_event : PositionEvent D) (child : BasicElement D St)
    : option (PositionEvent D) :=
  match owner_ impl with
  | Some o =>
      match heap w !! o with
      | Some owner =>
          let '(child_x, child_y) :=
            SelfCoordToChildCoord owner child (GetX org_event) (GetY org_event) in
          Some (SetXY org_event child_x child_y)
      | None => None
      end
  | None =>
      let '(child_x, child_y) :=
        ParentCoordToChildCoord (GetX org_event) (GetY org_event)
          (GetPixelX child) (GetPixelY child)
          (GetPixelPinX child) (GetPixelPinY child)
          (DegreesToRadians (GetRotation child)) in
      Some (SetXY org_event child_x child_y)
  end.

(** What a dispatch gives: how it ended, and the world and the collection
    it left. *)
Definition DispatchResult : Type := Outcome * World D St * Impl D St.

(** The call of the child's handler in [OnMouseEvent], from the
    declaration of the locals [child], set to the element under the
    iterator, and [descendant_in_element], set to null, and of their two
    death detectors ([OnMouseEvent_enter]), to the end of the detectors'
    scope. *)
Definition OnMouseEvent_enter (c : nat) (w : World D St) : World D St :=
  let w1 := write_cell CellDescendant None (write_cell CellChild (Some c) w) in
  ScopedDeathDetector_enter CellDescendant
    (ScopedDeathDetector_enter CellChild w1).

Definition OnMouseEvent_call (view : View D St) (c : nat)
    (new_event : PositionEvent D) (w : World D St) (impl : Impl D St)
    : EventResult * World D St * Impl D St :=
  let w2 := OnMouseEvent_enter c w in
  let '(result, actions) := Element_OnMouseEvent c new_event w2 impl in
  let '(w3, impl3) :=
    run_actions view (Some CellDescendant) actions (w2, impl) in
  (result, ScopedDeathDetector_leave (ScopedDeathDetector_leave w3), impl3).

(** [if (!*in_element) *in_element = descendant_in_element ?
    descendant_in_element : child;] *)
Definition set_in_element (child : nat) (w : World D St) : World D St :=
  match cell_in (cells w) with
  | Some _ => w
  | None =>
      write_cell CellIn
        (match cell_descendant (cells w) with
         | Some d => Some d
         | None => Some child
         end) w
  end.

(** The loop of [OnMouseEvent] over the children still to examine, topmost
    first.  The loop goes on after a handler only when the vector is as it
    was, so [rest] is what the reverse iterator has left. *)
Fixpoint OnMouseEvent_loop (view : View D St) (event : PositionEvent D)
    (rest : list nat) (w : World D St) (impl : Impl D St) : DispatchResult :=
  match rest with
  | [] => (Returned EVENT_RESULT_UNHANDLED, w, impl)
  | c :: rest' =>
      match heap w !! c with
      | None => (Undefined, w, impl)
      | Some el =>
          if negb (IsVisible el)
          then OnMouseEvent_loop view event rest' w impl
          else
            match MapChildPositionEvent w impl event el with
            | None => (Undefined, w, impl)
            | Some new_event =>
                if IsPointIn el (GetX new_event) (GetY new_event)
                then
                  let '(result, w4, impl3) :=
                    OnMouseEvent_call view c new_event w impl in
                  match cell_child (cells w4) with
                  | None => (Returned result, w4, impl3)
                  | Some child =>
                      let w5 := set_in_element child w4 in
                      match cell_fired (cells w5) with
                      | Some _ => (Returned result, w5, impl3)
                      | None =>
                          if decide (children_ impl3 = children_ impl)
                          then OnMouseEvent_loop view event rest' w5 impl3
                          else (Undefined, w5, impl3)
                      end
                  end
                else OnMouseEvent_loop view event rest' w impl
            end
      end
  end.

(** [Elements::Impl::OnMouseEvent].  The event is asserted not to be a
    mouse-over or mouse-out event. *)
Definition OnMouseEvent (view : View D St) (event : PositionEvent D)
    (w : World D St) (impl : Impl D St) : DispatchResult :=
  let w0 := write_cell CellFired None (write_cell CellIn None w) in
  OnMouseEvent_loop view event (rev (children_ impl)) w0 impl.

(** The call of the child's handler in [OnDragEvent], from the declaration
    of the death detector of [child] to the end of its scope. *)
Definition OnDragEvent_call (view : View D St) (c : nat)
    (new_event : PositionEvent D) (w : World D St) (impl : Impl D St)
    : EventResult * World D St * Impl D St :=
  let w2 := ScopedDeathDetector_enter CellChild w in
  let '(result, actions) := Element_OnDragEvent c new_event w2 impl in
  let '(w3, impl3) := run_actions view None actions (w2, impl) in
  (result, ScopedDeathDetector_leave w3, impl3).

(** The loop of [OnDragEvent]. *)
Fixpoint OnDragEvent_loop (view : View D St) (event : PositionEvent D)
    (rest : list nat) (w : World D St) (impl : Impl D St) : DispatchResult :=
  match rest with
  | [] => (Returned EVENT_RESULT_UNHANDLED, w, impl)
  | c :: rest' =>
      (* the local [child] is set to the element under the iterator *)
      let w1 := write_cell CellChild (Some c) w in
      match heap w1 !! c with
      | None => (Undefined, w1, impl)
      | Some el =>
          if negb (IsVisible el)
          then OnDragEvent_loop view event rest' w1 impl
          else
            match MapChildPositionEvent w1 impl event el with
            | None => (Undefined, w1, impl)
            | Some new_event =>
                if IsPointIn el (GetX new_event) (GetY new_event)
                then
                  let '(result, w4, impl3) :=
                    OnDragEvent_call view c new_event w1 impl in
                  match cell_child (cells w4), cell_fired (cells w4) with
                  | Some _, None =>
                      if decide (children_ impl3 = children_ impl)
                      then OnDragEvent_loop view event rest' w4 impl3
                      else (Undefined, w4, impl3)
                  | _, _ => (Returned result, w4, impl3)
                  end
                else OnDragEvent_loop view event rest' w1 impl
            end
      end
  end.

(** [Elements::Impl::OnDragEvent].  The event is asserted to be a
    drag-motion event. *)
Definition OnDragEvent (view : View D St) (event : PositionEvent D)
    (w : World D St) (impl : Impl D St) : DispatchResult :=
  let w0 := write_cell CellFired None w in
  OnDragEvent_loop view event (rev (children_ impl)) w0 impl.

End Dispatch.

(** ** What a dispatch is asked *)

Section DispatchSpec.

Context {D St : Type} `{Double D} `{ElementMethods D St} `{MathUtils D}.

(** The dispatcher passes over the child [c]: the child is invisible, or
    it does not contain the point the event's coordinates are mapped to in
    its own space. *)
Definition passed_over (w : World D St) (impl : Impl D St)
    (event : PositionEvent D) (c : nat) : Prop :=
  exists el,
    heap w !! c = Some el
    /\ (IsVisible el = false
        \/ exists ev,
             IsVisible el = true
             /\ MapChildPositionEvent w impl event el = Some ev
             /\ IsPointIn el (GetX ev) (GetY ev) = false).

(** The event hits the child [c]: the child is visible and contains the
    point the event's coordinates are mapped to in its own space; [ev] is
    the event with the mapped coordinates. *)
Definition hit (w : World D St) (impl : Impl D St)
    (event : PositionEvent D) (c : nat) (ev : PositionEvent D) : Prop :=
  exists el,
    heap w !! c = Some el
    /\ IsVisible el = true
    /\ MapChildPositionEvent w impl event el = Some ev
    /\ IsPointIn el (GetX ev) (GetY ev) = true.

(** A handler step that cannot break the loop over [v], with owner [o],
    while the invoked child [c] is alive: it removes no sibling of [c] and
    not the owner, and it adds no child. *)
Definition tame (c : nat) (v : list nat) (o : ElementPtr) (a : Action D St)
    : Prop :=
  match a with
  | ActRemoveElement e => e = c \/ ((e ∉ v) /\ Some e <> o)
  | ActAppendElement _ _ | ActInsertElement _ _ _ => False
  | _ => True
  end.

(** The removal of one element, as [RemoveElement] and [RemoveAllElements]
    do it: the view is told, then the element is deleted. *)
Definition remove_one (w : World D St) (e : nat) : World D St :=
  delete_element e (OnElementRemove e w).

(** The step [a], made with [in_element] output [ic], writes the cell [x]. *)
Definition writes (ic : option Cell) (a : Action D St) (x : Cell) : Prop :=
  match a with
  | ActSetFired _ => x = CellFired
  | ActSetIn _ => ic = Some x
  | _ => False
  end.

(** While the invoked child [c] is alive, the vector is [v] and its
    elements and the owner are alive. *)
Definition keeps (c : nat) (v : list nat) (o : ElementPtr)
    (s : World D St * Impl D St) : Prop :=
  cell_child (cells s.1) = None
  \/ (cell_child (cells s.1) = Some c
      /\ children_ s.2 = v
      /\ (forall a, a ∈ v -> is_Some (heap s.1 !! a))
      /\ (forall a, o = Some a -> is_Some (heap s.1 !! a))).

(** The world of the drag dispatch after the children [us] were passed
    over: the local [child] holds the last of them. *)
Definition after_passing (us : list nat) (w : World D St) : World D St :=
  match last us with
  | Some u => write_cell CellChild (Some u) w
  | None => w
  end.

(** Every handler is tame for the loop over [v] with owner [o]. *)
Definition handlers_tame `{ElementHandlers D St} (v : list nat) (o : ElementPtr)
    : Prop :=
  forall (c : nat) (ev : PositionEvent D) (w : World D St) (impl : Impl D St),
    c ∈ v ->
    Forall (tame c v o) (Element_OnMouseEvent c ev w impl).2
    /\ Forall (tame c v o) (Element_OnDragEvent c ev w impl).2.

End DispatchSpec.

(** ** Layout and drawing *)

Section LayoutDraw.

Context {D St : Type} `{Double D} `{ElementMethods D St} `{MathUtils D}.

Definition set_extent (impl : Impl D St) (w h : D) : Impl D St :=
  {| factory_ := factory_ impl; owner_ := owner_ impl;
     children_ := children_ impl;
     width_ := w; height_ := h; canvas_ := canvas_ impl;
     count_changed_ := count_changed_ impl; has_popup_ := has_popup_ impl;
     scrollable_ := scrollable_ impl |}.

(** [UpdateChildExtent]: the extent pair is passed and returned. *)
Definition UpdateChildExtent (child : BasicElement D St) (extent : D * D)
    : D * D :=
  let '(extent_width, extent_height) := extent in
  let x := GetPixelX child in
  let y := GetPixelY child in
  let pin_x := GetPixelPinX child in
  let pin_y := GetPixelPinY child in
  let width := GetPixelWidth child in
  let height := GetPixelHeight child in
  let est_maximum_extent :=
    dadd (std_max pin_x (dsub width pin_x))
         (std_max pin_y (dsub height pin_y)) in
  let child_extent_width := dadd x est_maximum_extent in
  let child_extent_height := dadd y est_maximum_extent in
  if dgtb child_extent_width extent_width
     || dgtb child_extent_height extent_height
  then
    let '(child_extent_width, child_extent_height) :=
      GetChildExtentInParent x y pin_x pin_y width height
        (DegreesToRadians (GetRotation child)) in
    (if dgtb child_extent_width extent_width
     then child_extent_width else extent_width,
     if dgtb child_extent_height extent_height
     then child_extent_height else extent_height)
  else (extent_width, extent_height).

(** The first loop of [Layout]: every child lays itself out. *)
Fixpoint layout_children (v : list nat) (h : gmap nat (BasicElement D St))
    : option (gmap nat (BasicElement D St)) :=
  match v with
  | [] => Some h
  | a :: r =>
      match h !! a with
      | None => None
      | Some el => layout_children r (<[a := Element_Layout el]> h)
      end
  end.

(** The second loop: does some child report a position or size change? *)
Fixpoint need_update_extents (v : list nat) (h : gmap nat (BasicElement D St))
    : option bool :=
  match v with
  | [] => Some false
  | a :: r =>
      match h !! a with
      | None => None
      | Some el =>
          if IsPositionChanged el || IsSizeChanged el then Some true
          else need_update_extents r h
      end
  end.

(** The third loop: the extent grows over the children. *)
Fixpoint update_extents (v : list nat) (h : gmap nat (BasicElement D St))
    (extent : D * D) : option (D * D) :=
  match v with
  | [] => Some extent
  | a :: r =>
      match h !! a with
      | None => None
      | Some el => update_extents r h (UpdateChildExtent el extent)
      end
  end.

Definition set_heap (w : World D St) (h : gmap nat (BasicElement D St))
    : World D St :=
  {| heap := h; cells := cells w;
     death_detected_elements_ := death_detected_elements_ w |}.

(** [Elements::Impl::Layout]; [None] when a pointer dangles. *)
Definition Layout (view : View D St) (w : World D St) (impl : Impl D St)
    : option (World D St * Impl D St) :=
  match layout_children (children_ impl) (heap w) with
  | None => None
  | Some h1 =>
      let w1 := set_heap w h1 in
      if scrollable_ impl then
        match need_update_extents (children_ impl) h1 with
        | None => None
        | Some need =>
            if need || is_null (canvas_ impl)
            then
              match update_extents (children_ impl) h1 (d0, d0) with
              | None => None
              | Some (ew, eh) => Some (w1, set_extent impl ew eh)
              end
            else Some (w1, impl)
        end
      else
        match owner_ impl with
        | Some o =>
            match h1 !! o with
            | None => None
            | Some owner =>
                Some (w1,
                      set_extent impl
                        (of_size_t (ceil_size_t (GetPixelWidth owner)))
                        (of_size_t (ceil_size_t (GetPixelHeight owner))))
            end
        | None => Some (w1, set_extent impl (GetWidth view) (GetHeight view))
        end
  end.

(** What the first loop of [Draw] carries from child to child. *)
Record DrawLoop := {
  dl_changed : bool;
  dl_has_popup_ : bool;
  dl_heap : gmap nat (BasicElement D St);
  dl_children_canvas : list (option nat)
}.

(** The body of the first loop of [Draw] for the child at [a]. *)
Definition draw_child (popup : ElementPtr) (a : nat) (s : DrawLoop)
    : option DrawLoop :=
  match dl_heap s !! a with
  | None => None
  | Some element =>
      let has_popup := bool_decide (Some a = popup) in
      let '(changed, h, cc) :=
        if has_popup then (dl_changed s, dl_heap s, None)
        else
          let r := Element_Draw element in
          let element1 := dr_element r in
          let '(element2, child_changed) :=
            if IsPositionChanged element1
            then (ClearPositionChanged element1, true)
            else (element1, dr_changed r) in
          (dl_changed s || child_changed,
           <[a := element2]> (dl_heap s), dr_canvas r) in
      let '(changed, has_popup_) :=
        if negb (eqb has_popup (dl_has_popup_ s)) then (true, has_popup)
        else (changed, dl_has_popup_ s) in
      Some {| dl_changed := changed; dl_has_popup_ := has_popup_;
              dl_heap := h;
              dl_children_canvas := dl_children_canvas s ++ [cc] |}
  end.

Fixpoint draw_children (popup : ElementPtr) (v : list nat) (s : DrawLoop)
    : option DrawLoop :=
  match v with
  | [] => Some s
  | a :: r =>
      match draw_child popup a s with
      | None => None
      | Some s' => draw_children popup r s'
      end
  end.

(** The calls made on the collection's canvas for one child. *)
Definition composite_child (element : BasicElement D St) (cc : nat)
    : list (CanvasOp D) :=
  [PushState]
  ++ (if deqb (GetRotation element) d0
      then [TranslateCoordinates
              (dsub (GetPixelX element) (GetPixelPinX element))
              (dsub (GetPixelY element) (GetPixelPinY element))]
      else [TranslateCoordinates (GetPixelX element) (GetPixelY element);
            RotateCoordinates (DegreesToRadians (GetRotation element));
            TranslateCoordinates (dneg (GetPixelPinX element))
                                 (dneg (GetPixelPinY element))])
  ++ [match GetMaskCanvas element with
      | Some mask => DrawCanvasWithMask d0 d0 cc d0 d0 mask
      | None => DrawCanvas d0 d0 cc
      end]
  ++ [PopState].

(** The second loop of [Draw]: the children that gave a canvas are composed
    in z-order. *)
Fixpoint composite_children (h : gmap nat (BasicElement D St))
    (v : list nat) (ccs : list (option nat)) : option (list (CanvasOp D)) :=
  match v, ccs with
  | a :: r, Some cc :: ccs' =>
      match h !! a with
      | None => None
      | Some element =>
          match composite_children h r ccs' with
          | None => None
          | Some ops => Some (composite_child element cc ++ ops)
          end
      end
  | _ :: r, None :: ccs' => composite_children h r ccs'
  | _, _ => Some []
  end.

Definition debug_box (c : Canvas D) : list (CanvasOp D) :=
  let w := of_size_t (canvas_width c) in
  let h := of_size_t (canvas_height c) in
  [DrawLine d0 d0 d0 h; DrawLine d0 d0 w d0; DrawLine w h d0 h;
   DrawLine w h w d0; DrawLine d0 d0 w h; DrawLine w d0 d0 h].

Definition set_draw_state (impl : Impl D St) (canvas : option (Canvas D))
    (has_popup : bool) : Impl D St :=
  {| factory_ := factory_ impl; owner_ := owner_ impl;
     children_ := children_ impl;
     width_ := width_ impl; height_ := height_ impl; canvas_ := canvas;
     count_changed_ := false; has_popup_ := has_popup;
     scrollable_ := scrollable_ impl |}.

(** What [Draw] returns: the canvas pointer, the [changed] output, and the
    graphics backend, world and collection after the call. *)
Record DrawReturn := {
  ret_canvas : option (Canvas D);
  ret_changed : bool;
  ret_graphics : Graphics;
  ret_world : World D St;
  ret_impl : Impl D St
}.

(** The part of [Draw] after the cached canvas has been settled. *)
Definition Draw_children (view : View D St) (g : Graphics) (w : World D St)
    (impl : Impl D St) (canvas : Canvas D) (changed : bool)
    : option DrawReturn :=
  match draw_children (GetPopupElement view) (children_ impl)
          {| dl_changed := changed; dl_has_popup_ := has_popup_ impl;
             dl_heap := heap w; dl_children_canvas := [] |} with
  | None => None
  | Some s =>
      let w1 := set_heap w (dl_heap s) in
      if dl_changed s then
        match composite_children (dl_heap s) (children_ impl)
                (dl_children_canvas s) with
        | None => None
        | Some ops =>
            let canvas1 :=
              canvas_do canvas
                ([ClearCanvas;
                  IntersectRectClipRegion d0 d0 (width_ impl) (height_ impl)]
                 ++ ops
                 ++ (if 0 <? GetDebugMode view then debug_box canvas else [])) in
            Some {| ret_canvas := Some canvas1; ret_changed := true;
                    ret_graphics := g; ret_world := w1;
                    ret_impl := set_draw_state impl (Some canvas1)
                                  (dl_has_popup_ s) |}
        end
      else
        Some {| ret_canvas := Some canvas; ret_changed := false;
                ret_graphics := g; ret_world := w1;
                ret_impl := set_draw_state impl (Some canvas)
                              (dl_has_popup_ s) |}
  end.

(** The branch of [Draw] that replaces the cached canvas; [g] is the
    backend after the old canvas, if any, has been destroyed. *)
Definition Draw_rebuild (view : View D St) (g : Graphics) (w : World D St)
    (impl : Impl D St) (new_canvas_width new_canvas_height : Z)
    : option DrawReturn :=
  if (new_canvas_width =? 0) || (new_canvas_height =? 0) then
    Some {| ret_canvas := None; ret_changed := true; ret_graphics := g;
            ret_world := w;
            ret_impl := set_draw_state impl None (has_popup_ impl) |}
  else
    match NewCanvas g new_canvas_width new_canvas_height with
    | (None, g1) =>
        Some {| ret_canvas := None; ret_changed := true;
                ret_graphics := g1; ret_world := w;
                ret_impl := set_draw_state impl None (has_popup_ impl) |}
    | (Some c, g1) => Draw_children view g1 w impl c true
    end.

(** [Elements::Impl::Draw]; [None] when a pointer dangles. *)
Definition Draw (view : View D St) (g : Graphics) (w : World D St)
    (impl : Impl D St) : option DrawReturn :=
  let changed := count_changed_ impl in
  if bool_decide (children_ impl = []) then
    Some {| ret_canvas := None; ret_changed := changed; ret_graphics := g;
            ret_world := w;
            ret_impl := set_draw_state impl (canvas_ impl) (has_popup_ impl) |}
  else
    let new_canvas_width := ceil_size_t (width_ impl) in
    let new_canvas_height := ceil_size_t (height_ impl) in
    match canvas_ impl with
    | None => Draw_rebuild view g w impl new_canvas_width new_canvas_height
    | Some c =>
        if negb (new_canvas_width =? canvas_width c)
           || negb (new_canvas_height =? canvas_height c)
        then Draw_rebuild view (DestroyCanvas g c) w impl
               new_canvas_width new_canvas_height
        else Draw_children view g w impl c changed
    end.

(** [SetScrollable] *)
Definition SetScrollable (scrollable : bool) (impl : Impl D St) : Impl D St :=
  {| factory_ := factory_ impl; owner_ := owner_ impl;
     children_ := children_ impl;
     width_ := width_ impl; height_ := height_ impl; canvas_ := canvas_ impl;
     count_changed_ := count_changed_ impl; has_popup_ := has_popup_ impl;
     scrollable_ := scrollable |}.

(** *** What the specification asks of [Layout] *)

(** The states of the children, in z-order. *)
Definition children_elements (h : gmap nat (BasicElement D St))
    (v : list nat) : list (BasicElement D St) :=
  omap (fun a => h !! a) v.

(** The extent of a child in the collection, from its position, pin, size
    and rotation. *)
Definition child_extent (child : BasicElement D St) : D * D :=
  GetChildExtentInParent (GetPixelX child) (GetPixelY child)
    (GetPixelPinX child) (GetPixelPinY child)
    (GetPixelWidth child) (GetPixelHeight child)
    (DegreesToRadians (GetRotation child)).

(** The larger of the extent so far and a new one. *)
Definition grow (cur new : D) : D := if dgtb new cur then new else cur.

(** The bounding extent of the children: the largest extent of a child in
    each direction, and at least zero. *)
Definition bounding_extent (els : list (BasicElement D St)) : D * D :=
  foldl (fun ext child =>
           (grow ext.1 (child_extent child).1,
            grow ext.2 (child_extent child).2))
        (d0, d0) els.

(** The cheap estimate of [UpdateChildExtent] covers the child's extent:
    an extent that the estimate does not exceed is not exceeded by the
    extent of the child either. *)
Definition estimate_covers (child : BasicElement D St) : Prop :=
  let est :=
    dadd (std_max (GetPixelPinX child)
                  (dsub (GetPixelWidth child) (GetPixelPinX child)))
         (std_max (GetPixelPinY child)
                  (dsub (GetPixelHeight child) (GetPixelPinY child))) in
  forall ew eh : D,
    dgtb (dadd (GetPixelX child) est) ew = false ->
    dgtb (dadd (GetPixelY child) est) eh = false ->
    dgtb (child_extent child).1 ew = false
    /\ dgtb (child_extent child).2 eh = false.

(** *** What the specification asks of [Draw] *)

(** A child as [Draw] leaves it: drawn by its own [Draw], with the
    position-changed flag cleared. *)
Definition drawn (el : BasicElement D St) : BasicElement D St :=
  let el1 := dr_element (Element_Draw el) in
  if IsPositionChanged el1 then ClearPositionChanged el1 else el1.

(** A child that asks for a new composition: its own [Draw] reports a
    change, or its position-changed flag is set when [Draw] reads it. *)
Definition child_changed (el : BasicElement D St) : bool :=
  IsPositionChanged (dr_element (Element_Draw el))
  || dr_changed (Element_Draw el).

(** The call on the collection's canvas that draws the canvas [cc] of a
    child. *)
Definition draws (cc : nat) (op : CanvasOp D) : Prop :=
  op = DrawCanvas d0 d0 cc
  \/ exists mask, op = DrawCanvasWithMask d0 d0 cc d0 d0 mask.

(** The canvas a child hands to the first loop of [Draw]: none for the
    popup. *)
Definition child_canvas (popup : ElementPtr)
    (h : gmap nat (BasicElement D St)) (a : nat) : option nat :=
  if bool_decide (Some a = popup) then None
  else match h !! a with
       | Some el => dr_canvas (Element_Draw el)
       | None => None
       end.

(** The first state of the loop over the children. *)
Definition draw_start (w : World D St) (impl : Impl D St) (changed : bool)
    : DrawLoop :=
  {| dl_changed := changed; dl_has_popup_ := has_popup_ impl;
     dl_heap := heap w; dl_children_canvas := [] |}.

(** The cached canvas does not fit the extent: there is none, or its pixel
    size is not the extent rounded up. *)
Definition cache_stale (impl : Impl D St) : Prop :=
  match canvas_ impl with
  | None => True
  | Some c => ceil_size_t (width_ impl) <> canvas_width c
              \/ ceil_size_t (height_ impl) <> canvas_height c
  end.

End LayoutDraw.

Arguments DrawLoop : clear implicits.
Arguments DrawReturn : clear implicits.

(** ** ImgElement::IsPointIn (img_element.cc) *)

Inductive CropMaintainAspect : Set := CROP_FALSE | CROP_TRUE | CROP_PHOTO.

#[global] Instance CropMaintainAspect_eq_dec : EqDecision CropMaintainAspect.
Proof. solve_decision. Defined.

(** An image (image_interface.h): its size, and [GetPointValue], which
    gives the opacity at a point or fails. *)
Record Image (D : Type) := {
  Image_GetWidth : Z;
  Image_GetHeight : Z;
  GetPointValue : D -> D -> option D
}.
Arguments Image_GetWidth {D} _.
Arguments Image_GetHeight {D} _.
Arguments GetPointValue {D} _ _ _.

(** [ImgElement::Impl] *)
Record ImgImpl (D : Type) := {
  image_ : option (Image D);
  src_width_ : Z;
  src_height_ : Z;
  crop_ : CropMaintainAspect;
  stretch_middle_ : bool
}.
Arguments image_ {D} _.
Arguments src_width_ {D} _.
Arguments src_height_ {D} _.
Arguments crop_ {D} _.
Arguments stretch_middle_ {D} _.

Section ImgElement.

Context {D St : Type} `{Double D}.

(** [BasicElement::IsPointIn], the test against the element's bounds
    (basic_element.cc). *)
Variable BasicElement_IsPointIn : BasicElement D St -> D -> D -> bool.

(** [MapStretchMiddleCoordDestToSrc] (canvas_utils.h) with the four border
    arguments [-1]: x, y, image width and height, pixel width and height. *)
Variable MapStretchMiddleCoordDestToSrc : D -> D -> D -> D -> D -> D -> D * D.

(** The image point a local point maps to under the crop and stretch-middle
    settings. *)
Definition map_to_image (impl : ImgImpl D) (img : Image D)
    (pxwidth pxheight x y : D) : D * D :=
  let imgw := of_size_t (Image_GetWidth img) in
  let imgh := of_size_t (Image_GetHeight img) in
  if decide (crop_ impl = CROP_FALSE) then
    if stretch_middle_ impl
    then MapStretchMiddleCoordDestToSrc x y imgw imgh pxwidth pxheight
    else (ddiv (dmul x imgw) pxwidth, ddiv (dmul y imgh) pxheight)
  else
    let scale := std_max (ddiv pxwidth imgw) (ddiv pxheight imgh) in
    let w := dmul scale imgw in
    let h := dmul scale imgh in
    let x0 := ddiv (dsub pxwidth w) d2 in
    let y0 := ddiv (dsub pxheight h) d2 in
    let y0 := if bool_decide (crop_ impl = CROP_PHOTO) && dltb y0 d0
              then d0 else y0 in
    (ddiv (dmul (dsub x x0) imgw) w, ddiv (dmul (dsub y y0) imgh) h).

Definition ImgElement_IsPointIn (this : BasicElement D St) (impl : ImgImpl D)
    (x y : D) : bool :=
  if negb (BasicElement_IsPointIn this x y) then false
  else
    let pxwidth := GetPixelWidth this in
    let pxheight := GetPixelHeight this in
    match image_ impl with
    | Some img =>
        if dgtb pxwidth d0 && dgtb pxheight d0 then
          let '(x, y) := map_to_image impl img pxwidth pxheight x y in
          match GetPointValue img x y with
          | None => true
          | Some opacity => dgtb opacity d0
          end
        else false
    | None => false
    end.

End ImgElement.

(** ** Sequences of calls and the z-order they should give *)

(** A call of [AppendElement] or [InsertElement]. *)
Inductive Call : Type :=
  | CallAppend (tag_name : string) (name : option string)
  | CallInsert (tag_name : string) (before : ElementPtr) (name : option string).

Section Calls.

Context {D St : Type} `{Double D}.

Definition do_call (view : View D St) (c : Call)
    (w : World D St) (impl : Impl D St) : ElementPtr * World D St * Impl D St :=
  match c with
  | CallAppend tag_name name => AppendElement view tag_name name w impl
  | CallInsert tag_name before name =>
      InsertElement view tag_name before name w impl
  end.

(** The calls made one after the other; the pointers they return are
    collected in order. *)
Fixpoint do_calls (view : View D St) (cs : list Call)
    (w : World D St) (impl : Impl D St)
    : list ElementPtr * World D St * Impl D St :=
  match cs with
  | [] => ([], w, impl)
  | c :: r =>
      let '(e, w1, impl1) := do_call view c w impl in
      let '(es, w2, impl2) := do_calls view r w1 impl1 in
      (e :: es, w2, impl2)
  end.

End Calls.

(** The order the specification asks for, written from its words: an
    appended element goes to the end; an inserted element goes immediately
    before the [before] child, or to the end when [before] is null or is not
    a child. *)
Fixpoint place_before (b e : nat) (l : list nat) : list nat :=
  match l with
  | [] => [e]
  | a :: r => if decide (a = b) then e :: a :: r else a :: place_before b e r
  end.

Definition place (c : Call) (e : nat) (l : list nat) : list nat :=
  match c with
  | CallAppend _ _ => l ++ [e]
  | CallInsert _ None _ => l ++ [e]
  | CallInsert _ (Some b) _ => place_before b e l
  end.

Fixpoint z_order (l : list nat) (created : list (Call * nat)) : list nat :=
  match created with
  | [] => l
  | (c, e) :: r => z_order (place c e l) r
  end.

(** The contract of a constructing call (the specification's words for
    [AppendElement] and [InsertElement]): the call returns null exactly when
    the factory returns null or the view's hook refuses the new element; a
    refused element is destroyed; a failed call adds no child. *)
Definition construction_contract {D St : Type} (view : View D St)
    (tag_name : string) (name : option string)
    (call : World D St -> Impl D St -> ElementPtr * World D St * Impl D St)
    : Prop :=
  forall (w : World D St) (impl : Impl D St),
    let created :=
      ElementFactory.CreateElement (factory_ impl) tag_name (owner_ impl) name w in
    let vetoed :=
      match created.1 with
      | Some e => negb (OnElementAdd view (heap created.2) e)
      | None => false
      end in
    let '(r, w', impl') := call w impl in
    (created.1 = None <-> factory_ impl !! tag_name = None)
    /\ (r = None <-> created.1 = None \/ vetoed = true)
    /\ (vetoed = true ->
        exists e, created.1 = Some e /\ heap w !! e = None
                  /\ heap w' !! e = None /\ heap w' = heap w)
    /\ (r = None -> children_ impl' = children_ impl /\ impl' = impl)
    /\ (forall e, r = Some e ->
        created.1 = Some e /\ is_Some (heap w' !! e) /\ e ∈ children_ impl'
        /\ length (children_ impl') = S (length (children_ impl))).

(** The child at [a] has a name that compares equal to the lookup name under
    the comparison policy. *)
Definition name_matches {D St : Type} (GADGET_CASE_SENSITIVE : bool)
    (h : gmap nat (BasicElement D St)) (name : string) (a : nat) : Prop :=
  exists el, h !! a = Some el
             /\ StringUtils.GadgetStrCmp GADGET_CASE_SENSITIVE (GetName el) name = 0.

(** Every child pointer of the collection points to a live element. *)
Definition children_live {D St : Type} (w : World D St) (impl : Impl D St)
    : Prop :=
  forall a, a ∈ children_ impl -> is_Some (heap w !! a).

(** ** A small concrete scene

    Coordinates are rationals and the elements are unrotated rectangles, so
    that the operations can be run on examples. *)

Module Scene.

#[export] Instance Double_Q : Double Q := {|
  d0 := 0%Q;
  d2 := 2%Q;
  dadd := Qplus;
  dsub := Qminus;
  dmul := Qmult;
  ddiv := Qdiv;
  dneg := Qopp;
  dltb := fun a b => negb (Qle_bool b a);
  dgtb := fun a b => negb (Qle_bool a b);
  deqb := Qeq_bool;
  ceil_size_t := fun a => Z.max 0 (Qceiling a);
  of_size_t := inject_Z
|}.

(** Coordinate helpers for unrotated children. *)
#[export] Instance MathUtils_Q : MathUtils Q := {|
  DegreesToRadians := fun d => (d * (355 # 113) / 180)%Q;
  ParentCoordToChildCoord := fun x y cx cy pin_x pin_y _ =>
    ((x - cx + pin_x)%Q, (y - cy + pin_y)%Q);
  GetChildExtentInParent := fun x y pin_x pin_y width height _ =>
    ((x - pin_x + width)%Q, (y - pin_y + height)%Q)
|}.

(** The private state of an element is its own "queued for redraw" flag. *)
Definition set_private (e : BasicElement Q bool) (b : bool) : BasicElement Q bool :=
  {| GetTagName := GetTagName e; GetName := GetName e;
     GetParentElement := GetParentElement e; IsVisible := IsVisible e;
     GetPixelX := GetPixelX e; GetPixelY := GetPixelY e;
     GetPixelPinX := GetPixelPinX e; GetPixelPinY := GetPixelPinY e;
     GetPixelWidth := GetPixelWidth e; GetPixelHeight := GetPixelHeight e;
     GetRotation := GetRotation e;
     IsPositionChanged := IsPositionChanged e; IsSizeChanged := false;
     GetMaskCanvas := GetMaskCanvas e; GetPrivate := b |}.

#[export] Instance ElementMethods_Q : ElementMethods Q bool := {|
  IsPointIn := fun e x y =>
    Qle_bool 0 x && negb (Qle_bool (GetPixelWidth e) x)
    && Qle_bool 0 y && negb (Qle_bool (GetPixelHeight e) y);
  Element_Layout := fun e => e;
  Element_Draw := fun e =>
    {| dr_canvas := Some 1%nat; dr_changed := GetPrivate e;
       dr_element := set_private e false |};
  SelfCoordToChildCoord := fun _ child x y =>
    ((x - GetPixelX child + GetPixelPinX child)%Q,
     (y - GetPixelY child + GetPixelPinY child)%Q)
|}.

(** The creator of a rectangle at a fixed place; a null name is the empty
    name. *)
Definition rect (x y width height : Q) : ElementFactory.Creator Q bool :=
  fun parent name =>
    {| GetTagName := "rect"; GetName := default ""%string name;
       GetParentElement := parent; IsVisible := true;
       GetPixelX := x; GetPixelY := y; GetPixelPinX := 0%Q; GetPixelPinY := 0%Q;
       GetPixelWidth := width; GetPixelHeight := height; GetRotation := 0%Q;
       IsPositionChanged := true; IsSizeChanged := true;
       GetMaskCanvas := None; GetPrivate := true |}.

Definition factory : ElementFactory.t Q bool :=
  <["rect50"%string := rect 50 50 100 100]>
    (<["rect"%string := rect 0 0 100 100]> ∅).

(** A view that accepts every element but those named "no". *)
Definition view (popup : ElementPtr) : View Q bool :=
  {| OnElementAdd := fun h e =>
       match h !! e with
       | Some el => negb (String.eqb (GetName el) "no")
       | None => false
       end;
     GetPopupElement := popup;
     GetWidth := 200%Q; GetHeight := 200%Q; GetDebugMode := 0 |}.

Definition no_cells : Cells :=
  {| cell_child := None; cell_descendant := None;
     cell_fired := None; cell_in := None |}.

Definition world0 : World Q bool :=
  {| heap := ∅; cells := no_cells; death_detected_elements_ := [] |}.

Definition graphics0 : Graphics :=
  {| gfx_next_id := 10%nat; gfx_destroyed := [];
     gfx_can_allocate := fun _ _ => true |}.

(** The root collection of the view, empty. *)
Definition root : Impl Q bool := Impl_new factory None.

(** Three children: two appended, a third inserted before the second. *)
Definition three_calls : list Call :=
  [CallAppend "rect" (Some "Bottom"%string);
   CallAppend "rect50" (Some "top"%string);
   CallInsert "rect" (Some 1%nat) (Some "TOP"%string)].

(** Handlers chosen by the name of the element: "close" removes itself;
    "pass" does nothing; "shy" fires the event and returns UNHANDLED;
    "frame" stands for a container whose inner element, at address 99, was
    reported as in-element and then removed itself while handling the
    event; any other element fires the event and returns HANDLED. *)
Definition handler (c : nat) (ev : PositionEvent Q) (w : World Q bool)
    (impl : Impl Q bool) : EventResult * list (Action Q bool) :=
  match heap w !! c with
  | None => (EVENT_RESULT_UNHANDLED, [])
  | Some el =>
      if String.eqb (GetName el) "close" then
        (EVENT_RESULT_HANDLED, [ActRemoveElement c])
      else if String.eqb (GetName el) "pass" then
        (EVENT_RESULT_UNHANDLED, [])
      else if String.eqb (GetName el) "shy" then
        (EVENT_RESULT_UNHANDLED, [ActSetFired (Some c); ActSetIn (Some c)])
      else if String.eqb (GetName el) "frame" then
        (EVENT_RESULT_CANCELED, [ActSetIn (Some 99%nat); ActRemoveElement 99%nat])
      else
        (EVENT_RESULT_HANDLED, [ActSetFired (Some c); ActSetIn (Some c)])
  end.

#[export] Instance ElementHandlers_Q : ElementHandlers Q bool := {|
  Element_OnMouseEvent := handler;
  Element_OnDragEvent := handler
|}.

(** Handlers of another kind: the element named "grow" appends a
    rectangle to the collection it is in and returns UNHANDLED; any other
    element does nothing. *)
Definition growing_handler (c : nat) (ev : PositionEvent Q) (w : World Q bool)
    (impl : Impl Q bool) : EventResult * list (Action Q bool) :=
  match heap w !! c with
  | Some el =>
      if String.eqb (GetName el) "grow" then
        (EVENT_RESULT_UNHANDLED, [ActAppendElement "rect" (Some "new"%string)])
      else (EVENT_RESULT_UNHANDLED, [])
  | None => (EVENT_RESULT_UNHANDLED, [])
  end.

Definition ElementHandlers_growing : ElementHandlers Q bool := {|
  Element_OnMouseEvent := growing_handler;
  Element_OnDragEvent := growing_handler
|}.

(** A mouse-down at (75, 75). *)
Definition click : PositionEvent Q :=
  {| GetType := EVENT_MOUSE_DOWN; GetX := 75%Q; GetY := 75%Q; GetDetail := 1 |}.

(** A drag-motion at the same point. *)
Definition drag : PositionEvent Q :=
  {| GetType := EVENT_DRAG_MOTION; GetX := 75%Q; GetY := 75%Q; GetDetail := 0 |}.

(** The two events as a rectangle placed at (50, 50) gets them, in its own
    coordinates. *)
Definition click_in_top : PositionEvent Q :=
  SetXY click (75 - 50 + 0)%Q (75 - 50 + 0)%Q.

Definition drag_in_top : PositionEvent Q :=
  SetXY drag (75 - 50 + 0)%Q (75 - 50 + 0)%Q.

(** The collection after two overlapping rectangles have been appended,
    the first named [bottom] and the second, on top, named [top]. *)
Definition two_rects (bottom top : string)
    : list ElementPtr * World Q bool * Impl Q bool :=
  do_calls (view None)
    [CallAppend "rect" (Some bottom); CallAppend "rect50" (Some top)]
    world0 root.

(** The same with an inner element at address 99, a child of the second
    rectangle. *)
Definition two_rects_inner (bottom top : string) : World Q bool * Impl Q bool :=
  (store_element 99%nat (rect 60 60 20 20 (Some 1%nat) (Some "inner"%string))
     (two_rects bottom top).1.2,
   (two_rects bottom top).2).

(** The two rectangles, with any names that do not choose a handler. *)
Definition scene_ab : World Q bool * Impl Q bool :=
  ((two_rects "a" "b").1.2, (two_rects "a" "b").2).

(** A single rectangle. *)
Definition scene_a : World Q bool * Impl Q bool :=
  let r := do_calls (view None) [CallAppend "rect" (Some "a"%string)]
             world0 root in
  (r.1.2, r.2).

(** [Layout] on a state. *)
Definition laid_out (v : View Q bool) (s : World Q bool * Impl Q bool)
    : World Q bool * Impl Q bool :=
  default s (Layout v s.1 s.2).

(** [Draw] on a state, and [Draw] again on what the first call left. *)
Definition drawn_once (popup : ElementPtr) (s : World Q bool * Impl Q bool)
    : option (DrawReturn Q bool) :=
  Draw (view popup) graphics0 s.1 s.2.

Definition drawn_again (popup : ElementPtr) (s : World Q bool * Impl Q bool)
    : option (DrawReturn Q bool) :=
  match drawn_once popup s with
  | Some r => Draw (view popup) (ret_graphics r) (ret_world r) (ret_impl r)
  | None => None
  end.

(** A scrollable root collection with the two rectangles, laid out and
    drawn, from which the larger rectangle is then removed. *)
Definition scroll_ab : World Q bool * Impl Q bool :=
  let r := do_calls (view None)
             [CallAppend "rect" (Some "a"%string);
              CallAppend "rect50" (Some "b"%string)]
             world0 (SetScrollable true root) in
  laid_out (view None) (r.1.2, r.2).

Definition scroll_a : World Q bool * Impl Q bool :=
  match drawn_once None scroll_ab with
  | Some r =>
      let '(_, w, impl) := RemoveElement (Some 1%nat) (ret_world r) (ret_impl r) in
      (w, impl)
  | None => scroll_ab
  end.

(** A collection owned by a panel, at address 7, that is 10.5 pixels wide
    and 30 pixels high. *)
Definition panel : World Q bool * Impl Q bool :=
  (store_element 7%nat (rect 0 0 (21 # 2) 30 None (Some "panel"%string)) world0,
   Impl_new factory (Some 7%nat)).

(** Images: one whose pixels cannot be read back, one that is fully
    transparent. *)
Definition blind_image : Image Q :=
  {| Image_GetWidth := 10; Image_GetHeight := 10;
     GetPointValue := fun _ _ => None |}.

Definition clear_image : Image Q :=
  {| Image_GetWidth := 10; Image_GetHeight := 10;
     GetPointValue := fun _ _ => Some 0%Q |}.

Definition img_impl (img : Image Q) : ImgImpl Q :=
  {| image_ := Some img; src_width_ := 10; src_height_ := 10;
     crop_ := CROP_FALSE; stretch_middle_ := false |}.

Definition img_element : BasicElement Q bool :=
  rect 0 0 100 100 None (Some "picture"%string).

(** The bounds test of the base class and the stretch-middle mapping, for
    elements without borders. *)
Definition in_bounds (e : BasicElement Q bool) (x y : Q) : bool :=
  Qle_bool 0 x && Qle_bool x (GetPixelWidth e)
  && Qle_bool 0 y && Qle_bool y (GetPixelHeight e).

Definition stretch_middle (x y imgw imgh pxwidth pxheight : Q) : Q * Q :=
  ((x * imgw / pxwidth)%Q, (y * imgh / pxheight)%Q).

End Scene.

(** ** The other string utilities (string_utils.cc)

    A [std::string] is a [string], embedded terminators included; a
    [const char *] argument is a [string] read up to its first terminator,
    and an [option] of one where the code tests the pointer. *)

Module StringUtilsMore.
Import StringUtils.

(** The value of a [char]: [char] is signed. *)
Definition char_val (c : ascii) : Z :=
  if byte_val c <? 128 then byte_val c else byte_val c - 256.

(** [toupper] in the C locale. *)
Definition toupper (c : ascii) : ascii :=
  let n := N_of_ascii c in
  if (97 <=? n)%N && (n <=? 122)%N then ascii_of_N (n - 32) else c.

(** [isspace] in the C locale. *)
Definition isspace (c : ascii) : bool :=
  let n := N_of_ascii c in
  (n =? 32)%N || ((9 <=? n)%N && (n <=? 13)%N).

(** The common loop of [strncmp] and [strncasecmp]: at most [n] bytes are
    compared. *)
Fixpoint strn_compare (fold : ascii -> ascii) (s1 s2 : string) (n : nat) : Z :=
  match n with
  | O => 0
  | S n' =>
      let c1 := head_byte s1 in
      let c2 := head_byte s2 in
      if Ascii.eqb c1 NUL || negb (Ascii.eqb (fold c1) (fold c2))
      then byte_val (fold c1) - byte_val (fold c2)
      else strn_compare fold (tail s1) (tail s2) n'
  end.

Definition strncasecmp : string -> string -> nat -> Z := strn_compare tolower.


Definition GadgetCharCmp (GADGET_CASE_SENSITIVE : bool) (c1 c2 : ascii) : Z :=
  if GADGET_CASE_SENSITIVE then char_val c1 - char_val c2
  else char_val (toupper c1) - char_val (toupper c2).

(** [dest->empty()] *)
Definition empty (s : string) : bool :=
  match s with
  | EmptyString => true
  | String _ _ => false
  end.

(** [AssignIfDiffer]: the result and the new value of [*dest]. *)
Definition AssignIfDiffer (source : option string) (dest : string)
    (comparator : string -> string -> Z) : bool * string :=
  let cleared := if negb (empty dest) then (true, EmptyString) else (false, dest) in
  match source with
  | Some s =>
      if negb (Ascii.eqb (head_byte s) NUL) then
        if negb (comparator s (c_str dest) =? 0) then (true, c_str s)
        else (false, dest)
      else cleared
  | None => cleared
  end.

(** [chars.find(c) != npos] *)
Fixpoint contains (chars : string) (c : ascii) : bool :=
  match chars with
  | EmptyString => false
  | String d r => Ascii.eqb c d || contains r c
  end.

(** [s.find_first_not_of(chars)]; [None] is [npos]. *)
Fixpoint find_first_not_of (chars s : string) : option nat :=
  match s with
  | EmptyString => None
  | String c r =>
      if contains chars c then S <$> find_first_not_of chars r else Some O
  end.

(** [s.find_last_not_of(chars)] *)
Fixpoint find_last_not_of (chars s : string) : option nat :=
  match s with
  | EmptyString => None
  | String c r =>
      match find_last_not_of chars r with
      | Some k => Some (S k)
      | None => if contains chars c then None else Some O
      end
  end.

(** The characters [TrimString] removes: space, tab, carriage return and
    line feed. *)
Definition kTrimChars : string :=
  String " " (String "009" (String "013" (String "010" EmptyString))).

(** [TrimString].  The assertion [end != npos] is not compiled into a
    release build; were it to fail, [end - start + 1] would wrap around and
    the substring would run to the end of [s]. *)
Definition TrimString (s : string) : string :=
  match find_first_not_of kTrimChars s with
  | None => EmptyString
  | Some start =>
      match find_last_not_of kTrimChars s with
      | Some end_ => substring start (end_ - start + 1) s
      | None => substring start (String.length s - start) s
      end
  end.

(** [std::transform(s.begin(), s.end(), s.begin(), f)] *)
Fixpoint transform (f : ascii -> ascii) (s : string) : string :=
  match s with
  | EmptyString => EmptyString
  | String c r => String (f c) (transform f r)
  end.

Definition ToLower (s : string) : string := transform tolower s.
Definition ToUpper (s : string) : string := transform toupper s.

Definition kSlash : ascii := "/".
Definition kBackSlash : ascii := "\".

(** [IsValidURLChar] *)
Definition IsValidURLChar (c : ascii) : bool :=
  let n := N_of_ascii c in
  negb ((n <=? 32)%N
        || Ascii.eqb "<" c || Ascii.eqb ">" c || Ascii.eqb "034" c
        || Ascii.eqb "{" c || Ascii.eqb "}" c
        || Ascii.eqb kBackSlash c || Ascii.eqb "[" c || Ascii.eqb "]" c
        || Ascii.eqb "010" c || Ascii.eqb "013" c
        || (128 <=? n)%N).

(** [kHexChars[i]] for [i] below sixteen. *)
Definition kHexChars (i : N) : ascii :=
  if (i <? 10)%N then ascii_of_N (48 + i) else ascii_of_N (87 + i).

(** [EncodeURL] *)
Fixpoint EncodeURL (source : string) : string :=
  match source with
  | EmptyString => EmptyString
  | String src r =>
      if Ascii.eqb src kBackSlash then String kSlash (EncodeURL r)
      else if negb (IsValidURLChar src) then
        String "%"
          (String (kHexChars (N.shiftr (N_of_ascii src) 4))
             (String (kHexChars (N.land (N_of_ascii src) 15)) (EncodeURL r)))
      else String src (EncodeURL r)
  end.

(** The loop of [IsValidRSSURL] over the characters of the C string. *)
Fixpoint all_valid_url_chars (url : string) : bool :=
  match url with
  | EmptyString => true
  | String c r =>
      if Ascii.eqb c NUL then true
      else IsValidURLChar c && all_valid_url_chars r
  end.

(** [IsValidRSSURL]; the three prefixes are constants of gadget_consts.h,
    free of terminators. *)
Definition IsValidRSSURL (kHttpUrlPrefix kHttpsUrlPrefix kFeedUrlPrefix : string)
    (url : option string) : bool :=
  match url with
  | None => false
  | Some u =>
      if negb (strncasecmp u kHttpUrlPrefix (String.length kHttpUrlPrefix) =? 0)
         && negb (strncasecmp u kHttpsUrlPrefix (String.length kHttpsUrlPrefix) =? 0)
         && negb (strncasecmp u kFeedUrlPrefix (String.length kFeedUrlPrefix) =? 0)
      then false
      else all_valid_url_chars u
  end.

(** A [UTF16Char]: a code unit, below 65536. *)
Definition UTF16Char : Type := N.

(** Upper-case hexadecimal digit of the low four bits. *)
Definition hex_digit_upper (i : N) : ascii :=
  let d := (i mod 16)%N in
  if (d <? 10)%N then ascii_of_N (48 + d) else ascii_of_N (55 + d).

(** [snprintf(buf, sizeof(buf), "\\u%04X", c)] for a code unit [c]. *)
Definition u_escape (c : UTF16Char) : string :=
  String "\" (String "u"
    (String (hex_digit_upper (c / 4096))
       (String (hex_digit_upper (c / 256))
          (String (hex_digit_upper (c / 16))
             (String (hex_digit_upper c) EmptyString))))).

(** What [EncodeJavaScriptString] appends for one code unit. *)
Definition encode_js_char (c : UTF16Char) : string :=
  if (c =? 34)%N then String "\" (String "034" EmptyString)
  else if (c =? 92)%N then String "\" (String "\" EmptyString)
  else if (c =? 10)%N then String "\" (String "n" EmptyString)
  else if (c =? 13)%N then String "\" (String "r" EmptyString)
  else if (127 <=? c)%N || (c <? 32)%N then u_escape c
  else String (ascii_of_N c) EmptyString.

(** [EncodeJavaScriptString]: the source is read up to its first zero. *)
Fixpoint EncodeJavaScriptString (source : list UTF16Char) : string :=
  match source with
  | [] => EmptyString
  | c :: r =>
      if (c =? 0)%N then EmptyString
      else append (encode_js_char c) (EncodeJavaScriptString r)
  end.

(** [source.find(separator)]; [None] is [npos]. *)
Fixpoint find (source separator : string) : option nat :=
  if String.prefix separator source then Some O
  else match source with
       | EmptyString => None
       | String _ r => S <$> find r separator
       end.

(** [s.substr(pos)] *)
Definition substr_from (pos : nat) (s : string) : string :=
  substring pos (String.length s - pos) s.

(** [SplitString].  An output is [None] for a null pointer and holds the
    string pointed to otherwise; the result carries the outputs after the
    call. *)
Definition SplitString (source separator : string)
    (result_left result_right : option string)
    : bool * option string * option string :=
  match find source separator with
  | None =>
      (false,
       match result_left with Some _ => Some source | None => None end,
       match result_right with Some _ => Some EmptyString | None => None end)
  | Some pos =>
      (true,
       match result_left with
       | Some _ => Some (substring 0 pos source)
       | None => None
       end,
       match result_right with
       | Some _ => Some (substr_from (pos + String.length separator) source)
       | None => None
       end)
  end.

(** The loop of [CompressWhiteSpaces]. *)
Fixpoint CompressWhiteSpaces_loop (source result : string) (in_space : bool)
    : string :=
  match source with
  | EmptyString => result
  | String c r =>
      if Ascii.eqb c NUL then result
      else if isspace c then CompressWhiteSpaces_loop r result true
      else
        let result1 :=
          if in_space && negb (empty result)
          then append result (String " " EmptyString) else result in
        CompressWhiteSpaces_loop r (append result1 (String c EmptyString)) false
  end.

Definition CompressWhiteSpaces (source : string) : string :=
  CompressWhiteSpaces_loop source EmptyString false.

(** The inner loop of [SimpleMatchXPath], entered at an opening bracket:
    the pointer moves past the next closing bracket, or stops at the
    terminator. *)
Fixpoint skip_index (xpath : string) : string :=
  match xpath with
  | EmptyString => EmptyString
  | String c r =>
      if Ascii.eqb c NUL then xpath
      else if Ascii.eqb c "]" then r
      else skip_index r
  end.

(** [SimpleMatchXPath]: each turn of the loop consumes one character of
    [pattern]. *)
Fixpoint SimpleMatchXPath (GADGET_CASE_SENSITIVE : bool)
    (xpath pattern : string) : bool :=
  match pattern with
  | EmptyString => Ascii.eqb (head_byte xpath) NUL
  | String p pattern' =>
      if Ascii.eqb p NUL then Ascii.eqb (head_byte xpath) NUL
      else if Ascii.eqb (head_byte xpath) NUL then false
      else if negb (GadgetCharCmp GADGET_CASE_SENSITIVE (head_byte xpath) p =? 0)
      then false
      else
        let xpath1 := tail xpath in
        SimpleMatchXPath GADGET_CASE_SENSITIVE
          (if Ascii.eqb (head_byte xpath1) "[" then skip_index xpath1
           else xpath1)
          pattern'
  end.

End StringUtilsMore.

(** What the string utilities are checked against. *)
Module StringMoreSpec.
Import StringUtils StringUtilsMore.

(** The bytes of a [std::string]. *)
Definition bytes (s : string) : list ascii := list_ascii_of_string s.

(** One of the characters [TrimString] removes. *)
Definition trim_char (c : ascii) : bool := contains kTrimChars c.

(** A printable character of US-ASCII: space to tilde. *)
Definition printable (c : ascii) : Prop :=
  (32 <= N_of_ascii c <= 126)%N.

(** [sep] occurs in [s]. *)
Definition occurs (sep s : string) : Prop :=
  exists l r : string, s = append l (append sep r).

(** The code units of a zero-terminated UTF-16 string. *)
Fixpoint until_zero (source : list UTF16Char) : list UTF16Char :=
  match source with
  | [] => []
  | c :: r => if (c =? 0)%N then [] else c :: until_zero r
  end.

(** What the loop of [CompressWhiteSpaces] appends to its result for the
    rest [source] of the input: [in_space] is the loop's flag and
    [nonempty] tells whether the result holds anything yet. *)
Fixpoint compress_tail (source : string) (in_space nonempty : bool) : string :=
  match source with
  | EmptyString => EmptyString
  | String c r =>
      if Ascii.eqb c NUL then EmptyString
      else if isspace c then compress_tail r true nonempty
      else
        let rest := String c (compress_tail r false true) in
        if in_space && nonempty then String " " rest else rest
  end.

(** A text in which white space is single spaces between other
    characters: every white-space character is a space and is followed by
    a character that is not white space, and there is no terminator. *)
Fixpoint spaced (l : list ascii) : Prop :=
  match l with
  | [] => True
  | c :: r =>
      (if isspace c
       then c = " "%char
            /\ match r with
               | c' :: _ => isspace c' = false
               | [] => False
               end
       else c <> NUL)
      /\ spaced r
  end.

End StringMoreSpec.

(** ** What the other operations of the collection are checked against *)

Section ElementsMore.

Context {D St : Type} `{Double D}.


(** The collection holds every child once and every child is alive. *)
Definition well_formed (w : World D St) (impl : Impl D St) : Prop :=
  NoDup (children_ impl) /\ children_live w impl.

(** The canvases of children drawn by a sequence of calls on the
    collection's canvas, in the order of the calls. *)
Definition painted (ops : list (CanvasOp D)) : list nat :=
  omap (fun op =>
          match op with
          | DrawCanvas _ _ img => Some img
          | DrawCanvasWithMask _ _ img _ _ _ => Some img
          | _ => None
          end) ops.

(** The depth of the canvas state stack after a sequence of calls that
    starts at depth [n]; [None] when a [PopState] finds the stack empty. *)
Fixpoint state_depth (n : nat) (ops : list (CanvasOp D)) : option nat :=
  match ops with
  | [] => Some n
  | PushState :: r => state_depth (S n) r
  | PopState :: r =>
      match n with
      | O => None
      | S n' => state_depth n' r
      end
  | _ :: r => state_depth n r
  end.

(** The graphics backend and a cached canvas agree: no canvas was destroyed
    twice, every canvas destroyed was handed out before, and the cached
    canvas was handed out and is not destroyed. *)
Definition graphics_ok (g : Graphics) (canvas : option (Canvas D)) : Prop :=
  NoDup (gfx_destroyed g)
  /\ (forall id, id ∈ gfx_destroyed g -> (id < gfx_next_id g)%nat)
  /\ (forall c, canvas = Some c ->
      (canvas_id c < gfx_next_id g)%nat /\ canvas_id c ∉ gfx_destroyed g).

End ElementsMore.

(** * Properties of the string comparison *)

Lemma static_cast_int_small (v : Z) :
  - 2 ^ 31 <= v <= INT_MAX -> static_cast_int v = v.
Proof.
  unfold static_cast_int, INT_MAX. intros Hv.
  rewrite Z.mod_small by lia. lia.
Qed.


Module StringUtilsFacts.
Import StringUtils StringSpec.

Lemma byte_val_inj (a b : ascii) : byte_val a = byte_val b -> a = b.
Proof.
  unfold byte_val. intros H. apply N2Z.inj in H.
  rewrite <- (ascii_N_embedding a), <- (ascii_N_embedding b). now rewrite H.
Qed.

Lemma tolower_keeps_NUL : keeps_NUL tolower.
Proof.
  intros c. split.
  - destruct c as [[] [] [] [] [] [] [] []]; vm_compute; congruence.
  - intros ->. reflexivity.
Qed.

Lemma id_keeps_NUL : keeps_NUL (fun c => c).
Proof. intros c. reflexivity. Qed.

Lemma strlen_c_str (s : string) : strlen (c_str s) = strlen s.
Proof.
  induction s as [|c r IH]; simpl; [reflexivity|].
  destruct (Ascii.eqb c NUL) eqn:E; simpl; [reflexivity|].
  rewrite E. now rewrite IH.
Qed.

Lemma strlen_0_head (s : string) : strlen s = O <-> head_byte s = NUL.
Proof.
  destruct s as [|c r]; simpl; [tauto|].
  destruct (Ascii.eqb c NUL) eqn:E.
  - apply Ascii.eqb_eq in E. tauto.
  - apply Ascii.eqb_neq in E. split; [discriminate | tauto].
Qed.

(** Two strings compare equal exactly when their folded C strings agree
    in length-zero-ness; the part used by the name lookup. *)
Lemma str_compare_0_empty (fold : ascii -> ascii) (s1 s2 : string) :
  keeps_NUL fold -> str_compare fold s1 s2 = 0 ->
  (strlen s1 = O <-> strlen s2 = O).
Proof.
  intros Hf H. rewrite !strlen_0_head.
  destruct s1 as [|c1 r1]; simpl in *.
  - assert (fold NUL = fold (head_byte s2)) as E by (apply byte_val_inj; lia).
    split; [intros _|reflexivity].
    apply Hf. rewrite <- E. now apply Hf.
  - destruct (Ascii.eqb c1 NUL) eqn:E1; simpl in H.
    + apply Ascii.eqb_eq in E1. subst c1.
      assert (fold NUL = fold (head_byte s2)) as E by (apply byte_val_inj; lia).
      split; [intros _|reflexivity].
      apply Hf. rewrite <- E. now apply Hf.
    + apply Ascii.eqb_neq in E1.
      destruct (Ascii.eqb (fold c1) (fold (head_byte s2))) eqn:E2; simpl in H.
      * apply Ascii.eqb_eq in E2. split; [tauto|].
        intros E. exfalso. apply E1. apply Hf. rewrite E2. now apply Hf.
      * apply Ascii.eqb_neq in E2. exfalso. apply E2. apply byte_val_inj. lia.
Qed.

(** The full characterisation: equality of the folded C strings. *)
Lemma str_compare_0_iff (fold : ascii -> ascii) (s1 s2 : string) :
  keeps_NUL fold ->
  str_compare fold s1 s2 = 0 <->
  map_string fold (c_str s1) = map_string fold (c_str s2).
Proof.
  intros Hf. revert s2.
  induction s1 as [|c1 r1 IH]; intros s2.
  - simpl. destruct s2 as [|c2 r2]; simpl.
    + split; [reflexivity | lia].
    + destruct (Ascii.eqb c2 NUL) eqn:E2.
      * apply Ascii.eqb_eq in E2. subst c2. split; [reflexivity | lia].
      * apply Ascii.eqb_neq in E2. simpl. split; [|discriminate].
        intros H. exfalso. apply E2. apply Hf.
        assert (fold NUL = fold c2) as E by (apply byte_val_inj; lia).
        rewrite <- E. now apply Hf.
  - simpl. destruct (Ascii.eqb c1 NUL) eqn:E1; simpl.
    + apply Ascii.eqb_eq in E1. subst c1.
      destruct s2 as [|c2 r2]; simpl.
      * split; [reflexivity | lia].
      * destruct (Ascii.eqb c2 NUL) eqn:E2.
        -- apply Ascii.eqb_eq in E2. subst c2. split; [reflexivity | lia].
        -- apply Ascii.eqb_neq in E2. simpl. split; [|discriminate].
           intros H. exfalso. apply E2. apply Hf.
           assert (fold NUL = fold c2) as E by (apply byte_val_inj; lia).
           rewrite <- E. now apply Hf.
    + apply Ascii.eqb_neq in E1.
      destruct (Ascii.eqb (fold c1) (fold (head_byte s2))) eqn:E2; simpl.
      * apply Ascii.eqb_eq in E2.
        destruct s2 as [|c2 r2]; simpl in *.
        -- exfalso. apply E1. apply Hf. rewrite E2. now apply Hf.
        -- destruct (Ascii.eqb c2 NUL) eqn:E3.
           ++ apply Ascii.eqb_eq in E3. subst c2.
              exfalso. apply E1. apply Hf. rewrite E2. now apply Hf.
           ++ simpl. rewrite IH. rewrite E2.
              split; [congruence | intros [= ->]; reflexivity].
      * apply Ascii.eqb_neq in E2. split.
        -- intros H. exfalso. apply E2. apply byte_val_inj. lia.
        -- intros H. exfalso. apply E2.
           destruct s2 as [|c2 r2]; simpl in *; [discriminate|].
           destruct (Ascii.eqb c2 NUL); simpl in H; [discriminate|].
           congruence.
Qed.

Lemma GadgetStrCmp_0_empty (cs : bool) (s1 s2 : string) :
  GadgetStrCmp cs s1 s2 = 0 -> (strlen s1 = O <-> strlen s2 = O).
Proof.
  destruct cs; simpl.
  - apply str_compare_0_empty, id_keeps_NUL.
  - apply str_compare_0_empty, tolower_keeps_NUL.
Qed.

End StringUtilsFacts.

(** * Properties of the container operations *)

Section ContainerFacts.

Context {D St : Type} `{Double D}.

Implicit Types (w : World D St) (impl : Impl D St) (view : View D St).

Lemma std_find_le (v : list nat) (p : ElementPtr) :
  (std_find v p <= length v)%nat.
Proof.
  induction v as [|a r IH]; simpl; [lia|].
  destruct (decide (Some a = p)); lia.
Qed.

Lemma std_find_None (v : list nat) : std_find v None = length v.
Proof.
  induction v as [|a r IH]; simpl; [reflexivity|].
  destruct (decide (Some a = None)); [discriminate | now rewrite IH].
Qed.

(** The vector insertion at the position [std::find] gives is the placement
    of the specification. *)
Lemma vector_insert_find_place_before (b e : nat) (v : list nat) :
  vector_insert (std_find v (Some b)) e v = place_before b e v.
Proof.
  unfold vector_insert.
  induction v as [|a r IH]; simpl; [reflexivity|].
  destruct (decide (Some a = Some b)) as [E|E].
  - injection E as ->. simpl. destruct (decide (b = b)); [reflexivity|congruence].
  - simpl. destruct (decide (a = b)) as [->|_]; [congruence|].
    now rewrite IH.
Qed.

Lemma vector_insert_end (e : nat) (v : list nat) :
  vector_insert (length v) e v = v ++ [e].
Proof.
  unfold vector_insert. now rewrite take_ge, drop_ge by lia.
Qed.

Lemma place_before_absent (b e : nat) (v : list nat) :
  b ∉ v -> place_before b e v = v ++ [e].
Proof.
  induction v as [|a r IH]; simpl; [reflexivity|].
  intros Hn. destruct (decide (a = b)) as [->|_].
  - exfalso. apply Hn. left.
  - rewrite IH; [reflexivity|]. intros Hr. apply Hn. now right.
Qed.

Lemma place_before_present (b e : nat) (v1 v2 : list nat) :
  b ∉ v1 -> place_before b e (v1 ++ b :: v2) = v1 ++ e :: b :: v2.
Proof.
  induction v1 as [|a r IH]; simpl; intros Hn.
  - destruct (decide (b = b)); [reflexivity|congruence].
  - destruct (decide (a = b)) as [->|_].
    + exfalso. apply Hn. left.
    + rewrite IH; [reflexivity|]. intros Hr. apply Hn. now right.
Qed.

Lemma AppendElement_success view tag_name name w impl e w' impl' :
  AppendElement view tag_name name w impl = (Some e, w', impl') ->
  children_ impl' = place (CallAppend tag_name name) e (children_ impl).
Proof.
  unfold AppendElement.
  destruct (ElementFactory.CreateElement _ _ _ _ _) as [[a|] w1]; [|discriminate].
  destruct (OnElementAdd view (heap w1) a); [|discriminate].
  intros [= <- <- <-]. reflexivity.
Qed.

Lemma InsertElement_success view tag_name before name w impl e w' impl' :
  InsertElement view tag_name before name w impl = (Some e, w', impl') ->
  children_ impl' = place (CallInsert tag_name before name) e (children_ impl).
Proof.
  unfold InsertElement.
  destruct (ElementFactory.CreateElement _ _ _ _ _) as [[a|] w1]; [|discriminate].
  destruct (OnElementAdd view (heap w1) a); [|discriminate].
  intros [= <- <- <-]. simpl.
  destruct before as [b|].
  - apply vector_insert_find_place_before.
  - rewrite std_find_None. apply vector_insert_end.
Qed.

Lemma do_call_success view c w impl e w' impl' :
  do_call view c w impl = (Some e, w', impl') ->
  children_ impl' = place c e (children_ impl).
Proof.
  destruct c; simpl.
  - apply AppendElement_success.
  - apply InsertElement_success.
Qed.

Lemma do_calls_success view cs : forall w impl created w' impl',
  do_calls view cs w impl = (Some <$> created, w', impl') ->
  children_ impl' = z_order (children_ impl) (zip cs created).
Proof.
  induction cs as [|c r IH]; intros w impl created w' impl'; simpl.
  - destruct created; [|discriminate]. now intros [= <- <-].
  - destruct (do_call view c w impl) as [[e w1] impl1] eqn:Ec.
    destruct (do_calls view r w1 impl1) as [[es w2] impl2] eqn:Er.
    destruct created as [|a created]; [discriminate|].
    simpl. intros [= -> -> <- <-].
    rewrite (IH _ _ _ _ _ Er).
    now rewrite (do_call_success _ _ _ _ _ _ _ Ec).
Qed.

Lemma GetItemByIndex_lookup impl (index : Z) :
  Z.of_nat (length (children_ impl)) <= INT_MAX ->
  GetItemByIndex impl index =
  if decide (0 <= index) then children_ impl !! Z.to_nat index else None.
Proof.
  intros Hfit. unfold GetItemByIndex.
  rewrite static_cast_int_small by (unfold INT_MAX in *; lia).
  destruct (decide (0 <= index)) as [Hi|Hi].
  - destruct (0 <=? index) eqn:E1; [|lia]. simpl.
    destruct (index <? Z.of_nat (length (children_ impl))) eqn:E2; [reflexivity|].
    symmetry. apply lookup_ge_None. lia.
  - destruct (0 <=? index) eqn:E1; [lia|]. reflexivity.
Qed.

End ContainerFacts.

Section ContainerClaims.

Context {D St : Type} `{Double D}.

Implicit Types (w : World D St) (impl : Impl D St) (view : View D St).

(** C3.  After any sequence of [AppendElement] and [InsertElement] calls
    that all succeed, [GetItemByIndex] reads the children in the order the
    specification describes: every appended element at the end, every
    inserted element immediately before its [before] child, or at the end
    when [before] is null or not a child; an index outside the range gives
    null. *)
Theorem GetItemByIndex_z_order view (calls : list Call) w impl
    (created : list nat) :
  (do_calls view calls w impl).1.1 = Some <$> created ->
  Z.of_nat (length (children_ (do_calls view calls w impl).2)) <= INT_MAX ->
  forall index : Z,
    GetItemByIndex (do_calls view calls w impl).2 index =
    if decide (0 <= index)
    then z_order (children_ impl) (zip calls created) !! Z.to_nat index
    else None.
Proof.
  intros Hres Hfit index.
  destruct (do_calls view calls w impl) as [[es w'] impl'] eqn:E.
  simpl in *. subst es.
  rewrite GetItemByIndex_lookup by exact Hfit.
  now rewrite (do_calls_success _ _ _ _ _ _ _ E).
Qed.

(** C5.  [AppendElement] and [InsertElement] return null exactly when the
    factory returns null, which it does exactly for a tag it does not know,
    or when the view's [OnElementAdd] refuses the element; a refused
    element is deleted before the call returns; a failed call leaves the
    collection as it was; and every call returns. *)
Theorem Append_Insert_null view (tag_name : string) (name : option string) :
  construction_contract view tag_name name (AppendElement view tag_name name)
  /\ forall before : ElementPtr,
       construction_contract view tag_name name
         (InsertElement view tag_name before name).
Proof.
  assert (Hfresh : forall w, heap w !! ElementFactory.allocate (heap w) = None).
  { intros w. apply not_elem_of_dom. apply is_fresh. }
  assert (Hlen : forall k e (v : list nat),
             (k <= length v)%nat -> length (vector_insert k e v) = S (length v)).
  { intros k e v Hk. unfold vector_insert.
    rewrite length_app, length_take. simpl. rewrite length_drop. lia. }
  split; [|intros before]; intros w impl; cbv zeta;
    unfold AppendElement, InsertElement, ElementFactory.CreateElement;
    destruct (factory_ impl !! tag_name) as [creator|] eqn:Ef; simpl;
    try destruct (OnElementAdd view _ _) eqn:Ev; simpl;
    (split; [split; intros; done|]);
    (split; [split; [intros; auto; done | intros [?|?]; done]|]);
    (split; [|split]).
  all: try (intros; discriminate).
  all: try (intros _; split; reflexivity).
  all: try (intros _; eexists; split; [reflexivity|]; split; [apply Hfresh|];
            split; [apply lookup_delete_eq|];
            rewrite delete_insert_eq; apply delete_id, Hfresh).
  - intros e [= <-]. split; [reflexivity|]. split; [|split].
    + rewrite lookup_insert_eq. eauto.
    + set_solver.
    + rewrite length_app. simpl. lia.
  - intros e [= <-]. split; [reflexivity|]. split; [|split].
    + rewrite lookup_insert_eq. eauto.
    + unfold vector_insert. set_solver.
    + apply Hlen, std_find_le.
Qed.

End ContainerClaims.

Section NameLookup.

Context {D St : Type} `{Double D}.

Variable GADGET_CASE_SENSITIVE : bool.

Implicit Types (w : World D St) (impl : Impl D St).

Lemma GetIndexByName_from_first (h : gmap nat (BasicElement D St))
    (name : string) (v : list nat) :
  forall (i k : nat) (a : nat),
    v !! k = Some a ->
    name_matches GADGET_CASE_SENSITIVE h name a ->
    (forall j b, (j < k)%nat -> v !! j = Some b ->
                 is_Some (h !! b)
                 /\ ~ name_matches GADGET_CASE_SENSITIVE h name b) ->
    GetIndexByName_from GADGET_CASE_SENSITIVE h name v i =
    Some (static_cast_int (Z.of_nat (i + k))).
Proof.
  induction v as [|c r IH]; intros i k a Hk Hm Hbefore; [discriminate|].
  simpl. destruct k as [|k]; simpl in Hk.
  - injection Hk as ->. destruct Hm as (el & -> & Hcmp).
    rewrite decide_True by exact Hcmp. now rewrite Nat.add_0_r.
  - destruct (Hbefore O c) as [[el Hel] Hnm]; [lia|reflexivity|].
    rewrite Hel. rewrite decide_False.
    + rewrite (IH (S i) k a Hk Hm).
      * do 3 f_equal. lia.
      * intros j b Hj Hb. apply (Hbefore (S j) b); [lia | exact Hb].
    + intros Hcmp. apply Hnm. exists el. auto.
Qed.

Lemma GetIndexByName_from_none (h : gmap nat (BasicElement D St))
    (name : string) (v : list nat) :
  forall i : nat,
    (forall a, a ∈ v -> is_Some (h !! a)
                        /\ ~ name_matches GADGET_CASE_SENSITIVE h name a) ->
    GetIndexByName_from GADGET_CASE_SENSITIVE h name v i = Some (-1).
Proof.
  induction v as [|c r IH]; intros i Hall; [reflexivity|].
  simpl. destruct (Hall c) as [[el Hel] Hnm]; [left|].
  rewrite Hel. rewrite decide_False.
  - apply IH. intros a Ha. apply Hall. now right.
  - intros Hcmp. apply Hnm. exists el. auto.
Qed.

(** Whatever index the loop returns is [-1] or the converted position of a
    child whose name compares equal. *)
Lemma GetIndexByName_from_sound (h : gmap nat (BasicElement D St))
    (name : string) (v : list nat) :
  forall (i : nat) (z : Z),
    GetIndexByName_from GADGET_CASE_SENSITIVE h name v i = Some z ->
    z = -1
    \/ exists k a, v !! k = Some a
                   /\ name_matches GADGET_CASE_SENSITIVE h name a
                   /\ z = static_cast_int (Z.of_nat (i + k)).
Proof.
  induction v as [|c r IH]; intros i z; simpl.
  - intros [= <-]. now left.
  - destruct (h !! c) as [el|] eqn:Hel; [|discriminate].
    destruct (decide (_ = 0)) as [Hcmp|Hcmp].
    + intros [= <-]. right. exists O, c. split; [reflexivity|].
      split; [exists el; auto|]. now rewrite Nat.add_0_r.
    + intros Hz. destruct (IH _ _ Hz) as [->|(k & a & Hk & Hm & ->)];
        [now left|].
      right. exists (S k), a. split; [exact Hk|]. split; [exact Hm|].
      do 2 f_equal. lia.
Qed.

(** C4.  For a non-empty lookup name, [GetItemByName] returns the child of
    lowest index whose name compares equal to the lookup name under
    [GadgetStrCmp], and null when no child's name does (so also for an empty
    collection); without [GADGET_CASE_SENSITIVE], the default, two names
    compare equal exactly when they are equal after lower-casing. *)
Theorem GetItemByName_first_match w impl (name : string) :
  StringUtils.strlen name <> O ->
  children_live w impl ->
  Z.of_nat (length (children_ impl)) <= INT_MAX ->
  (forall (k : nat) (a : nat),
      children_ impl !! k = Some a ->
      name_matches GADGET_CASE_SENSITIVE (heap w) name a ->
      (forall j b, (j < k)%nat -> children_ impl !! j = Some b ->
                   ~ name_matches GADGET_CASE_SENSITIVE (heap w) name b) ->
      GetItemByName GADGET_CASE_SENSITIVE w impl (Some name) = Some (Some a))
  /\ ((forall a, a ∈ children_ impl ->
                 ~ name_matches GADGET_CASE_SENSITIVE (heap w) name a) ->
      GetItemByName GADGET_CASE_SENSITIVE w impl (Some name) = Some None)
  /\ (forall s1 s2 : string,
        StringUtils.GadgetStrCmp false s1 s2 = 0 <->
        StringSpec.map_string StringUtils.tolower (StringUtils.c_str s1) =
        StringSpec.map_string StringUtils.tolower (StringUtils.c_str s2)).
Proof.
  intros Hname Hlive Hfit. split; [|split].
  - intros k a Hk Hm Hbefore.
    unfold GetItemByName, GetIndexByName.
    rewrite decide_False by exact Hname.
    rewrite (GetIndexByName_from_first _ _ _ O k a Hk Hm).
    + f_equal. simpl.
      assert (k < length (children_ impl))%nat as Hlt
        by (apply lookup_lt_is_Some; eauto).
      rewrite static_cast_int_small by (unfold INT_MAX in *; lia).
      rewrite GetItemByIndex_lookup by exact Hfit.
      rewrite decide_True by lia. now rewrite Nat2Z.id.
    + intros j b Hj Hb. split; [|now apply (Hbefore j b)].
      apply Hlive. apply list_elem_of_lookup. eauto.
  - intros Hnone. unfold GetItemByName, GetIndexByName.
    rewrite decide_False by exact Hname.
    rewrite GetIndexByName_from_none.
    + reflexivity.
    + intros a Ha. split; [now apply Hlive | now apply Hnone].
  - intros s1 s2. unfold StringUtils.GadgetStrCmp, StringUtils.strcasecmp.
    apply StringUtilsFacts.str_compare_0_iff, StringUtilsFacts.tolower_keeps_NUL.
Qed.

(** C10.  A null or empty lookup name gives index [-1] and a null item,
    whatever the children are called; and no lookup, under any name, returns
    a child whose own name is empty. *)
Theorem GetItemByName_empty_name w impl :
  (forall name : option string,
      name = None \/ (exists s, name = Some s /\ StringUtils.strlen s = O) ->
      GetIndexByName GADGET_CASE_SENSITIVE w impl name = Some (-1)
      /\ GetItemByName GADGET_CASE_SENSITIVE w impl name = Some None)
  /\ (forall (name : option string) (a : nat) (el : BasicElement D St),
        Z.of_nat (length (children_ impl)) <= INT_MAX ->
        GetItemByName GADGET_CASE_SENSITIVE w impl name = Some (Some a) ->
        heap w !! a = Some el ->
        StringUtils.strlen (GetName el) <> O).
Proof.
  split.
  - intros name [->|(s & -> & Hs)]; unfold GetItemByName, GetIndexByName.
    + split; reflexivity.
    + rewrite decide_True by exact Hs. split; reflexivity.
  - intros name a el Hfit Hget Hel.
    unfold GetItemByName in Hget.
    destruct (GetIndexByName _ w impl name) as [z|] eqn:Hidx; [|discriminate].
    injection Hget as Hget.
    unfold GetIndexByName in Hidx.
    destruct name as [s|]; [|injection Hidx as <-; discriminate].
    destruct (decide (StringUtils.strlen s = O)) as [Hs|Hs];
      [injection Hidx as <-; discriminate|].
    apply GetIndexByName_from_sound in Hidx.
    destruct Hidx as [->|(k & b & Hk & (el' & Hel' & Hcmp) & ->)];
      [discriminate|].
    assert (k < length (children_ impl))%nat as Hlt
      by (apply lookup_lt_is_Some; eauto).
    rewrite static_cast_int_small in Hget by (unfold INT_MAX in *; simpl; lia).
    rewrite GetItemByIndex_lookup in Hget by exact Hfit.
    rewrite decide_True in Hget by lia.
    simpl in Hget. rewrite Nat2Z.id in Hget.
    rewrite Hk in Hget. injection Hget as ->.
    rewrite Hel in Hel'. injection Hel' as <-.
    intros Hempty. apply Hs.
    now apply (StringUtilsFacts.GadgetStrCmp_0_empty _ _ _ Hcmp).
Qed.

End NameLookup.

(** * Properties of the death detectors and of the handler steps *)

Section DetectorFacts.

Context {D St : Type} `{Double D}.

Implicit Types (w : World D St) (impl : Impl D St) (cs : Cells)
         (x y : Cell) (e : nat).

Lemma get_set_cell x y (p : ElementPtr) cs :
  get_cell x (set_cell y p cs) = if decide (x = y) then p else get_cell x cs.
Proof. destruct x, y; reflexivity. Qed.

(** A notification of removal nulls exactly the registered cells that
    point to the removed element. *)
Lemma get_cell_null_out x e (reg : list Cell) cs :
  get_cell x (foldr (null_out e) cs reg) =
  if decide (x ∈ reg /\ get_cell x cs = Some e) then None else get_cell x cs.
Proof.
  revert x. induction reg as [|y reg IH]; intros x; cbn [foldr].
  - case_decide as Hd; [|reflexivity]. destruct Hd as [Hin _]. inversion Hin.
  - unfold null_out at 1.
    pose proof (IH y) as IHy.
    destruct (decide (get_cell y (foldr (null_out e) cs reg) = Some e)) as [Hy|Hy].
    + rewrite get_set_cell. rewrite Hy in IHy.
      destruct (decide (y ∈ reg /\ get_cell y cs = Some e)) as [_|_];
        [discriminate|].
      destruct (decide (x = y)) as [->|Hxy].
      * rewrite decide_True; [reflexivity|]. split; [left | now symmetry].
      * rewrite IH. repeat case_decide; try reflexivity; exfalso; set_solver.
    + rewrite IH.
      destruct (decide (x = y)) as [->|Hxy].
      * repeat case_decide; try reflexivity; exfalso;
          first [ apply Hy; rewrite IHy; tauto | set_solver ].
      * repeat case_decide; try reflexivity; exfalso; set_solver.
Qed.

Lemma OnElementRemove_cell x e w :
  get_cell x (cells (OnElementRemove e w)) =
  if decide (x ∈ death_detected_elements_ w /\ get_cell x (cells w) = Some e)
  then None else get_cell x (cells w).
Proof. apply get_cell_null_out. Qed.

Lemma remove_one_registry w e :
  death_detected_elements_ (remove_one w e) = death_detected_elements_ w.
Proof. reflexivity. Qed.

Lemma remove_one_heap w e : heap (remove_one w e) = delete e (heap w).
Proof. reflexivity. Qed.

Lemma remove_one_cell x w e :
  get_cell x (cells (remove_one w e)) =
  if decide (x ∈ death_detected_elements_ w /\ get_cell x (cells w) = Some e)
  then None else get_cell x (cells w).
Proof. apply OnElementRemove_cell. Qed.

Lemma remove_all_registry (v : list nat) : forall w,
  death_detected_elements_ (foldl remove_one w v) = death_detected_elements_ w.
Proof.
  induction v as [|a r IH]; intros w; cbn [foldl]; [reflexivity|].
  now rewrite IH.
Qed.

Lemma remove_all_heap (v : list nat) : forall w a,
  heap (foldl remove_one w v) !! a =
  if decide (a ∈ v) then None else heap w !! a.
Proof.
  induction v as [|b r IH]; intros w a; cbn [foldl].
  - case_decide as Hd; [inversion Hd | reflexivity].
  - rewrite IH, remove_one_heap.
    destruct (decide (a = b)) as [->|Hab].
    + rewrite lookup_delete_eq.
      repeat case_decide; try reflexivity; exfalso; set_solver.
    + rewrite lookup_delete_ne by congruence.
      repeat case_decide; try reflexivity; exfalso; set_solver.
Qed.

(** A cell is only ever nulled by removals. *)
Lemma remove_all_cell_stays (v : list nat) x : forall w,
  get_cell x (cells (foldl remove_one w v)) = get_cell x (cells w)
  \/ get_cell x (cells (foldl remove_one w v)) = None.
Proof.
  induction v as [|b r IH]; intros w; cbn [foldl]; [now left|].
  destruct (IH (remove_one w b)) as [E|E]; [|now right].
  rewrite E, remove_one_cell. case_decide; [now right | now left].
Qed.

(** Removing all elements of [v] nulls a registered cell that points to one
    of them. *)
Lemma remove_all_cell_nulled (v : list nat) x e : forall w,
  x ∈ death_detected_elements_ w -> e ∈ v ->
  get_cell x (cells w) = Some e ->
  get_cell x (cells (foldl remove_one w v)) = None.
Proof.
  induction v as [|b r IH]; intros w Hreg Hin Hx; [inversion Hin|].
  cbn [foldl]. destruct (decide (b = e)) as [->|Hbe].
  - destruct (remove_all_cell_stays r x (remove_one w e)) as [E|E]; [|exact E].
    rewrite E, remove_one_cell. rewrite decide_True; [reflexivity | tauto].
  - apply IH.
    + exact Hreg.
    + inversion Hin; subst; [congruence | assumption].
    + rewrite remove_one_cell. rewrite decide_False; [exact Hx|].
      intros [_ Hc]. congruence.
Qed.

End DetectorFacts.

Section HandlerFacts.

Context {D St : Type} `{Double D}.

Variable view : View D St.

Implicit Types (w : World D St) (impl : Impl D St) (x : Cell) (e c : nat)
         (a : Action D St) (ic : option Cell).

#[local] Arguments get_cell : simpl never.
#[local] Arguments set_cell : simpl never.

Lemma std_find_lookup (v : list nat) e (b : nat) :
  v !! std_find v (Some e) = Some b -> b = e.
Proof.
  induction v as [|y r IH]; simpl; [discriminate|].
  destruct (decide (Some y = Some e)) as [E|E]; simpl.
  - intros [= <-]. congruence.
  - exact IH.
Qed.

Lemma std_find_absent (v : list nat) e :
  e ∉ v -> v !! std_find v (Some e) = None.
Proof.
  induction v as [|y r IH]; simpl; [reflexivity|].
  intros Hn. destruct (decide (Some y = Some e)) as [E|E]; simpl.
  - exfalso. apply Hn. injection E as ->. left.
  - apply IH. intros Hr. apply Hn. now right.
Qed.


(** Whether or not the element is a child of this collection, removing it
    tells the view and deletes it. *)
Lemma run_action_remove_world ic e w impl :
  (run_action view ic (ActRemoveElement e) (w, impl)).1 = remove_one w e.
Proof.
  unfold run_action, RemoveElement.
  destruct (children_ impl !! std_find (children_ impl) (Some e)) as [b|] eqn:E;
    [|reflexivity].
  apply std_find_lookup in E. now subst b.
Qed.

Lemma run_action_remove_impl ic e w impl :
  e ∉ children_ impl ->
  (run_action view ic (ActRemoveElement e) (w, impl)).2 = impl.
Proof.
  intros Hn. unfold run_action, RemoveElement.
  now rewrite (std_find_absent _ _ Hn).
Qed.

(** A constructing call leaves the pointer cells, the registry of the
    death detectors, the owner and the elements alive as they are. *)
Lemma construct_frame (tag_name : string) (before : ElementPtr)
    (name : option string) w impl :
  let frame (r : ElementPtr * World D St * Impl D St) :=
    cells r.1.2 = cells w
    /\ death_detected_elements_ r.1.2 = death_detected_elements_ w
    /\ owner_ r.2 = owner_ impl
    /\ (forall c, is_Some (heap w !! c) -> heap r.1.2 !! c = heap w !! c) in
  frame (AppendElement view tag_name name w impl)
  /\ frame (InsertElement view tag_name before name w impl).
Proof.
  assert (Hfresh : forall c, is_Some (heap w !! c) ->
                     ElementFactory.allocate (heap w) <> c).
  { intros c [el Hc] E.
    assert (heap w !! ElementFactory.allocate (heap w) = None) as Hn
      by (apply not_elem_of_dom, is_fresh).
    rewrite E in Hn. congruence. }
  cbv zeta. unfold AppendElement, InsertElement, ElementFactory.CreateElement.
  destruct (factory_ impl !! tag_name) as [creator|]; simpl;
    [|split; auto].
  destruct (OnElementAdd view _ _); simpl;
    (split; (split; [reflexivity|]); (split; [reflexivity|]);
     (split; [reflexivity|]); intros c Hc;
     rewrite ?lookup_delete_ne by (apply Hfresh, Hc);
     now rewrite lookup_insert_ne by (apply Hfresh, Hc)).
Qed.

Lemma run_action_registry ic a w impl :
  death_detected_elements_ (run_action view ic a (w, impl)).1 =
  death_detected_elements_ w.
Proof.
  destruct a as [e| |tag name|tag before name|p|p|b el].
  - now rewrite run_action_remove_world.
  - apply remove_all_registry.
  - simpl. pose proof (proj1 (construct_frame tag None name w impl)) as Hf.
    destruct (AppendElement view tag name w impl) as [[r w'] impl'].
    apply Hf.
  - simpl. pose proof (proj2 (construct_frame tag before name w impl)) as Hf.
    destruct (InsertElement view tag before name w impl) as [[r w'] impl'].
    apply Hf.
  - reflexivity.
  - simpl. destruct ic; reflexivity.
  - simpl. destruct (heap w !! b); reflexivity.
Qed.

Lemma run_action_owner ic a w impl :
  owner_ (run_action view ic a (w, impl)).2 = owner_ impl.
Proof.
  destruct a as [e| |tag name|tag before name|p|p|b el]; simpl.
  - unfold RemoveElement. destruct (children_ impl !! _); reflexivity.
  - reflexivity.
  - pose proof (proj1 (construct_frame tag None name w impl)) as Hf.
    destruct (AppendElement view tag name w impl) as [[r w'] impl'].
    apply Hf.
  - pose proof (proj2 (construct_frame tag before name w impl)) as Hf.
    destruct (InsertElement view tag before name w impl) as [[r w'] impl'].
    apply Hf.
  - reflexivity.
  - destruct ic; reflexivity.
  - destruct (heap w !! b); reflexivity.
Qed.

(** A step that does not write a cell leaves it as it is or nulls it. *)
Lemma run_action_cell ic a x w impl :
  ~ writes ic a x ->
  get_cell x (cells (run_action view ic a (w, impl)).1) = get_cell x (cells w)
  \/ get_cell x (cells (run_action view ic a (w, impl)).1) = None.
Proof.
  intros Hw. destruct a as [e| |tag name|tag before name|p|p|b el].
  - rewrite run_action_remove_world, remove_one_cell.
    destruct (decide _); [now right | now left].
  - apply remove_all_cell_stays.
  - simpl. pose proof (proj1 (construct_frame tag None name w impl)) as Hf.
    destruct (AppendElement view tag name w impl) as [[r w'] impl'].
    left. simpl in *. now rewrite (proj1 Hf).
  - simpl. pose proof (proj2 (construct_frame tag before name w impl)) as Hf.
    destruct (InsertElement view tag before name w impl) as [[r w'] impl'].
    left. simpl in *. now rewrite (proj1 Hf).
  - simpl. rewrite get_set_cell. left.
    destruct (decide (x = CellFired)) as [->|_]; [|reflexivity].
    exfalso. now apply Hw.
  - simpl. destruct ic as [y|]; simpl; [|now left].
    rewrite get_set_cell. left.
    destruct (decide (x = y)) as [->|_]; [|reflexivity].
    exfalso. now apply Hw.
  - simpl. destruct (heap w !! b); now left.
Qed.

(** The steps of a handler never write the dispatcher's local [child]. *)
Lemma not_writes_child ic a : ic <> Some CellChild -> ~ writes ic a CellChild.
Proof. intros Hic. destruct a; simpl; congruence || tauto. Qed.

(** A registered cell that points to a live element still does after a
    step that does not write it, unless the step nulled it. *)
Lemma run_action_cell_live ic a x c w impl :
  ~ writes ic a x ->
  x ∈ death_detected_elements_ w ->
  (get_cell x (cells w) = Some c -> is_Some (heap w !! c)) ->
  get_cell x (cells (run_action view ic a (w, impl)).1) = Some c ->
  is_Some (heap (run_action view ic a (w, impl)).1 !! c).
Proof.
  intros Hw Hreg Hlive. destruct a as [e| |tag name|tag before name|p|p|b el].
  - rewrite run_action_remove_world, remove_one_cell, remove_one_heap.
    destruct (decide _) as [Hd|Hd]; [discriminate|].
    intros Hx. rewrite lookup_delete_ne; [auto|].
    intros ->. apply Hd. auto.
  - simpl. intros Hx.
    destruct (decide (c ∈ children_ impl)) as [Hin|Hin].
    + destruct (remove_all_cell_stays (children_ impl) x w) as [E|E].
      * change (foldl _ w (children_ impl)) with (foldl remove_one w (children_ impl)) in Hx.
        rewrite (remove_all_cell_nulled _ x c w Hreg Hin) in Hx; [discriminate|].
        rewrite <- E. exact Hx.
      * change (foldl _ w (children_ impl)) with (foldl remove_one w (children_ impl)) in Hx.
        congruence.
    + change (foldl _ w (children_ impl)) with (foldl remove_one w (children_ impl)).
      rewrite remove_all_heap. rewrite decide_False by exact Hin.
      apply Hlive.
      change (foldl _ w (children_ impl)) with (foldl remove_one w (children_ impl)) in Hx.
      destruct (remove_all_cell_stays (children_ impl) x w) as [E|E]; congruence.
  - simpl. pose proof (proj1 (construct_frame tag None name w impl)) as Hf.
    destruct (AppendElement view tag name w impl) as [[r w'] impl'].
    simpl in *. destruct Hf as (Hcells & _ & _ & Hheap). rewrite Hcells.
    intros Hx. rewrite (Hheap c (Hlive Hx)). auto.
  - simpl. pose proof (proj2 (construct_frame tag before name w impl)) as Hf.
    destruct (InsertElement view tag before name w impl) as [[r w'] impl'].
    simpl in *. destruct Hf as (Hcells & _ & _ & Hheap). rewrite Hcells.
    intros Hx. rewrite (Hheap c (Hlive Hx)). auto.
  - simpl. rewrite get_set_cell.
    destruct (decide (x = CellFired)) as [->|_]; [exfalso; now apply Hw | exact Hlive].
  - simpl. destruct ic as [y|]; simpl; [|exact Hlive].
    rewrite get_set_cell.
    destruct (decide (x = y)) as [->|_]; [exfalso; now apply Hw | exact Hlive].
  - simpl. destruct (heap w !! b) eqn:Eb; simpl; [|exact Hlive].
    intros Hx. destruct (decide (b = c)) as [->|Hbc].
    + rewrite lookup_insert_eq. eauto.
    + rewrite lookup_insert_ne by exact Hbc. auto.
Qed.

Lemma run_actions_cons ic a (acts : list (Action D St)) (s : World D St * Impl D St) :
  run_actions view ic (a :: acts) s = run_actions view ic acts (run_action view ic a s).
Proof. reflexivity. Qed.

Lemma run_actions_app ic (l1 l2 : list (Action D St)) (s : World D St * Impl D St) :
  run_actions view ic (l1 ++ l2) s = run_actions view ic l2 (run_actions view ic l1 s).
Proof. unfold run_actions. apply foldl_app. Qed.

Lemma run_actions_registry ic (acts : list (Action D St)) : forall w impl,
  death_detected_elements_ (run_actions view ic acts (w, impl)).1 =
  death_detected_elements_ w.
Proof.
  induction acts as [|a acts IH]; intros w impl; [reflexivity|].
  rewrite run_actions_cons.
  destruct (run_action view ic a (w, impl)) as [w1 impl1] eqn:E.
  rewrite IH. change w1 with (w1, impl1).1. rewrite <- E.
  apply run_action_registry.
Qed.

Lemma run_actions_owner ic (acts : list (Action D St)) : forall w impl,
  owner_ (run_actions view ic acts (w, impl)).2 = owner_ impl.
Proof.
  induction acts as [|a acts IH]; intros w impl; [reflexivity|].
  rewrite run_actions_cons.
  destruct (run_action view ic a (w, impl)) as [w1 impl1] eqn:E.
  rewrite IH. change impl1 with (w1, impl1).2. rewrite <- E.
  apply run_action_owner.
Qed.

Lemma run_actions_cell ic (acts : list (Action D St)) x : forall w impl,
  Forall (fun a => ~ writes ic a x) acts ->
  get_cell x (cells (run_actions view ic acts (w, impl)).1) = get_cell x (cells w)
  \/ get_cell x (cells (run_actions view ic acts (w, impl)).1) = None.
Proof.
  induction acts as [|a acts IH]; intros w impl Hw; [now left|].
  rewrite run_actions_cons. inversion Hw as [|? ? Ha Hacts]; subst.
  destruct (run_action_cell ic a x w impl Ha) as [E|E];
    destruct (run_action view ic a (w, impl)) as [w1 impl1]; simpl in E;
    destruct (IH w1 impl1 Hacts) as [E'|E']; rewrite E'; auto.
Qed.

Lemma run_actions_cell_live ic (acts : list (Action D St)) x c : forall w impl,
  Forall (fun a => ~ writes ic a x) acts ->
  x ∈ death_detected_elements_ w ->
  (get_cell x (cells w) = Some c -> is_Some (heap w !! c)) ->
  get_cell x (cells (run_actions view ic acts (w, impl)).1) = Some c ->
  is_Some (heap (run_actions view ic acts (w, impl)).1 !! c).
Proof.
  induction acts as [|a acts IH]; intros w impl Hw Hreg Hlive; [exact Hlive|].
  rewrite run_actions_cons. inversion Hw as [|? ? Ha Hacts]; subst.
  pose proof (run_action_cell_live ic a x c w impl Ha Hreg Hlive) as Hl1.
  pose proof (run_action_registry ic a w impl) as Hr1.
  destruct (run_action view ic a (w, impl)) as [w1 impl1]; simpl in Hl1, Hr1.
  apply IH; [exact Hacts | now rewrite Hr1 | exact Hl1].
Qed.

(** The death detector at work: an element removed after the last write
    to a registered cell is not what the cell holds afterwards. *)
Lemma removed_not_seen ic (pre post : list (Action D St)) x e w impl :
  x ∈ death_detected_elements_ w ->
  Forall (fun a => ~ writes ic a x) post ->
  get_cell x
    (cells (run_actions view ic (pre ++ ActRemoveElement e :: post) (w, impl)).1)
  <> Some e.
Proof.
  intros Hreg Hpost. rewrite run_actions_app, run_actions_cons.
  pose proof (run_actions_registry ic pre w impl) as Hr.
  destruct (run_actions view ic pre (w, impl)) as [w1 impl1]; simpl in Hr.
  pose proof (run_action_remove_world ic e w1 impl1) as Hw.
  destruct (run_action view ic (ActRemoveElement e) (w1, impl1)) as [w2 impl2];
    simpl in Hw. subst w2.
  assert (get_cell x (cells (remove_one w1 e)) <> Some e) as Hne.
  { rewrite remove_one_cell. rewrite Hr.
    destruct (decide _) as [Hd|Hd]; [discriminate | tauto]. }
  destruct (run_actions_cell ic post x (remove_one w1 e) impl2 Hpost) as [E|E];
    rewrite E; [exact Hne | discriminate].
Qed.

End HandlerFacts.

(** * Properties of the dispatch loops *)

Section DispatchFacts.

Context {D St : Type} `{Double D} `{ElementMethods D St} `{MathUtils D}
        `{ElementHandlers D St}.

Variable view : View D St.

Implicit Types (w : World D St) (impl : Impl D St) (c : nat)
         (event ev : PositionEvent D) (el : BasicElement D St)
         (rest v : list nat) (o : ElementPtr) (r : EventResult).

#[local] Arguments get_cell : simpl never.
#[local] Arguments set_cell : simpl never.

Lemma elem_of_rev_1 (a : nat) (l : list nat) : a ∈ rev l -> a ∈ l.
Proof.
  intros Ha. apply list_elem_of_In. apply in_rev. now apply list_elem_of_In.
Qed.

Lemma rev_app_cons (lower upper : list nat) (c : nat) :
  rev (lower ++ c :: upper) = rev upper ++ c :: rev lower.
Proof. rewrite rev_app_distr. simpl. now rewrite <- app_assoc. Qed.

Lemma run_action_keeps (ic : option Cell) (a : Action D St) c v o w impl :
  ic <> Some CellChild ->
  CellChild ∈ death_detected_elements_ w ->
  c ∈ v ->
  tame c v o a ->
  keeps c v o (w, impl) ->
  keeps c v o (run_action view ic a (w, impl)).
Proof.
  intros Hic Hreg Hc Ht [Hnone|(Hchild & Hv & Hlive & Ho)].
  - left. destruct (run_action_cell view ic a CellChild w impl
                      (not_writes_child ic a Hic)) as [E|E].
    + unfold get_cell in E. simpl in *. congruence.
    + exact E.
  - simpl in Hchild, Hv, Hlive, Ho.
    destruct a as [e| |tag name|tag before name|p|p|b el];
      try contradiction.
    + destruct Ht as [->|[Hev Heo]].
      * left. rewrite (run_action_remove_world view).
        change (get_cell CellChild (cells (remove_one w c)) = None).
        rewrite remove_one_cell. rewrite decide_True; [reflexivity|].
        split; [exact Hreg | exact Hchild].
      * right. rewrite (run_action_remove_world view).
        rewrite (run_action_remove_impl view) by (rewrite Hv; exact Hev).
        split; [|split; [exact Hv|split]].
        -- change (get_cell CellChild (cells (remove_one w e)) = Some c).
           rewrite remove_one_cell. rewrite decide_False; [exact Hchild|].
           intros [_ Hx]. unfold get_cell in Hx. rewrite Hchild in Hx.
           injection Hx as ->. contradiction.
        -- intros b Hb. rewrite remove_one_heap.
           rewrite lookup_delete_ne; [auto|]. intros ->. contradiction.
        -- intros b ->. rewrite remove_one_heap.
           rewrite lookup_delete_ne; [auto|]. intros ->. contradiction.
    + left. simpl.
      change (get_cell CellChild
                (cells (foldl remove_one w (children_ impl))) = None).
      apply (remove_all_cell_nulled _ _ c); [exact Hreg| |exact Hchild].
      rewrite Hv. exact Hc.
    + right. simpl. auto.
    + right. simpl. destruct ic as [y|]; simpl; [|auto].
      split; [|auto].
      change (get_cell CellChild (set_cell y p (cells w)) = Some c).
      rewrite get_set_cell. rewrite decide_False by congruence. exact Hchild.
    + right. simpl. destruct (heap w !! b) eqn:Eb; simpl; [|auto].
      split; [exact Hchild|split; [exact Hv|split]].
      * intros d Hd. destruct (decide (b = d)) as [->|Hbd].
        -- rewrite lookup_insert_eq. eauto.
        -- rewrite lookup_insert_ne by exact Hbd. auto.
      * intros d ->. destruct (decide (b = d)) as [->|Hbd].
        -- rewrite lookup_insert_eq. eauto.
        -- rewrite lookup_insert_ne by exact Hbd. auto.
Qed.

Lemma run_actions_keeps (ic : option Cell) (acts : list (Action D St)) c v o :
  forall w impl,
    ic <> Some CellChild ->
    CellChild ∈ death_detected_elements_ w ->
    c ∈ v ->
    Forall (tame c v o) acts ->
    keeps c v o (w, impl) ->
    keeps c v o (run_actions view ic acts (w, impl)).
Proof.
  induction acts as [|a acts IH]; intros w impl Hic Hreg Hc Ht Hk; [exact Hk|].
  rewrite run_actions_cons. inversion Ht as [|? ? Ha Hacts]; subst.
  pose proof (run_action_keeps ic a c v o w impl Hic Hreg Hc Ha Hk) as Hk1.
  pose proof (run_action_registry view ic a w impl) as Hr1.
  destruct (run_action view ic a (w, impl)) as [w1 impl1]; simpl in Hr1.
  apply IH; [exact Hic | now rewrite Hr1 | exact Hc | exact Hacts | exact Hk1].
Qed.

(** What the dispatcher finds in its local [child] after the steps of a
    handler: the child, then alive, or null. *)
Lemma run_handler_child (ic : option Cell) (acts : list (Action D St)) c w impl :
  ic <> Some CellChild ->
  CellChild ∈ death_detected_elements_ w ->
  cell_child (cells w) = Some c ->
  is_Some (heap w !! c) ->
  (cell_child (cells (run_actions view ic acts (w, impl)).1) = None
   \/ cell_child (cells (run_actions view ic acts (w, impl)).1) = Some c)
  /\ (cell_child (cells (run_actions view ic acts (w, impl)).1) = Some c ->
      is_Some (heap (run_actions view ic acts (w, impl)).1 !! c)).
Proof.
  intros Hic Hreg Hchild Hlive.
  assert (Forall (fun a => ~ writes ic a CellChild) acts) as Hnw.
  { apply Forall_forall. intros a _. now apply not_writes_child. }
  split.
  - destruct (run_actions_cell view ic acts CellChild w impl Hnw) as [E|E].
    + right. unfold get_cell in E. congruence.
    + now left.
  - apply (run_actions_cell_live view ic acts CellChild c w impl Hnw Hreg).
    intros _. exact Hlive.
Qed.

(** The call of a handler in the mouse dispatch, spelled out. *)
Lemma OnMouseEvent_call_eq c ev w impl :
  let w2 := OnMouseEvent_enter c w in
  let h := Element_OnMouseEvent c ev w2 impl in
  let s := run_actions view (Some CellDescendant) h.2 (w2, impl) in
  OnMouseEvent_call view c ev w impl =
  (h.1, ScopedDeathDetector_leave (ScopedDeathDetector_leave s.1), s.2).
Proof.
  cbv zeta. unfold OnMouseEvent_call.
  destruct (Element_OnMouseEvent c ev (OnMouseEvent_enter c w) impl)
    as [r acts]. simpl.
  now destruct (run_actions view (Some CellDescendant) acts _).
Qed.

(** The call of a handler in the drag dispatch, spelled out. *)
Lemma OnDragEvent_call_eq c ev w impl :
  let w2 := ScopedDeathDetector_enter CellChild w in
  let h := Element_OnDragEvent c ev w2 impl in
  let s := run_actions view None h.2 (w2, impl) in
  OnDragEvent_call view c ev w impl =
  (h.1, ScopedDeathDetector_leave s.1, s.2).
Proof.
  cbv zeta. unfold OnDragEvent_call.
  destruct (Element_OnDragEvent c ev (ScopedDeathDetector_enter CellChild w) impl)
    as [r acts]. simpl.
  now destruct (run_actions view None acts _).
Qed.

(** A handler step that removes the invoked child leaves the guarded
    [child] null, whatever the steps before and after it. *)
Lemma removed_child_nulled (ic : option Cell)
    (pre post : list (Action D St)) c w impl :
  ic <> Some CellChild ->
  CellChild ∈ death_detected_elements_ w ->
  cell_child (cells w) = Some c ->
  is_Some (heap w !! c) ->
  cell_child
    (cells (run_actions view ic (pre ++ ActRemoveElement c :: post) (w, impl)).1)
  = None.
Proof.
  intros Hic Hreg Hchild Hlive.
  destruct (run_handler_child ic (pre ++ ActRemoveElement c :: post)
              c w impl Hic Hreg Hchild Hlive) as [[E|E] _]; [exact E|].
  exfalso.
  apply (removed_not_seen view ic pre post CellChild c w impl Hreg).
  - apply Forall_forall. intros a _. now apply not_writes_child.
  - exact E.
Qed.

Lemma OnMouseEvent_call_child c ev w impl el r w4 impl3 :
  heap w !! c = Some el ->
  OnMouseEvent_call view c ev w impl = (r, w4, impl3) ->
  (cell_child (cells w4) = None \/ cell_child (cells w4) = Some c)
  /\ (cell_child (cells w4) = Some c -> is_Some (heap w4 !! c))
  /\ owner_ impl3 = owner_ impl
  /\ death_detected_elements_ w4 = death_detected_elements_ w.
Proof.
  intros Hel. unfold OnMouseEvent_call.
  set (w2 := OnMouseEvent_enter c w).
  destruct (Element_OnMouseEvent c ev w2 impl) as [r0 acts].
  pose proof (run_handler_child (Some CellDescendant) acts c w2 impl) as Hc.
  pose proof (run_actions_owner view (Some CellDescendant) acts w2 impl) as Ho.
  pose proof (run_actions_registry view (Some CellDescendant) acts w2 impl) as Hr.
  destruct (run_actions view (Some CellDescendant) acts (w2, impl)) as [w3 i3].
  simpl in Hc, Ho, Hr. intros [= <- <- <-]. simpl.
  destruct Hc as [Hc1 Hc2]; [congruence | set_solver | reflexivity | | ].
  { simpl. rewrite Hel. eauto. }
  split; [exact Hc1|]. split; [exact Hc2|]. split; [exact Ho|].
  rewrite Hr. reflexivity.
Qed.

Lemma OnDragEvent_call_child c ev w impl el r w4 impl3 :
  heap w !! c = Some el ->
  cell_child (cells w) = Some c ->
  OnDragEvent_call view c ev w impl = (r, w4, impl3) ->
  (cell_child (cells w4) = None \/ cell_child (cells w4) = Some c)
  /\ (cell_child (cells w4) = Some c -> is_Some (heap w4 !! c))
  /\ owner_ impl3 = owner_ impl
  /\ death_detected_elements_ w4 = death_detected_elements_ w.
Proof.
  intros Hel Hchild. unfold OnDragEvent_call.
  set (w2 := ScopedDeathDetector_enter CellChild _).
  destruct (Element_OnDragEvent c ev w2 impl) as [r0 acts].
  pose proof (run_handler_child None acts c w2 impl) as Hc.
  pose proof (run_actions_owner view None acts w2 impl) as Ho.
  pose proof (run_actions_registry view None acts w2 impl) as Hr.
  destruct (run_actions view None acts (w2, impl)) as [w3 i3].
  simpl in Hc, Ho, Hr. intros [= <- <- <-]. simpl.
  destruct Hc as [Hc1 Hc2]; [congruence | set_solver | exact Hchild | | ].
  { rewrite Hel. eauto. }
  split; [exact Hc1|]. split; [exact Hc2|]. split; [exact Ho|].
  rewrite Hr. reflexivity.
Qed.

(** With tame handlers a surviving child means an untouched vector. *)
Lemma OnMouseEvent_call_keeps c ev w impl v o r w4 impl3 :
  handlers_tame v o -> c ∈ v ->
  children_ impl = v ->
  (forall a, a ∈ v -> is_Some (heap w !! a)) ->
  (forall a, o = Some a -> is_Some (heap w !! a)) ->
  OnMouseEvent_call view c ev w impl = (r, w4, impl3) ->
  keeps c v o (w4, impl3).
Proof.
  intros Ht Hc Hv Hlive Ho. unfold OnMouseEvent_call.
  set (w2 := OnMouseEvent_enter c w).
  pose proof (proj1 (Ht c ev w2 impl Hc)) as Hta.
  destruct (Element_OnMouseEvent c ev w2 impl) as [r0 acts]. simpl in Hta.
  pose proof (run_actions_keeps (Some CellDescendant) acts c v o w2 impl) as Hk.
  destruct (run_actions view (Some CellDescendant) acts (w2, impl)) as [w3 i3].
  intros [= <- <- <-].
  apply Hk; [congruence | set_solver | exact Hc | exact Hta |].
  right. simpl. auto.
Qed.

Lemma OnDragEvent_call_keeps c ev w impl v o r w4 impl3 :
  handlers_tame v o -> c ∈ v ->
  children_ impl = v ->
  cell_child (cells w) = Some c ->
  (forall a, a ∈ v -> is_Some (heap w !! a)) ->
  (forall a, o = Some a -> is_Some (heap w !! a)) ->
  OnDragEvent_call view c ev w impl = (r, w4, impl3) ->
  keeps c v o (w4, impl3).
Proof.
  intros Ht Hc Hv Hchild Hlive Ho. unfold OnDragEvent_call.
  set (w2 := ScopedDeathDetector_enter CellChild _).
  pose proof (proj2 (Ht c ev w2 impl Hc)) as Hta.
  destruct (Element_OnDragEvent c ev w2 impl) as [r0 acts]. simpl in Hta.
  pose proof (run_actions_keeps None acts c v o w2 impl) as Hk.
  destruct (run_actions view None acts (w2, impl)) as [w3 i3].
  intros [= <- <- <-].
  apply Hk; [congruence | set_solver | exact Hc | exact Hta |].
  right. simpl. auto.
Qed.

Lemma set_in_element_heap child w :
  heap (set_in_element child w) = heap w.
Proof. unfold set_in_element. destruct (cell_in (cells w)); reflexivity. Qed.

Lemma set_in_element_fired child w :
  cell_fired (cells (set_in_element child w)) = cell_fired (cells w).
Proof. unfold set_in_element. destruct (cell_in (cells w)); reflexivity. Qed.

Lemma MapChildPositionEvent_live w impl event el :
  (forall a, owner_ impl = Some a -> is_Some (heap w !! a)) ->
  is_Some (MapChildPositionEvent w impl event el).
Proof.
  intros Ho. unfold MapChildPositionEvent.
  destruct (owner_ impl) as [a|].
  - destruct (Ho a eq_refl) as [owner ->].
    destruct (SelfCoordToChildCoord _ _ _ _). eauto.
  - destruct (ParentCoordToChildCoord _ _ _ _ _ _ _). eauto.
Qed.

(** ** The steps of the two loops *)

(** A child passed over costs the mouse dispatch nothing. *)
Lemma OnMouseEvent_loop_pass event c rest w impl :
  passed_over w impl event c ->
  OnMouseEvent_loop view event (c :: rest) w impl =
  OnMouseEvent_loop view event rest w impl.
Proof.
  intros (el & Hel & [Hvis|(ev & Hvis & Hmap & Hin)]);
    cbn [OnMouseEvent_loop]; rewrite Hel, Hvis; cbn [negb]; [reflexivity|].
  now rewrite Hmap, Hin.
Qed.

Lemma OnMouseEvent_loop_pass_all event (us : list nat) rest w impl :
  (forall u, u ∈ us -> passed_over w impl event u) ->
  OnMouseEvent_loop view event (us ++ rest) w impl =
  OnMouseEvent_loop view event rest w impl.
Proof.
  induction us as [|u us IH]; intros Hus; [reflexivity|].
  rewrite <- app_comm_cons, OnMouseEvent_loop_pass by (apply Hus; left).
  apply IH. intros a Ha. apply Hus. now right.
Qed.

(** What the mouse dispatch does with a child the event hits. *)
Lemma OnMouseEvent_loop_hit event c ev rest w impl r w4 impl3 :
  hit w impl event c ev ->
  OnMouseEvent_call view c ev w impl = (r, w4, impl3) ->
  OnMouseEvent_loop view event (c :: rest) w impl =
  match cell_child (cells w4) with
  | None => (Returned r, w4, impl3)
  | Some child =>
      match cell_fired (cells w4) with
      | Some _ => (Returned r, set_in_element child w4, impl3)
      | None =>
          if decide (children_ impl3 = children_ impl)
          then OnMouseEvent_loop view event rest (set_in_element child w4) impl3
          else (Undefined, set_in_element child w4, impl3)
      end
  end.
Proof.
  intros (el & Hel & Hvis & Hmap & Hin) Hcall.
  cbn [OnMouseEvent_loop]. rewrite Hel, Hvis. cbn [negb].
  rewrite Hmap, Hin, Hcall.
  destruct (cell_child (cells w4)) as [child|]; [|reflexivity].
  cbv zeta. now rewrite set_in_element_fired.
Qed.

(** A child passed over costs the drag dispatch nothing but the
    assignment of its local [child]. *)
Lemma OnDragEvent_loop_pass event c rest w impl :
  passed_over w impl event c ->
  OnDragEvent_loop view event (c :: rest) w impl =
  OnDragEvent_loop view event rest (write_cell CellChild (Some c) w) impl.
Proof.
  intros (el & Hel & [Hvis|(ev & Hvis & Hmap & Hin)]);
    cbn [OnDragEvent_loop]; cbv zeta;
    change (heap (write_cell CellChild (Some c) w)) with (heap w);
    rewrite Hel, Hvis; cbn [negb]; [reflexivity|].
  change (MapChildPositionEvent (write_cell CellChild (Some c) w) impl event el)
    with (MapChildPositionEvent w impl event el).
  now rewrite Hmap, Hin.
Qed.

Lemma OnDragEvent_loop_pass_all event (us : list nat) rest :
  forall w impl,
    (forall u, u ∈ us -> passed_over w impl event u) ->
    OnDragEvent_loop view event (us ++ rest) w impl =
    OnDragEvent_loop view event rest (after_passing us w) impl.
Proof.
  induction us as [|u us IH]; intros w impl Hus; [reflexivity|].
  rewrite <- app_comm_cons, OnDragEvent_loop_pass by (apply Hus; left).
  rewrite IH.
  - unfold after_passing. destruct us as [|u' us]; [reflexivity|].
    change (last (u :: u' :: us)) with (last (u' :: us)).
    destruct (last (u' :: us)) eqn:E; [reflexivity|].
    now apply last_None in E.
  - intros a Ha. destruct (Hus a) as (el & Hel & Hp); [now right|].
    exists el. split; [exact Hel | exact Hp].
Qed.

(** What the drag dispatch does with a child the event hits. *)
Lemma OnDragEvent_loop_hit event c ev rest w impl r w4 impl3 :
  hit w impl event c ev ->
  OnDragEvent_call view c ev (write_cell CellChild (Some c) w) impl
  = (r, w4, impl3) ->
  OnDragEvent_loop view event (c :: rest) w impl =
  match cell_child (cells w4), cell_fired (cells w4) with
  | Some _, None =>
      if decide (children_ impl3 = children_ impl)
      then OnDragEvent_loop view event rest w4 impl3
      else (Undefined, w4, impl3)
  | _, _ => (Returned r, w4, impl3)
  end.
Proof.
  intros (el & Hel & Hvis & Hmap & Hin) Hcall.
  cbn [OnDragEvent_loop]. cbv zeta.
  change (heap (write_cell CellChild (Some c) w)) with (heap w).
  rewrite Hel, Hvis. cbn [negb].
  change (MapChildPositionEvent (write_cell CellChild (Some c) w) impl event el)
    with (MapChildPositionEvent w impl event el).
  now rewrite Hmap, Hin, Hcall.
Qed.

(** The two loops over a vector whose topmost children are passed over,
    down to the first child the event hits. *)
Lemma OnMouseEvent_loop_topmost event (lower upper : list nat) c ev w impl
    r w4 impl3 :
  (forall u, u ∈ upper -> passed_over w impl event u) ->
  hit w impl event c ev ->
  OnMouseEvent_call view c ev w impl = (r, w4, impl3) ->
  OnMouseEvent_loop view event (rev (lower ++ c :: upper)) w impl =
  match cell_child (cells w4) with
  | None => (Returned r, w4, impl3)
  | Some child =>
      match cell_fired (cells w4) with
      | Some _ => (Returned r, set_in_element child w4, impl3)
      | None =>
          if decide (children_ impl3 = children_ impl)
          then OnMouseEvent_loop view event (rev lower)
                 (set_in_element child w4) impl3
          else (Undefined, set_in_element child w4, impl3)
      end
  end.
Proof.
  intros Hupper Hhit Hcall.
  rewrite rev_app_cons, OnMouseEvent_loop_pass_all
    by (intros u Hu; apply Hupper; now apply elem_of_rev_1).
  now apply OnMouseEvent_loop_hit with (ev := ev).
Qed.

Lemma OnDragEvent_loop_topmost event (lower upper : list nat) c ev w impl
    r w4 impl3 :
  (forall u, u ∈ upper -> passed_over w impl event u) ->
  hit w impl event c ev ->
  OnDragEvent_call view c ev (write_cell CellChild (Some c) w) impl
  = (r, w4, impl3) ->
  OnDragEvent_loop view event (rev (lower ++ c :: upper)) w impl =
  match cell_child (cells w4), cell_fired (cells w4) with
  | Some _, None =>
      if decide (children_ impl3 = children_ impl)
      then OnDragEvent_loop view event (rev lower) w4 impl3
      else (Undefined, w4, impl3)
  | _, _ => (Returned r, w4, impl3)
  end.
Proof.
  intros Hupper Hhit Hcall.
  rewrite rev_app_cons, OnDragEvent_loop_pass_all
    by (intros u Hu; apply Hupper; now apply elem_of_rev_1).
  assert (hit (after_passing (rev upper) w) impl event c ev) as Hhit'.
  { unfold after_passing. destruct (last (rev upper)); exact Hhit. }
  assert (write_cell CellChild (Some c) (after_passing (rev upper) w)
          = write_cell CellChild (Some c) w) as Ew.
  { unfold after_passing. destruct (last (rev upper)); reflexivity. }
  rewrite <- Ew in Hcall.
  now apply OnDragEvent_loop_hit with (ev := ev).
Qed.

(** [MapChildPositionEvent] changes the coordinates of the event and
    nothing else: with an owner, to what the owner's
    [SelfCoordToChildCoord] gives for the child; without, to what
    [ParentCoordToChildCoord] gives for the child's position, pin and
    rotation. *)
Lemma MapChildPositionEvent_maps w impl event el ev :
  MapChildPositionEvent w impl event el = Some ev ->
  GetType ev = GetType event
  /\ GetDetail ev = GetDetail event
  /\ (forall (o : nat) (owner : BasicElement D St),
        owner_ impl = Some o -> heap w !! o = Some owner ->
        (GetX ev, GetY ev)
        = SelfCoordToChildCoord owner el (GetX event) (GetY event))
  /\ (owner_ impl = None ->
      (GetX ev, GetY ev)
      = ParentCoordToChildCoord (GetX event) (GetY event)
          (GetPixelX el) (GetPixelY el) (GetPixelPinX el) (GetPixelPinY el)
          (DegreesToRadians (GetRotation el))).
Proof.
  unfold MapChildPositionEvent. destruct (owner_ impl) as [o|].
  - destruct (heap w !! o) as [owner|] eqn:Ho; [|discriminate].
    destruct (SelfCoordToChildCoord owner el (GetX event) (GetY event))
      as [x y] eqn:E.
    intros [= <-]. simpl. split; [reflexivity|]. split; [reflexivity|].
    split; [|discriminate]. intros o' owner' [= <-] Ho'.
    rewrite Ho in Ho'. injection Ho' as <-. now rewrite E.
  - destruct (ParentCoordToChildCoord _ _ _ _ _ _ _) as [x y].
    intros [= <-]. simpl. split; [reflexivity|]. split; [reflexivity|].
    split; [discriminate|]. reflexivity.
Qed.

(** ** No dangling pointer is read *)

(** With tame handlers and live children the mouse dispatch is defined. *)
Lemma OnMouseEvent_loop_returns event v o :
  handlers_tame v o ->
  forall rest w impl,
    (forall a, a ∈ rest -> a ∈ v) ->
    children_ impl = v -> owner_ impl = o ->
    (forall a, a ∈ v -> is_Some (heap w !! a)) ->
    (forall a, o = Some a -> is_Some (heap w !! a)) ->
    (OnMouseEvent_loop view event rest w impl).1.1 <> Undefined.
Proof.
  intros Ht. induction rest as [|c rest IH]; intros w impl Hsub Hv Ho Hlive Hol;
    [discriminate|].
  assert (c ∈ v) as Hc by (apply Hsub; left).
  assert (forall a, a ∈ rest -> a ∈ v) as Hrest
    by (intros a Ha; apply Hsub; now right).
  cbn [OnMouseEvent_loop].
  destruct (Hlive c Hc) as [el Hel]. rewrite Hel.
  destruct (IsVisible el); cbn [negb]; [|now apply IH].
  destruct (MapChildPositionEvent_live w impl event el) as [ev Hev];
    [intros a Ha; apply Hol; congruence|].
  rewrite Hev.
  destruct (IsPointIn el (GetX ev) (GetY ev)); [|now apply IH].
  destruct (OnMouseEvent_call view c ev w impl) as [[r w4] impl3] eqn:Hcall.
  pose proof (OnMouseEvent_call_keeps c ev w impl v o r w4 impl3
                Ht Hc Hv Hlive Hol Hcall) as Hk.
  destruct (OnMouseEvent_call_child c ev w impl el r w4 impl3 Hel Hcall)
    as (_ & _ & Howner & _).
  destruct (cell_child (cells w4)) as [child|] eqn:Hchild; [|discriminate].
  cbv zeta. rewrite set_in_element_fired.
  destruct (cell_fired (cells w4)); [discriminate|].
  destruct Hk as [Hn|(_ & Hv3 & Hlive3 & Hol3)]; simpl in *; [congruence|].
  rewrite decide_True by congruence.
  apply IH; [exact Hrest | exact Hv3 | congruence | |];
    intros a Ha; rewrite set_in_element_heap; auto.
Qed.

(** With tame handlers and live children the drag dispatch is defined. *)
Lemma OnDragEvent_loop_returns event v o :
  handlers_tame v o ->
  forall rest w impl,
    (forall a, a ∈ rest -> a ∈ v) ->
    children_ impl = v -> owner_ impl = o ->
    (forall a, a ∈ v -> is_Some (heap w !! a)) ->
    (forall a, o = Some a -> is_Some (heap w !! a)) ->
    (OnDragEvent_loop view event rest w impl).1.1 <> Undefined.
Proof.
  intros Ht. induction rest as [|c rest IH]; intros w impl Hsub Hv Ho Hlive Hol;
    [discriminate|].
  assert (c ∈ v) as Hc by (apply Hsub; left).
  assert (forall a, a ∈ rest -> a ∈ v) as Hrest
    by (intros a Ha; apply Hsub; now right).
  cbn [OnDragEvent_loop]. cbv zeta.
  set (w1 := write_cell CellChild (Some c) w).
  change (heap w1) with (heap w).
  destruct (Hlive c Hc) as [el Hel]. rewrite Hel.
  destruct (IsVisible el); cbn [negb]; [|now apply IH].
  destruct (MapChildPositionEvent_live w1 impl event el) as [ev Hev];
    [intros a Ha; apply Hol; congruence|].
  rewrite Hev.
  destruct (IsPointIn el (GetX ev) (GetY ev)); [|now apply IH].
  destruct (OnDragEvent_call view c ev w1 impl) as [[r w4] impl3] eqn:Hcall.
  pose proof (OnDragEvent_call_keeps c ev w1 impl v o r w4 impl3
                Ht Hc Hv eq_refl Hlive Hol Hcall) as Hk.
  destruct (OnDragEvent_call_child c ev w1 impl el r w4 impl3 Hel eq_refl Hcall)
    as (_ & _ & Howner & _).
  destruct (cell_child (cells w4)) as [child|] eqn:Hchild; [|discriminate].
  destruct (cell_fired (cells w4)); [discriminate|].
  destruct Hk as [Hn|(_ & Hv3 & Hlive3 & Hol3)]; simpl in *; [congruence|].
  rewrite decide_True by congruence.
  apply IH; [exact Hrest | exact Hv3 | congruence | exact Hlive3 | exact Hol3].
Qed.

End DispatchFacts.

(** * The two dispatches *)

Section DispatchClaims.

Context {D St : Type} `{Double D} `{ElementMethods D St} `{MathUtils D}
        `{ElementHandlers D St}.

Implicit Types (w : World D St) (impl : Impl D St)
         (event ev : PositionEvent D) (c : nat).

(** C1, as the code has it.  Both dispatches run their loop over the
    children from the last of the vector down, the mouse dispatch after
    it has cleared its two outputs and the drag dispatch after it has
    cleared [*fired_element].  Let the loop have come, past children it
    passes over, to a child [c] the event hits, and take the call of the
    child's handler as the mouse dispatch and as the drag dispatch make
    it, with the local [child] guarded by a death detector registered
    before the call.  (1) The result kept is the handler's.  (2) After
    the call the guarded [child] is null, or it is [c] and [c] is alive.
    (3) It is null when one of the handler's steps removed [c].  (4) A
    dispatcher that finds it null returns the handler's result at once,
    whatever children are left, with the world as the call left it.  (5)
    In the mouse dispatch the guarded [descendant_in_element] does not
    point to an element removed after the handler last wrote its
    in-element output; (6) but that removal does not end the dispatch:
    when the child is alive, [*fired_element] is null and the vector is
    as it was, the dispatch goes on with the children below, after
    [*in_element], if it was null, has been set to
    [descendant_in_element] or, when that is null, to the child.  (7)
    When every handler is tame (it removes only its own element or
    elements outside the collection other than the owner, and adds no
    child) and the children and the owner are alive, neither dispatch
    reads a dangling pointer. *)
Theorem dispatch_detects_destroyed_child (view : View D St) event c ev w impl
    (lower upper : list nat) :
  (forall u, u ∈ upper -> passed_over w impl event u) ->
  hit w impl event c ev ->
  let w1 := write_cell CellChild (Some c) w in
  let mouse_handler := Element_OnMouseEvent c ev (OnMouseEvent_enter c w) impl in
  let drag_handler :=
    Element_OnDragEvent c ev (ScopedDeathDetector_enter CellChild w1) impl in
  let mouse := OnMouseEvent_call view c ev w impl in
  let drag := OnDragEvent_call view c ev w1 impl in
  (forall w' impl',
     OnMouseEvent view event w' impl'
     = OnMouseEvent_loop view event (rev (children_ impl'))
         (write_cell CellFired None (write_cell CellIn None w')) impl'
     /\ OnDragEvent view event w' impl'
        = OnDragEvent_loop view event (rev (children_ impl'))
            (write_cell CellFired None w') impl')
  /\ (mouse.1.1 = mouse_handler.1 /\ drag.1.1 = drag_handler.1)
  /\ ((cell_child (cells mouse.1.2) = None
       \/ (cell_child (cells mouse.1.2) = Some c
           /\ is_Some (heap mouse.1.2 !! c)))
      /\ (cell_child (cells drag.1.2) = None
          \/ (cell_child (cells drag.1.2) = Some c
              /\ is_Some (heap drag.1.2 !! c))))
  /\ (forall pre post,
        (mouse_handler.2 = pre ++ ActRemoveElement c :: post ->
         cell_child (cells mouse.1.2) = None)
        /\ (drag_handler.2 = pre ++ ActRemoveElement c :: post ->
            cell_child (cells drag.1.2) = None))
  /\ ((cell_child (cells mouse.1.2) = None ->
       OnMouseEvent_loop view event (rev (lower ++ c :: upper)) w impl
       = (Returned mouse_handler.1, mouse.1.2, mouse.2))
      /\ (cell_child (cells drag.1.2) = None ->
          OnDragEvent_loop view event (rev (lower ++ c :: upper)) w impl
          = (Returned drag_handler.1, drag.1.2, drag.2)))
  /\ (forall pre e post,
        mouse_handler.2 = pre ++ ActRemoveElement e :: post ->
        Forall (fun a => ~ writes (Some CellDescendant) a CellDescendant) post ->
        cell_descendant (cells mouse.1.2) <> Some e)
  /\ (cell_child (cells mouse.1.2) = Some c ->
      cell_fired (cells mouse.1.2) = None ->
      children_ mouse.2 = children_ impl ->
      OnMouseEvent_loop view event (rev (lower ++ c :: upper)) w impl
      = OnMouseEvent_loop view event (rev lower)
          (set_in_element c mouse.1.2) mouse.2
      /\ cell_in (cells (set_in_element c mouse.1.2))
         = match cell_in (cells mouse.1.2),
                 cell_descendant (cells mouse.1.2) with
           | Some p, _ => Some p
           | None, Some d => Some d
           | None, None => Some c
           end)
  /\ (forall w' impl',
        children_live w' impl' ->
        (forall a, owner_ impl' = Some a -> is_Some (heap w' !! a)) ->
        handlers_tame (children_ impl') (owner_ impl') ->
        (OnMouseEvent view event w' impl').1.1 <> Undefined
        /\ (OnDragEvent view event w' impl').1.1 <> Undefined).
Proof.
  intros Hupper Hhit. cbv zeta.
  pose proof Hhit as (el & Hel & Hvis & Hmap & Hin).
  set (w1 := write_cell CellChild (Some c) w).
  pose proof (OnMouseEvent_call_eq view c ev w impl) as Em.
  pose proof (OnDragEvent_call_eq view c ev w1 impl) as Ed.
  cbv zeta in Em, Ed.
  destruct (OnMouseEvent_call view c ev w impl) as [[rm wm] im] eqn:Hm.
  destruct (OnDragEvent_call view c ev w1 impl) as [[rd wd] id] eqn:Hd.
  destruct (OnMouseEvent_call_child view c ev w impl el rm wm im Hel Hm)
    as (Hm1 & Hm2 & _ & _).
  destruct (OnDragEvent_call_child view c ev w1 impl el rd wd id Hel eq_refl Hd)
    as (Hd1 & Hd2 & _ & _).
  pose proof (OnMouseEvent_loop_topmost view event lower upper c ev w impl
                rm wm im Hupper Hhit Hm) as Hmouse.
  pose proof (OnDragEvent_loop_topmost view event lower upper c ev w impl
                rd wd id Hupper Hhit Hd) as Hdrag.
  cbn [fst snd].
  split; [intros w' impl'; split; reflexivity|].
  split; [split; congruence|].
  split; [split; [destruct Hm1; auto | destruct Hd1; auto]|].
  split; [|split; [|split; [|split]]].
  - intros pre post. split; intros Hacts.
    + injection Em as _ -> _. rewrite Hacts. cbn.
      apply removed_child_nulled;
        [congruence | simpl; rewrite !elem_of_cons; auto | reflexivity
         | simpl; rewrite Hel; eauto].
    + injection Ed as _ -> _. rewrite Hacts. cbn.
      apply removed_child_nulled;
        [congruence | simpl; rewrite !elem_of_cons; auto | reflexivity
         | simpl; rewrite Hel; eauto].
  - split; intros Hnull.
    + rewrite Hmouse, Hnull. congruence.
    + rewrite Hdrag, Hnull. congruence.
  - intros pre e post Hacts Hpost.
    injection Em as _ -> _. rewrite Hacts. cbn.
    apply (removed_not_seen view (Some CellDescendant) pre post CellDescendant
             e (OnMouseEvent_enter c w) impl);
      [simpl; rewrite !elem_of_cons; auto | exact Hpost].
  - intros Hchild Hfired Hvec. split.
    + rewrite Hmouse, Hchild, Hfired.
      now rewrite decide_True by exact Hvec.
    + unfold set_in_element.
      destruct (cell_in (cells wm)) eqn:Ein; [exact Ein|].
      now destruct (cell_descendant (cells wm)).
  - intros w' impl' Hlive Howner Htame. split.
    + apply (OnMouseEvent_loop_returns view event (children_ impl')
               (owner_ impl')); auto.
      intros a Ha. now apply elem_of_rev_1.
    + apply (OnDragEvent_loop_returns view event (children_ impl')
               (owner_ impl')); auto.
      intros a Ha. now apply elem_of_rev_1.
Qed.

(** C2, as the code has it.  The mouse dispatch clears its two outputs and
    examines the children from the last of the vector, the topmost, down.
    A child that is invisible, or that does not contain the point the
    event's coordinates are mapped to in its own space, is passed over:
    its handler is not run and nothing changes.  The mapping changes the
    coordinates of the event only: with an owner, to what the owner's
    [SelfCoordToChildCoord] gives for the child, and without, to what
    [ParentCoordToChildCoord] gives for the child's position, pin and
    rotation.  When every child is passed over, the result is UNHANDLED.
    Otherwise the handler of the topmost child [c] that is visible and
    contains the mapped point is run on the mapped event [ev], and the
    dispatch ends with that handler's result, whatever it is, and with
    the world as that call left it, when the child was destroyed or
    [*fired_element] is set: nothing of the children below shows in what
    the dispatch gives.  When the child is alive and [*fired_element] is
    null, whatever the handler returned, the dispatch goes on in the same
    way with the children below [c].  With tame handlers and live
    children and owner the dispatch is defined. *)
Theorem OnMouseEvent_topmost_fired_wins (view : View D St) event :
  (forall w impl,
     OnMouseEvent view event w impl =
     OnMouseEvent_loop view event (rev (children_ impl))
       (write_cell CellFired None (write_cell CellIn None w)) impl)
  /\ (forall w impl (el : BasicElement D St) ev,
        MapChildPositionEvent w impl event el = Some ev ->
        GetType ev = GetType event
        /\ GetDetail ev = GetDetail event
        /\ (forall (o : nat) (owner : BasicElement D St),
              owner_ impl = Some o -> heap w !! o = Some owner ->
              (GetX ev, GetY ev)
              = SelfCoordToChildCoord owner el (GetX event) (GetY event))
        /\ (owner_ impl = None ->
            (GetX ev, GetY ev)
            = ParentCoordToChildCoord (GetX event) (GetY event)
                (GetPixelX el) (GetPixelY el)
                (GetPixelPinX el) (GetPixelPinY el)
                (DegreesToRadians (GetRotation el))))
  /\ (forall (v : list nat) w impl,
        (forall u, u ∈ v -> passed_over w impl event u) ->
        OnMouseEvent_loop view event (rev v) w impl
        = (Returned EVENT_RESULT_UNHANDLED, w, impl))
  /\ (forall (lower upper : list nat) c ev w impl,
        (forall u, u ∈ upper -> passed_over w impl event u) ->
        hit w impl event c ev ->
        let w2 := OnMouseEvent_enter c w in
        let h := Element_OnMouseEvent c ev w2 impl in
        let s := run_actions view (Some CellDescendant) h.2 (w2, impl) in
        let w4 := ScopedDeathDetector_leave (ScopedDeathDetector_leave s.1) in
        OnMouseEvent_loop view event (rev (lower ++ c :: upper)) w impl =
        match cell_child (cells w4), cell_fired (cells w4) with
        | None, _ => (Returned h.1, w4, s.2)
        | Some _, Some _ => (Returned h.1, set_in_element c w4, s.2)
        | Some _, None =>
            if decide (children_ s.2 = children_ impl)
            then OnMouseEvent_loop view event (rev lower)
                   (set_in_element c w4) s.2
            else (Undefined, set_in_element c w4, s.2)
        end)
  /\ (forall w impl,
        children_live w impl ->
        (forall a, owner_ impl = Some a -> is_Some (heap w !! a)) ->
        handlers_tame (children_ impl) (owner_ impl) ->
        (OnMouseEvent view event w impl).1.1 <> Undefined).
Proof.
  split; [reflexivity|]. split; [|split; [|split]].
  - intros w impl el ev. apply MapChildPositionEvent_maps.
  - intros v w impl Hv.
    rewrite <- (app_nil_r (rev v)).
    rewrite OnMouseEvent_loop_pass_all; [reflexivity|].
    intros u Hu. apply Hv. now apply elem_of_rev_1.
  - intros lower upper c ev w impl Hupper Hhit. cbv zeta.
    pose proof Hhit as (el & Hel & _).
    pose proof (OnMouseEvent_call_eq view c ev w impl) as Ecall.
    cbv zeta in Ecall.
    rewrite (OnMouseEvent_loop_topmost view event lower upper c ev w impl
               _ _ _ Hupper Hhit Ecall).
    destruct (OnMouseEvent_call_child view c ev w impl el _ _ _ Hel Ecall)
      as ([E|E] & _); rewrite E; reflexivity.
  - intros w impl Hlive Howner Htame.
    apply (OnMouseEvent_loop_returns view event (children_ impl) (owner_ impl));
      auto.
    intros a Ha. now apply elem_of_rev_1.
Qed.

End DispatchClaims.

(** * Properties of Layout *)

Section LayoutClaims.

Context {D St : Type} `{Double D} `{ElementMethods D St} `{MathUtils D}.

Implicit Types (w : World D St) (impl : Impl D St) (view : View D St)
         (h : gmap nat (BasicElement D St)) (v : list nat).

Lemma UpdateChildExtent_grow (child : BasicElement D St) (ext : D * D) :
  estimate_covers child ->
  UpdateChildExtent child ext =
  (grow ext.1 (child_extent child).1, grow ext.2 (child_extent child).2).
Proof.
  intros Hest. destruct ext as [ew eh]. unfold UpdateChildExtent, grow.
  fold (child_extent child).
  destruct (child_extent child) as [cw ch] eqn:E. simpl.
  destruct (dgtb (dadd (GetPixelX child) _) ew) eqn:E1; simpl;
    [reflexivity|].
  destruct (dgtb (dadd (GetPixelY child) _) eh) eqn:E2; simpl;
    [reflexivity|].
  destruct (Hest ew eh E1 E2) as [Hw Hh].
  rewrite E in Hw, Hh. simpl in Hw, Hh. now rewrite Hw, Hh.
Qed.

Lemma update_extents_fold h v : forall ext : D * D,
  (forall a, a ∈ v -> is_Some (h !! a)) ->
  Forall estimate_covers (children_elements h v) ->
  update_extents v h ext =
  Some (foldl (fun ext child =>
                 (grow ext.1 (child_extent child).1,
                  grow ext.2 (child_extent child).2))
              ext (children_elements h v)).
Proof.
  induction v as [|a r IH]; intros ext Hlive Hest; [reflexivity|].
  simpl. unfold children_elements in *. simpl in Hest.
  destruct (Hlive a) as [el Hel]; [left|].
  rewrite Hel in *. simpl in *.
  inversion Hest as [|? ? Ha Hr]; subst.
  rewrite UpdateChildExtent_grow by exact Ha.
  apply IH; [|exact Hr]. intros b Hb. apply Hlive. now right.
Qed.

Lemma layout_children_live v : forall h h',
  layout_children v h = Some h' ->
  (forall a, a ∈ v -> is_Some (h' !! a))
  /\ (forall a, is_Some (h !! a) -> is_Some (h' !! a)).
Proof.
  induction v as [|b r IH]; intros h h'; simpl.
  - intros [= <-]. split; [intros a Ha; inversion Ha | auto].
  - destruct (h !! b) as [el|] eqn:Hb; [|discriminate].
    intros Hl. destruct (IH _ _ Hl) as [IH1 IH2].
    assert (forall a, is_Some (h !! a) ->
                      is_Some (<[b:=Element_Layout el]> h !! a)) as Hmono.
    { intros a Ha. destruct (decide (b = a)) as [->|Hne].
      - rewrite lookup_insert_eq. eauto.
      - now rewrite lookup_insert_ne. }
    split.
    + intros a Ha. inversion Ha; subst; [|now apply IH1].
      apply IH2. rewrite lookup_insert_eq. eauto.
    + intros a Ha. apply IH2, Hmono, Ha.
Qed.

Lemma layout_children_defined v : forall h,
  (forall a, a ∈ v -> is_Some (h !! a)) -> is_Some (layout_children v h).
Proof.
  induction v as [|b r IH]; intros h Hlive; simpl; [eauto|].
  destruct (Hlive b) as [el Hel]; [left|]. rewrite Hel.
  apply IH. intros a Ha. destruct (decide (b = a)) as [->|Hne].
  - rewrite lookup_insert_eq. eauto.
  - rewrite lookup_insert_ne by exact Hne. apply Hlive. now right.
Qed.

Lemma need_update_extents_defined v h :
  (forall a, a ∈ v -> is_Some (h !! a)) -> is_Some (need_update_extents v h).
Proof.
  induction v as [|b r IH]; intros Hlive; simpl; [eauto|].
  destruct (Hlive b) as [el Hel]; [left|]. rewrite Hel.
  destruct (_ || _); [eauto|]. apply IH. intros a Ha. apply Hlive. now right.
Qed.

Lemma update_extents_defined v h : forall ext : D * D,
  (forall a, a ∈ v -> is_Some (h !! a)) -> is_Some (update_extents v h ext).
Proof.
  induction v as [|b r IH]; intros ext Hlive; simpl; [eauto|].
  destruct (Hlive b) as [el Hel]; [left|]. rewrite Hel.
  apply IH. intros a Ha. apply Hlive. now right.
Qed.

(** C8, as the code has it.  [Layout] returns when the children and the
    owner are alive.  On a scrollable collection that has no cached canvas,
    or of which some child reports a position or size change, it stores the
    bounding extent of the children (given that the cheap estimate covers
    each child's extent); on a collection that is not scrollable it stores
    the owner's pixel size rounded up to whole pixels, or the view's size
    when there is no owner. *)
Theorem Layout_extent view w impl :
  (children_live w impl ->
   (forall a, owner_ impl = Some a -> is_Some (heap w !! a)) ->
   is_Some (Layout view w impl))
  /\ (forall w' impl',
        Layout view w impl = Some (w', impl') ->
        (scrollable_ impl = true ->
         need_update_extents (children_ impl) (heap w') = Some true
         \/ canvas_ impl = None ->
         Forall estimate_covers (children_elements (heap w') (children_ impl)) ->
         (width_ impl', height_ impl') =
         bounding_extent (children_elements (heap w') (children_ impl)))
        /\ (scrollable_ impl = false ->
            forall a owner,
              owner_ impl = Some a -> heap w' !! a = Some owner ->
              width_ impl' = of_size_t (ceil_size_t (GetPixelWidth owner))
              /\ height_ impl' = of_size_t (ceil_size_t (GetPixelHeight owner)))
        /\ (scrollable_ impl = false -> owner_ impl = None ->
            width_ impl' = GetWidth view /\ height_ impl' = GetHeight view)).
Proof.
  split.
  - intros Hlive Howner. unfold Layout.
    destruct (layout_children_defined _ _ Hlive) as [h1 Hh1]. rewrite Hh1.
    destruct (layout_children_live _ _ _ Hh1) as [Hlive1 Hmono].
    destruct (scrollable_ impl).
    + destruct (need_update_extents_defined _ _ Hlive1) as [need ->].
      destruct (need || is_null (canvas_ impl)); [|eauto].
      destruct (update_extents_defined _ _ (d0, d0) Hlive1) as [[ew eh] ->].
      eauto.
    + destruct (owner_ impl) as [a|]; [|eauto].
      destruct (Hmono a (Howner a eq_refl)) as [owner ->]. eauto.
  - intros w' impl'. unfold Layout.
    destruct (layout_children (children_ impl) (heap w)) as [h1|] eqn:Hh1;
      [|discriminate].
    destruct (layout_children_live _ _ _ Hh1) as [Hlive1 _].
    destruct (scrollable_ impl) eqn:Hs.
    + destruct (need_update_extents (children_ impl) h1) as [need|] eqn:Hneed;
        [|discriminate].
      destruct (need || is_null (canvas_ impl)) eqn:Hupd.
      * destruct (update_extents (children_ impl) h1 (d0, d0))
          as [[ew eh]|] eqn:Hext; [|discriminate].
        intros [= <- <-]. simpl.
        split; [|split; intros; discriminate].
        intros _ _ Hest.
        rewrite (update_extents_fold h1 (children_ impl) (d0, d0) Hlive1 Hest)
          in Hext.
        symmetry. now injection Hext.
      * intros [= <- <-]. simpl.
        split; [|split; intros; discriminate].
        intros _ Hor. exfalso.
        apply orb_false_iff in Hupd as [-> Hnull].
        destruct Hor as [Hn|Hn]; [congruence|].
        rewrite Hn in Hnull. discriminate.
    + destruct (owner_ impl) as [a|] eqn:Ho.
      * destruct (h1 !! a) as [owner|] eqn:Hown; [|discriminate].
        intros [= <- <-]. simpl.
        split; [intros; discriminate|]. split; [|intros; discriminate].
        intros _ b owner' [= <-] Hb. rewrite Hown in Hb.
        injection Hb as <-. split; reflexivity.
      * intros [= <- <-]. simpl.
        split; [intros; discriminate|]. split; [intros; discriminate|].
        intros _ _. split; reflexivity.
Qed.

End LayoutClaims.

(** * Properties of Draw *)

Section DrawFacts.

Context {D St : Type} `{Double D} `{ElementMethods D St} `{MathUtils D}.

Implicit Types (w : World D St) (impl : Impl D St) (view : View D St)
         (h : gmap nat (BasicElement D St)) (v : list nat)
         (popup : ElementPtr) (s : DrawLoop D St) (el : BasicElement D St).

Lemma drawn_clear el : IsPositionChanged (drawn el) = false.
Proof.
  unfold drawn.
  destruct (IsPositionChanged (dr_element (Element_Draw el))) eqn:E;
    [reflexivity | exact E].
Qed.

(** One iteration of the first loop, spelled out. *)
Lemma draw_child_eq popup (a : nat) s el :
  dl_heap s !! a = Some el ->
  draw_child popup a s =
  Some (if bool_decide (Some a = popup)
        then {| dl_changed := dl_changed s || negb (dl_has_popup_ s);
                dl_has_popup_ := true;
                dl_heap := dl_heap s;
                dl_children_canvas := dl_children_canvas s ++ [None] |}
        else {| dl_changed := dl_changed s || child_changed el || dl_has_popup_ s;
                dl_has_popup_ := false;
                dl_heap := <[a := drawn el]> (dl_heap s);
                dl_children_canvas :=
                  dl_children_canvas s ++ [dr_canvas (Element_Draw el)] |}).
Proof.
  intros Hel. unfold draw_child, drawn, child_changed. rewrite Hel.
  destruct (bool_decide (Some a = popup)); simpl.
  - destruct (dl_has_popup_ s), (dl_changed s); reflexivity.
  - destruct (IsPositionChanged (dr_element (Element_Draw el)));
      destruct (dl_has_popup_ s), (dl_changed s),
               (dr_changed (Element_Draw el)); reflexivity.
Qed.

Lemma draw_child_inv popup (a : nat) s s' :
  draw_child popup a s = Some s' ->
  exists el, dl_heap s !! a = Some el /\ draw_child popup a s = Some s'.
Proof.
  intros Hd. pose proof Hd as Hd'. unfold draw_child in Hd.
  destruct (dl_heap s !! a) as [el|]; [|discriminate]. eauto.
Qed.

Lemma draw_children_cons popup (a : nat) v s s' :
  draw_children popup (a :: v) s = Some s' ->
  exists el s1, dl_heap s !! a = Some el
                /\ draw_child popup a s = Some s1
                /\ draw_children popup v s1 = Some s'.
Proof.
  simpl. destruct (draw_child popup a s) as [s1|] eqn:E; [|discriminate].
  intros Hr. destruct (draw_child_inv _ _ _ _ E) as (el & Hel & _). eauto.
Qed.

(** [changed], once set, stays set. *)
Lemma draw_children_changed popup v : forall s s',
  draw_children popup v s = Some s' ->
  dl_changed s = true -> dl_changed s' = true.
Proof.
  induction v as [|a r IH]; intros s s'; [now intros [= <-]|].
  intros Hd Hc. apply draw_children_cons in Hd as (el & s1 & Hel & Hs1 & Hr).
  apply (IH _ _ Hr). rewrite (draw_child_eq _ _ _ _ Hel) in Hs1.
  injection Hs1 as <-. destruct (bool_decide _); simpl; now rewrite Hc.
Qed.

(** A child that is not in the vector is not touched. *)
Lemma draw_children_other popup v (a : nat) : forall s s',
  draw_children popup v s = Some s' -> a ∉ v ->
  dl_heap s' !! a = dl_heap s !! a.
Proof.
  induction v as [|b r IH]; intros s s'; [now intros [= <-]|].
  intros Hd Ha. apply draw_children_cons in Hd as (el & s1 & Hel & Hs1 & Hr).
  rewrite (IH _ _ Hr) by (intros Hin; apply Ha; now right).
  rewrite (draw_child_eq _ _ _ _ Hel) in Hs1. injection Hs1 as <-.
  destruct (bool_decide _); simpl; [reflexivity|].
  apply lookup_insert_ne. intros ->. apply Ha. left.
Qed.

(** The elements stay on the heap. *)
Lemma draw_children_live popup v : forall s s',
  draw_children popup v s = Some s' ->
  forall a, is_Some (dl_heap s !! a) -> is_Some (dl_heap s' !! a).
Proof.
  induction v as [|b r IH]; intros s s'; [now intros [= <-]|].
  intros Hd a Ha. apply draw_children_cons in Hd as (el & s1 & Hel & Hs1 & Hr).
  apply (IH _ _ Hr). rewrite (draw_child_eq _ _ _ _ Hel) in Hs1.
  injection Hs1 as <-. destruct (bool_decide _); simpl; [exact Ha|].
  destruct (decide (b = a)) as [->|Hne].
  - rewrite lookup_insert_eq. eauto.
  - now rewrite lookup_insert_ne.
Qed.

Lemma draw_children_defined popup v : forall s,
  (forall a, a ∈ v -> is_Some (dl_heap s !! a)) ->
  is_Some (draw_children popup v s).
Proof.
  induction v as [|b r IH]; intros s Hlive; simpl; [eauto|].
  destruct (Hlive b) as [el Hel]; [left|].
  rewrite (draw_child_eq _ _ _ _ Hel). apply IH.
  intros a Ha. destruct (bool_decide _); simpl; [apply Hlive; now right|].
  destruct (decide (b = a)) as [->|Hne].
  - rewrite lookup_insert_eq. eauto.
  - rewrite lookup_insert_ne by exact Hne. apply Hlive. now right.
Qed.

(** A child whose flag is clear keeps it clear. *)
Lemma draw_children_clear_kept popup v (a : nat) : forall s s',
  draw_children popup v s = Some s' -> Some a <> popup ->
  (exists el, dl_heap s !! a = Some el /\ IsPositionChanged el = false) ->
  exists el, dl_heap s' !! a = Some el /\ IsPositionChanged el = false.
Proof.
  induction v as [|b r IH]; intros s s'; [now intros [= <-]|].
  intros Hd Hp Ha. apply draw_children_cons in Hd as (el & s1 & Hel & Hs1 & Hr).
  apply (IH _ _ Hr Hp). rewrite (draw_child_eq _ _ _ _ Hel) in Hs1.
  injection Hs1 as <-. destruct (bool_decide (Some b = popup)) eqn:Eb; simpl;
    [exact Ha|].
  destruct (decide (b = a)) as [->|Hne].
  - rewrite lookup_insert_eq. eexists. split; [reflexivity|].
    apply drawn_clear.
  - now rewrite lookup_insert_ne.
Qed.

(** After the loop the position-changed flag of every child that is not
    the popup is clear. *)
Lemma draw_children_cleared popup v : forall s s',
  draw_children popup v s = Some s' ->
  forall a, a ∈ v -> Some a <> popup ->
  exists el, dl_heap s' !! a = Some el /\ IsPositionChanged el = false.
Proof.
  induction v as [|b r IH]; intros s s' Hd a Ha Hp; [inversion Ha|].
  apply draw_children_cons in Hd as (el & s1 & Hel & Hs1 & Hr).
  destruct (decide (a = b)) as [->|Hne].
  - apply (draw_children_clear_kept _ _ _ _ _ Hr Hp).
    rewrite (draw_child_eq _ _ _ _ Hel) in Hs1. injection Hs1 as <-.
    rewrite bool_decide_eq_false_2 by exact Hp. simpl.
    rewrite lookup_insert_eq. eexists. split; [reflexivity|].
    apply drawn_clear.
  - apply (IH _ _ Hr); [|exact Hp]. inversion Ha; subst; [congruence|assumption].
Qed.

(** A child that asks for a new composition gets it. *)
Lemma draw_children_detects popup (l1 l2 : list nat) (a : nat) s s' el :
  draw_children popup (l1 ++ a :: l2) s = Some s' ->
  a ∉ l1 -> Some a <> popup ->
  dl_heap s !! a = Some el -> child_changed el = true ->
  dl_changed s' = true.
Proof.
  revert s. induction l1 as [|b r IH]; intros s Hd Ha Hp Hel Hc.
  - simpl in Hd. apply draw_children_cons in Hd as (el' & s1 & Hel' & Hs1 & Hr).
    apply (draw_children_changed _ _ _ _ Hr).
    rewrite (draw_child_eq _ _ _ _ Hel') in Hs1. injection Hs1 as <-.
    rewrite bool_decide_eq_false_2 by exact Hp. simpl.
    rewrite Hel in Hel'. injection Hel' as <-. rewrite Hc.
    now rewrite orb_true_r.
  - simpl in Hd. apply draw_children_cons in Hd as (el' & s1 & Hel' & Hs1 & Hr).
    apply (IH s1 Hr); [intros Hin; apply Ha; now right | exact Hp | | exact Hc].
    rewrite (draw_child_eq _ _ _ _ Hel') in Hs1. injection Hs1 as <-.
    destruct (bool_decide _); simpl; [exact Hel|].
    rewrite lookup_insert_ne; [exact Hel|]. intros ->. apply Ha. left.
Qed.

Lemma draw_children_all_live popup v : forall s s',
  draw_children popup v s = Some s' ->
  forall a, a ∈ v -> is_Some (dl_heap s' !! a).
Proof.
  induction v as [|b r IH]; intros s s' Hd a Ha; [inversion Ha|].
  apply draw_children_cons in Hd as (el & s1 & Hel & Hs1 & Hr).
  inversion Ha; subst; [|now apply (IH _ _ Hr)].
  apply (draw_children_live _ _ _ _ Hr).
  rewrite (draw_child_eq _ _ _ _ Hel) in Hs1. injection Hs1 as <-.
  destruct (bool_decide _); simpl; [eauto|].
  rewrite lookup_insert_eq. eauto.
Qed.

(** After the loop [has_popup_] says whether the last child is the popup. *)
Lemma draw_children_has_popup popup v : forall s s',
  draw_children popup v s = Some s' ->
  dl_has_popup_ s' =
  match last v with
  | Some a => bool_decide (Some a = popup)
  | None => dl_has_popup_ s
  end.
Proof.
  induction v as [|b r IH]; intros s s' Hd; [now injection Hd as <-|].
  apply draw_children_cons in Hd as (el & s1 & Hel & Hs1 & Hr).
  rewrite (IH _ _ Hr). rewrite (draw_child_eq _ _ _ _ Hel) in Hs1.
  injection Hs1 as <-.
  destruct r as [|c r]; [simpl; destruct (bool_decide _); reflexivity|].
  change (last (b :: c :: r)) with (last (c :: r)).
  destruct (last (c :: r)) eqn:E; [reflexivity|].
  apply last_None in E. discriminate.
Qed.

(** The canvases the loop collects, when no child is listed twice. *)
Lemma draw_children_canvases popup v : forall s s',
  draw_children popup v s = Some s' -> NoDup v ->
  dl_children_canvas s' =
  dl_children_canvas s ++ (child_canvas popup (dl_heap s) <$> v).
Proof.
  induction v as [|b r IH]; intros s s' Hd Hnd.
  - injection Hd as <-. simpl. now rewrite app_nil_r.
  - apply draw_children_cons in Hd as (el & s1 & Hel & Hs1 & Hr).
    apply NoDup_cons in Hnd as [Hb Hnd].
    rewrite (IH _ _ Hr Hnd). rewrite (draw_child_eq _ _ _ _ Hel) in Hs1.
    injection Hs1 as <-. rewrite fmap_cons.
    assert (child_canvas popup (dl_heap s) b =
            if bool_decide (Some b = popup) then None
            else dr_canvas (Element_Draw el)) as ->
      by (unfold child_canvas; now rewrite Hel).
    destruct (bool_decide (Some b = popup)) eqn:Eb; simpl;
      rewrite <- app_assoc; simpl; do 2 f_equal; try reflexivity.
    apply list_fmap_ext. intros i a Ha. unfold child_canvas.
    rewrite lookup_insert_ne; [reflexivity|].
    intros ->. apply Hb. apply list_elem_of_lookup. eauto.
Qed.

(** Every child that handed a canvas is drawn by the second loop. *)
Lemma composite_children_draws h v (f : nat -> option nat) :
  forall ops : list (CanvasOp D),
    composite_children h v (f <$> v) = Some ops ->
    forall (a cc : nat), a ∈ v -> f a = Some cc ->
    exists op, op ∈ ops /\ draws cc op.
Proof.
  induction v as [|b r IH]; intros ops Hc a cc Ha Hf; [inversion Ha|].
  rewrite fmap_cons in Hc. simpl in Hc.
  destruct (f b) as [c'|] eqn:Hfb.
  - destruct (h !! b) as [el|]; [|discriminate].
    destruct (composite_children h r (f <$> r)) as [ops'|] eqn:Hr;
      [|discriminate].
    injection Hc as <-.
    destruct (decide (a = b)) as [->|Hne].
    + rewrite Hfb in Hf. injection Hf as ->.
      unfold composite_child.
      destruct (GetMaskCanvas el) as [mask|].
      * exists (DrawCanvasWithMask d0 d0 cc d0 d0 mask). split.
        -- set_solver.
        -- right. eauto.
      * exists (DrawCanvas d0 d0 cc). split.
        -- set_solver.
        -- now left.
    + destruct (IH ops' eq_refl a cc) as (op & Hop & Hd); [|exact Hf|].
      * inversion Ha; subst; [congruence | assumption].
      * exists op. split; [|exact Hd]. clear -Hop. set_solver.
  - destruct (decide (a = b)) as [->|Hne]; [congruence|].
    apply (IH ops Hc a cc); [|exact Hf].
    inversion Ha; subst; [congruence | assumption].
Qed.

Lemma composite_children_defined h v : forall ccs : list (option nat),
  (forall a, a ∈ v -> is_Some (h !! a)) ->
  is_Some (composite_children h v ccs).
Proof.
  induction v as [|b r IH]; intros ccs Hlive; [simpl; eauto|].
  destruct ccs as [|[cc|] ccs]; simpl; [eauto| |].
  - destruct (Hlive b) as [el ->]; [left|].
    destruct (IH ccs) as [ops ->]; [|eauto].
    intros a Ha. apply Hlive. now right.
  - apply IH. intros a Ha. apply Hlive. now right.
Qed.

(** A second pass over children that ask for nothing changes nothing. *)
Lemma draw_children_quiet popup v : forall s,
  NoDup v ->
  dl_changed s = false ->
  (forall a, a ∈ v -> bool_decide (Some a = popup) = dl_has_popup_ s) ->
  (forall a, a ∈ v -> Some a <> popup ->
             exists el, dl_heap s !! a = Some el /\ child_changed el = false) ->
  (forall a, a ∈ v -> is_Some (dl_heap s !! a)) ->
  exists s', draw_children popup v s = Some s'
             /\ dl_changed s' = false
             /\ dl_has_popup_ s' = dl_has_popup_ s.
Proof.
  induction v as [|b r IH]; intros s Hnd Hc Hp Hq Hlive; [simpl; eauto|].
  apply NoDup_cons in Hnd as [Hb Hnd].
  destruct (Hlive b) as [el Hel]; [left|].
  simpl. rewrite (draw_child_eq _ _ _ _ Hel).
  pose proof (Hp b ltac:(left)) as Hpb.
  destruct (bool_decide (Some b = popup)) eqn:Eb.
  - edestruct (IH {| dl_changed := dl_changed s || negb (dl_has_popup_ s);
                     dl_has_popup_ := true; dl_heap := dl_heap s;
                     dl_children_canvas := dl_children_canvas s ++ [None] |})
      as (s' & Hs' & Hc' & Hp'); simpl.
    + exact Hnd.
    + rewrite Hc, <- Hpb. reflexivity.
    + intros a Ha. rewrite (Hp a) by now right. now symmetry.
    + intros a Ha. apply Hq. now right.
    + intros a Ha. apply Hlive. now right.
    + exists s'. simpl in Hp'. rewrite Hp'. auto.
  - apply bool_decide_eq_false in Eb.
    destruct (Hq b ltac:(left) Eb) as (el' & Hel' & Hquiet).
    rewrite Hel in Hel'. injection Hel' as <-.
    edestruct (IH {| dl_changed :=
                       dl_changed s || child_changed el || dl_has_popup_ s;
                     dl_has_popup_ := false;
                     dl_heap := <[b:=drawn el]> (dl_heap s);
                     dl_children_canvas :=
                       dl_children_canvas s ++ [dr_canvas (Element_Draw el)] |})
      as (s' & Hs' & Hc' & Hp'); simpl.
    + exact Hnd.
    + rewrite Hc, Hquiet, <- Hpb. reflexivity.
    + intros a Ha. rewrite (Hp a) by now right. now symmetry.
    + intros a Ha Hap. rewrite lookup_insert_ne by (intros ->; contradiction).
      apply Hq; [now right | exact Hap].
    + intros a Ha. rewrite lookup_insert_ne by (intros ->; contradiction).
      apply Hlive. now right.
    + exists s'. simpl in Hp'. rewrite Hp'. auto.
Qed.

End DrawFacts.

Section DrawClaims.

Context {D St : Type} `{Double D} `{ElementMethods D St} `{MathUtils D}.

Implicit Types (w : World D St) (impl : Impl D St) (view : View D St)
         (g : Graphics) (ret : DrawReturn D St) (c : Canvas D).

Lemma Draw_children_inv view g w impl c (changed : bool) ret :
  Draw_children view g w impl c changed = Some ret ->
  exists s' c',
    draw_children (GetPopupElement view) (children_ impl)
      (draw_start w impl changed) = Some s'
    /\ ret_changed ret = dl_changed s'
    /\ ret_graphics ret = g
    /\ ret_world ret = set_heap w (dl_heap s')
    /\ ret_canvas ret = Some c'
    /\ ret_impl ret = set_draw_state impl (Some c') (dl_has_popup_ s')
    /\ canvas_width c' = canvas_width c
    /\ canvas_height c' = canvas_height c
    /\ (dl_changed s' = false -> c' = c)
    /\ (dl_changed s' = true ->
        exists ops,
          composite_children (dl_heap s') (children_ impl)
            (dl_children_canvas s') = Some ops
          /\ canvas_ops c' =
             canvas_ops c
             ++ ClearCanvas
                :: IntersectRectClipRegion d0 d0 (width_ impl) (height_ impl)
                :: ops ++ (if 0 <? GetDebugMode view then debug_box c else [])).
Proof.
  unfold Draw_children. fold (draw_start w impl changed).
  destruct (draw_children _ _ _) as [s'|] eqn:Hs; [|discriminate].
  destruct (dl_changed s') eqn:Hch.
  - destruct (composite_children _ _ _) as [ops|] eqn:Hops; [|discriminate].
    intros [= <-]. eexists s', _. simpl. rewrite Hch.
    repeat (split; [reflexivity|]).
    split; [intros Hx; discriminate Hx|]. intros _. exists ops. split; [exact Hops|].
    reflexivity.
  - intros [= <-]. exists s', c. simpl. rewrite Hch.
    repeat (split; [reflexivity|]).
    intros Hx. discriminate Hx.
Qed.

(** The four ways [Draw] can go. *)
Lemma Draw_inv view g w impl ret :
  Draw view g w impl = Some ret ->
  (children_ impl = [] /\ ret_canvas ret = None
   /\ ret_changed ret = count_changed_ impl)
  \/ (children_ impl <> [] /\ cache_stale impl /\ ret_canvas ret = None
      /\ ret_changed ret = true)
  \/ (children_ impl <> [] /\ cache_stale impl
      /\ exists c g0,
          canvas_width c = ceil_size_t (width_ impl)
          /\ canvas_height c = ceil_size_t (height_ impl)
          /\ Draw_children view g0 w impl c true = Some ret)
  \/ (children_ impl <> []
      /\ exists c,
          canvas_ impl = Some c
          /\ canvas_width c = ceil_size_t (width_ impl)
          /\ canvas_height c = ceil_size_t (height_ impl)
          /\ Draw_children view g w impl c (count_changed_ impl) = Some ret).
Proof.
  unfold Draw.
  destruct (bool_decide (children_ impl = [])) eqn:Hempty.
  { apply bool_decide_eq_true in Hempty. intros [= <-]. left. auto. }
  apply bool_decide_eq_false in Hempty.
  assert (Hrebuild : forall g1,
             cache_stale impl ->
             Draw_rebuild view g1 w impl (ceil_size_t (width_ impl))
               (ceil_size_t (height_ impl)) = Some ret ->
             (children_ impl <> [] /\ cache_stale impl /\ ret_canvas ret = None
              /\ ret_changed ret = true)
             \/ (children_ impl <> [] /\ cache_stale impl
                 /\ exists c g0,
                     canvas_width c = ceil_size_t (width_ impl)
                     /\ canvas_height c = ceil_size_t (height_ impl)
                     /\ Draw_children view g0 w impl c true = Some ret)).
  { intros g1 Hstale. unfold Draw_rebuild.
    destruct (_ || _); [intros [= <-]; left; auto|].
    unfold NewCanvas. destruct (gfx_can_allocate g1 _ _).
    - intros Hd. right. split; [exact Hempty|]. split; [exact Hstale|].
      eexists _, _. split; [|split; [|exact Hd]]; reflexivity.
    - intros [= <-]. left. auto. }
  destruct (canvas_ impl) as [c|] eqn:Hc.
  - destruct (negb (_ =? canvas_width c) || negb (_ =? canvas_height c)) eqn:Hd.
    + intros Hr. right.
      destruct (Hrebuild (DestroyCanvas g c)) as [Hx|Hx]; auto.
      unfold cache_stale. rewrite Hc.
      apply orb_true_iff in Hd as [Hd|Hd]; apply negb_true_iff in Hd;
        apply Z.eqb_neq in Hd; auto.
    + intros Hr. right. right. right. split; [exact Hempty|].
      apply orb_false_iff in Hd as [Hd1 Hd2].
      apply negb_false_iff, Z.eqb_eq in Hd1.
      apply negb_false_iff, Z.eqb_eq in Hd2.
      exists c. auto.
  - intros Hr. right. destruct (Hrebuild g) as [Hx|Hx]; auto.
    unfold cache_stale. now rewrite Hc.
Qed.

Lemma Draw_defined view g w impl :
  children_live w impl -> is_Some (Draw view g w impl).
Proof.
  intros Hlive.
  assert (Hdc : forall g1 c (changed : bool),
             is_Some (Draw_children view g1 w impl c changed)).
  { intros g1 c changed. unfold Draw_children.
    destruct (draw_children_defined (GetPopupElement view) (children_ impl)
                {| dl_changed := changed; dl_has_popup_ := has_popup_ impl;
                   dl_heap := heap w; dl_children_canvas := [] |} Hlive)
      as [s' Hs'].
    rewrite Hs'. destruct (dl_changed s'); [|eauto].
    destruct (composite_children_defined (dl_heap s') (children_ impl)
                (dl_children_canvas s')) as [ops ->]; [|eauto].
    apply (draw_children_all_live _ _ _ _ Hs'). }
  assert (Hrb : forall g1 nw nh, is_Some (Draw_rebuild view g1 w impl nw nh)).
  { intros g1 nw nh. unfold Draw_rebuild.
    destruct (_ || _); [eauto|].
    destruct (NewCanvas g1 nw nh) as [[c|] g2]; [apply Hdc | eauto]. }
  unfold Draw. destruct (bool_decide _); [eauto|].
  destruct (canvas_ impl) as [c|]; [|apply Hrb].
  destruct (_ || _); [apply Hrb | apply Hdc].
Qed.

(** C7, as the code has it.  [Draw] returns when the children are alive.
    It reports a change when the child count has changed; when there are
    children and the cached canvas is missing or does not fit the extent;
    and when some child other than the view's popup asks for a new
    composition (its own [Draw] reports a change or its position-changed
    flag is set).  When it reports a change and returns a canvas, it has
    cleared the canvas and drawn on it again every child that handed a
    canvas; and when it returns a canvas, the position-changed flag of
    every child other than the popup is clear. *)
Theorem Draw_reports_change view g w impl :
  (children_live w impl -> is_Some (Draw view g w impl))
  /\ forall ret,
      Draw view g w impl = Some ret ->
      (count_changed_ impl = true -> ret_changed ret = true)
      /\ (children_ impl <> [] -> cache_stale impl -> ret_changed ret = true)
      /\ (NoDup (children_ impl) ->
          forall a el,
            a ∈ children_ impl -> Some a <> GetPopupElement view ->
            heap w !! a = Some el -> child_changed el = true ->
            ret_changed ret = true)
      /\ (forall c,
            ret_canvas ret = Some c -> ret_changed ret = true ->
            exists prior ops,
              canvas_ops c =
              prior ++ ClearCanvas
                    :: IntersectRectClipRegion d0 d0 (width_ impl) (height_ impl)
                    :: ops
              /\ (NoDup (children_ impl) ->
                  forall a cc,
                    a ∈ children_ impl ->
                    child_canvas (GetPopupElement view) (heap w) a = Some cc ->
                    exists op, op ∈ ops /\ draws cc op))
      /\ (forall c,
            ret_canvas ret = Some c ->
            forall a, a ∈ children_ impl -> Some a <> GetPopupElement view ->
            exists el', heap (ret_world ret) !! a = Some el'
                        /\ IsPositionChanged el' = false).
Proof.
  split; [apply Draw_defined|]. intros ret Hd.
  assert (Hvia : forall g0 c (changed : bool),
             Draw_children view g0 w impl c changed = Some ret ->
             (changed = true -> ret_changed ret = true)
             /\ (NoDup (children_ impl) ->
                 forall a el,
                   a ∈ children_ impl -> Some a <> GetPopupElement view ->
                   heap w !! a = Some el -> child_changed el = true ->
                   ret_changed ret = true)
             /\ (forall c1,
                   ret_canvas ret = Some c1 -> ret_changed ret = true ->
                   exists prior ops,
                     canvas_ops c1 =
                     prior ++ ClearCanvas
                           :: IntersectRectClipRegion d0 d0
                                (width_ impl) (height_ impl)
                           :: ops
                     /\ (NoDup (children_ impl) ->
                         forall a cc,
                           a ∈ children_ impl ->
                           child_canvas (GetPopupElement view) (heap w) a
                           = Some cc ->
                           exists op, op ∈ ops /\ draws cc op))
             /\ (forall a, a ∈ children_ impl -> Some a <> GetPopupElement view ->
                 exists el', heap (ret_world ret) !! a = Some el'
                             /\ IsPositionChanged el' = false)).
  { intros g0 c changed Hdc.
    apply Draw_children_inv in Hdc
      as (s' & c' & Hs' & Hch & _ & Hw & Hcan & _ & _ & _ & _ & Hops).
    split; [|split; [|split]].
    - intros ->. rewrite Hch. now apply (draw_children_changed _ _ _ _ Hs').
    - intros Hnd a el Ha Hp Hel Hcc. rewrite Hch.
      apply list_elem_of_split in Ha as (l1 & l2 & Hsplit).
      rewrite Hsplit in Hs', Hnd.
      apply (draw_children_detects _ l1 l2 a _ _ el Hs'); auto.
      apply NoDup_app in Hnd as (_ & Hdis & _).
      intros Hin. apply (Hdis a Hin). left.
    - intros c1 Hc1 Hchanged. rewrite Hcan in Hc1. injection Hc1 as <-.
      rewrite Hch in Hchanged. destruct (Hops Hchanged) as (ops & Hcomp & Hco).
      exists (canvas_ops c), (ops ++ if 0 <? GetDebugMode view
                                      then debug_box c else []).
      split; [exact Hco|].
      intros Hnd a cc Ha Hcc.
      rewrite (draw_children_canvases _ _ _ _ Hs' Hnd) in Hcomp.
      simpl in Hcomp.
      destruct (composite_children_draws _ _ _ _ Hcomp a cc Ha Hcc)
        as (op & Hop & Hdr).
      exists op. split; [|exact Hdr]. apply elem_of_app. now left.
    - intros a Ha Hp. rewrite Hw. simpl.
      now apply (draw_children_cleared _ _ _ _ Hs'). }
  destruct (Draw_inv _ _ _ _ _ Hd)
    as [(Hempty & Hnone & Hch)
       |[(Hne & Hstale & Hnone & Hch)
        |[(Hne & Hstale & c0 & g0 & _ & _ & Hdc)
         |(Hne & c0 & Hc0 & Hcw & Hchh & Hdc)]]].
  - split; [congruence|]. split; [congruence|].
    split; [intros _ a el Ha; rewrite Hempty in Ha; inversion Ha|].
    split; intros; congruence.
  - split; [auto|]. split; [auto|]. split; [auto|].
    split; intros; congruence.
  - destruct (Hvia _ _ _ Hdc) as (H1' & H2' & H3' & H4').
    split; [auto|]. split; [auto|]. split; [exact H2'|].
    split; [exact H3'|]. intros c _. exact H4'.
  - destruct (Hvia _ _ _ Hdc) as (H1' & H2' & H3' & H4').
    split; [exact H1'|]. split.
    { intros _ Hstale. exfalso. unfold cache_stale in Hstale.
      rewrite Hc0 in Hstale. destruct Hstale; congruence. }
    split; [exact H2'|]. split; [exact H3'|]. intros c _. exact H4'.
Qed.

(** C6, as the code has it.  When [Draw] has returned a canvas, no child is
    listed twice, the view's popup is none of the children or the only
    one, and no child asks for a new composition, the next [Draw] reports
    no change and returns the very same canvas, with nothing drawn on it,
    and no canvas is destroyed or created. *)
Theorem Draw_twice view g w impl ret1 c1 :
  Draw view g w impl = Some ret1 ->
  ret_canvas ret1 = Some c1 ->
  NoDup (children_ impl) ->
  (forall a, a ∈ children_ impl -> Some a <> GetPopupElement view)
  \/ (forall a, a ∈ children_ impl -> Some a = GetPopupElement view) ->
  (forall a el1,
      a ∈ children_ impl -> Some a <> GetPopupElement view ->
      heap (ret_world ret1) !! a = Some el1 -> child_changed el1 = false) ->
  exists ret2,
    Draw view (ret_graphics ret1) (ret_world ret1) (ret_impl ret1) = Some ret2
    /\ ret_changed ret2 = false
    /\ ret_canvas ret2 = Some c1
    /\ ret_graphics ret2 = ret_graphics ret1.
Proof.
  intros Hd Hc1 Hnd Hpop Hquiet.
  assert (exists g0 c0 (changed : bool),
             children_ impl <> []
             /\ canvas_width c0 = ceil_size_t (width_ impl)
             /\ canvas_height c0 = ceil_size_t (height_ impl)
             /\ Draw_children view g0 w impl c0 changed = Some ret1)
    as (g0 & c0 & changed & Hne & Hcw & Hchh & Hdc).
  { destruct (Draw_inv _ _ _ _ _ Hd)
      as [(_ & Hnone & _)
         |[(_ & _ & Hnone & _)
          |[(Hne & _ & c0 & g0 & Hcw & Hchh & Hdc)
           |(Hne & c0 & _ & Hcw & Hchh & Hdc)]]]; try congruence.
    - exists g0, c0, true. auto.
    - exists g, c0, (count_changed_ impl). auto. }
  apply Draw_children_inv in Hdc
    as (s1 & c' & Hs1 & _ & _ & Hw1 & Hcan & Himpl & Hcw' & Hch' & _ & _).
  rewrite Hcan in Hc1. injection Hc1 as ->.
  assert (Hlast : forall a, a ∈ children_ impl ->
                    bool_decide (Some a = GetPopupElement view)
                    = dl_has_popup_ s1).
  { intros a Ha. rewrite (draw_children_has_popup _ _ _ _ Hs1).
    destruct (last (children_ impl)) as [b|] eqn:Hl;
      [|apply last_None in Hl; congruence].
    assert (b ∈ children_ impl) as Hb
      by (apply last_Some in Hl as [l' ->]; set_solver).
    destruct Hpop as [Hp|Hp].
    - rewrite !bool_decide_eq_false_2; auto.
    - rewrite !bool_decide_eq_true_2; auto. }
  destruct (draw_children_quiet (GetPopupElement view) (children_ impl)
              {| dl_changed := false; dl_has_popup_ := dl_has_popup_ s1;
                 dl_heap := dl_heap s1; dl_children_canvas := [] |})
    as (s2 & Hs2 & Hch2 & Hp2); simpl; auto.
  { intros a Ha Hp.
    destruct (draw_children_all_live _ _ _ _ Hs1 a Ha) as [el1 Hel1].
    exists el1. split; [exact Hel1|].
    apply (Hquiet a el1 Ha Hp). rewrite Hw1. exact Hel1. }
  { apply (draw_children_all_live _ _ _ _ Hs1). }
  unfold Draw. rewrite Himpl, Hw1. simpl.
  rewrite bool_decide_eq_false_2 by exact Hne.
  rewrite Hcw', Hch', Hcw, Hchh, !Z.eqb_refl. simpl.
  unfold Draw_children. simpl. rewrite Hs2, Hch2.
  eexists. split; [reflexivity|]. simpl. auto.
Qed.

End DrawClaims.

(** * Properties of the image hit test *)

Section ImgClaims.

Context {D St : Type} `{Double D}.

Variable BasicElement_IsPointIn : BasicElement D St -> D -> D -> bool.
Variable MapStretchMiddleCoordDestToSrc : D -> D -> D -> D -> D -> D -> D * D.

Abbreviation IsPointIn_img :=
  (ImgElement_IsPointIn BasicElement_IsPointIn MapStretchMiddleCoordDestToSrc).
Abbreviation image_point impl img this x y :=
  (map_to_image MapStretchMiddleCoordDestToSrc impl img
     (GetPixelWidth this) (GetPixelHeight this) x y).

(** C9, as the code has it.  A point is in an image element exactly when
    it is within the element's bounds, an image is loaded, the pixel width
    and height are positive, and the image point it maps to under the crop
    and stretch-middle settings either has an opacity greater than zero or
    has no value to be got ([GetPointValue] fails, and the point is taken
    as opaque); so a point that maps to a pixel of opacity zero is not in
    the element. *)
Theorem ImgElement_IsPointIn_opacity (this : BasicElement D St)
    (impl : ImgImpl D) (x y : D) :
  (IsPointIn_img this impl x y = true <->
   BasicElement_IsPointIn this x y = true
   /\ exists img,
       image_ impl = Some img
       /\ dgtb (GetPixelWidth this) d0 = true
       /\ dgtb (GetPixelHeight this) d0 = true
       /\ match GetPointValue img (image_point impl img this x y).1
                                  (image_point impl img this x y).2 with
          | None => True
          | Some opacity => dgtb opacity d0 = true
          end)
  /\ (forall img opacity,
        image_ impl = Some img ->
        GetPointValue img (image_point impl img this x y).1
                          (image_point impl img this x y).2 = Some opacity ->
        dgtb opacity d0 = false ->
        IsPointIn_img this impl x y = false).
Proof.
  unfold ImgElement_IsPointIn. split.
  - destruct (BasicElement_IsPointIn this x y); simpl;
      [|split; [discriminate | intros [? _]; discriminate]].
    destruct (image_ impl) as [img|];
      [|split; [discriminate | intros (_ & img & ? & _); discriminate]].
    destruct (dgtb (GetPixelWidth this) d0); simpl;
      [|split; [discriminate | intros (_ & img' & _ & ? & _); discriminate]].
    destruct (dgtb (GetPixelHeight this) d0); simpl;
      [|split; [discriminate | intros (_ & img' & _ & _ & ? & _); discriminate]].
    destruct (map_to_image _ impl img _ _ x y) as [x' y'] eqn:Emap. simpl.
    split.
    + intros Hin. split; [reflexivity|]. exists img.
      repeat (split; [reflexivity|]). rewrite Emap. simpl.
      destruct (GetPointValue img x' y'); [exact Hin | exact I].
    + intros (_ & img' & [= <-] & _ & _ & Hp). rewrite Emap in Hp. simpl in Hp.
      destruct (GetPointValue img x' y'); [exact Hp | reflexivity].
  - intros img opacity Himg Hval Hzero.
    destruct (BasicElement_IsPointIn this x y); simpl; [|reflexivity].
    rewrite Himg.
    destruct (dgtb (GetPixelWidth this) d0 && dgtb (GetPixelHeight this) d0);
      [|reflexivity].
    destruct (map_to_image _ impl img _ _ x y) as [x' y'] eqn:Emap.
    simpl in Hval. rewrite Hval. exact Hzero.
Qed.

End ImgClaims.

(** * The properties on the concrete scene *)

Import Scene.

(** ** The container *)

Lemma GetItemByIndex_z_order_witness :
  (do_calls (view None) three_calls world0 root).1.1 = Some <$> [0; 1; 2]%nat
  /\ GetItemByIndex (do_calls (view None) three_calls world0 root).2 1
     = Some 2%nat.
Proof.
  split; [vm_compute; reflexivity|].
  rewrite (GetItemByIndex_z_order (view None) three_calls world0 root
             [0; 1; 2]%nat).
  - reflexivity.
  - vm_compute. reflexivity.
  - vm_compute. discriminate.
Defined.

Lemma three_calls_children :
  children_ (do_calls (view None) three_calls world0 root).2 = [0; 2; 1]%nat.
Proof. vm_compute. reflexivity. Qed.

Lemma three_calls_live :
  children_live (do_calls (view None) three_calls world0 root).1.2
                (do_calls (view None) three_calls world0 root).2.
Proof.
  intros a Ha. rewrite three_calls_children in Ha.
  repeat (apply elem_of_cons in Ha as [->|Ha]; [vm_compute; eauto|]).
  inversion Ha.
Qed.

Lemma GetItemByName_first_match_witness :
  StringUtils.strlen "top" <> O
  /\ GetItemByName false (do_calls (view None) three_calls world0 root).1.2
       (do_calls (view None) three_calls world0 root).2 (Some "top"%string)
     = Some (Some 2%nat).
Proof.
  assert (StringUtils.strlen "top" <> O) as Hname by (vm_compute; discriminate).
  split; [exact Hname|].
  apply (proj1 (GetItemByName_first_match false _ _ "top" Hname three_calls_live
                  ltac:(vm_compute; discriminate)) 1%nat 2%nat).
  - vm_compute. reflexivity.
  - exists (rect 0 0 100 100 None (Some "TOP"%string)).
    split; vm_compute; reflexivity.
  - intros j b Hj Hb (el & Hel & Hcmp).
    assert (j = O) as -> by lia.
    vm_compute in Hb. injection Hb as <-.
    vm_compute in Hel. injection Hel as <-.
    vm_compute in Hcmp. discriminate.
Defined.

Lemma GetItemByName_empty_name_witness :
  GetItemByName false (do_calls (view None) three_calls world0 root).1.2
    (do_calls (view None) three_calls world0 root).2 (Some ""%string)
  = Some None
  /\ StringUtils.strlen (GetName (rect 0 0 100 100 None (Some "TOP"%string)))
     <> O.
Proof.
  pose proof (GetItemByName_empty_name false
                (do_calls (view None) three_calls world0 root).1.2
                (do_calls (view None) three_calls world0 root).2)
    as [Hempty Hfound].
  split.
  - apply (Hempty (Some ""%string)). right. exists ""%string.
    split; reflexivity.
  - apply (Hfound (Some "top"%string) 2%nat).
    + vm_compute. discriminate.
    + vm_compute. reflexivity.
    + vm_compute. reflexivity.
Defined.

Lemma Append_Insert_null_witness :
  (AppendElement (view None) "bread" None world0 root).1.1 = None
  /\ (InsertElement (view None) "rect" None (Some "no"%string) world0 root).1.1
     = None.
Proof.
  pose proof (proj1 (Append_Insert_null (view None) "bread" None) world0 root)
    as Happend.
  pose proof (proj2 (Append_Insert_null (view None) "rect" (Some "no"%string))
                None world0 root) as Hinsert.
  cbv zeta in Happend, Hinsert.
  destruct (AppendElement (view None) "bread" None world0 root)
    as [[r1 w1] impl1].
  destruct (InsertElement (view None) "rect" None (Some "no"%string) world0 root)
    as [[r2 w2] impl2].
  split; simpl.
  - apply Happend. left. reflexivity.
  - apply Hinsert. right. reflexivity.
Defined.

(** ** The dispatch *)

(** The two children of a scene of two rectangles are alive. *)
Ltac two_children_live :=
  let a := fresh "a" in
  let Ha := fresh "Ha" in
  intros a Ha;
  match type of Ha with
  | _ ∈ children_ ?impl =>
      assert (children_ impl = [0; 1]%nat) as Hv by (vm_compute; reflexivity);
      rewrite Hv in Ha; clear Hv
  end;
  repeat (apply elem_of_cons in Ha as [->|Ha]; [vm_compute; eauto|]);
  inversion Ha.

(** The event hits a child of the scene. *)
Ltac scene_hit :=
  eexists; split; [vm_compute; reflexivity|];
  split; [reflexivity|]; split; vm_compute; reflexivity.

(** The handlers of the scene are tame for the two rectangles. *)
Lemma scene_handlers_tame : handlers_tame [0; 1]%nat None.
Proof.
  assert (forall c ev w impl,
             Forall (tame c [0; 1]%nat None) (handler c ev w impl).2) as Ht.
  { intros c ev w impl. unfold handler.
    destruct (heap w !! c) as [el|]; [|constructor].
    repeat (destruct (String.eqb (GetName el) _));
      repeat first [apply List.Forall_nil | apply List.Forall_cons];
      simpl; auto.
    right. split; [|discriminate].
    rewrite !elem_of_cons, elem_of_nil. intros [?|[?|[]]]; discriminate. }
  intros c ev w impl _. split; apply Ht.
Qed.

(** The dispatch as the specification words it for a destroyed descendant
    does not hold.  The event hits the upper rectangle, whose handler
    returns CANCELED after it has reported its inner element, at address
    99, as the in-element and the inner element has removed itself: the
    dispatcher does not return that handler's result at once, it reports
    the rectangle itself as in-element and goes on to the lower rectangle,
    which fires the event and whose result (HANDLED) it returns. *)
Lemma descendant_destroyed_dispatch_goes_on :
  let s := two_rects_inner "a" "frame" in
  let w0 := write_cell CellFired None (write_cell CellIn None s.1) in
  let res := OnMouseEvent (view None) click s.1 s.2 in
  children_ s.2 = [0; 1]%nat
  /\ is_Some (heap s.1 !! 99%nat)
  /\ hit w0 s.2 click 1%nat click_in_top
  /\ Element_OnMouseEvent 1%nat click_in_top (OnMouseEvent_enter 1%nat w0) s.2
     = (EVENT_RESULT_CANCELED,
        [ActSetIn (Some 99%nat); ActRemoveElement 99%nat])
  /\ heap res.1.2 !! 99%nat = None
  /\ res.1.1 = Returned EVENT_RESULT_HANDLED
  /\ cell_fired (cells res.1.2) = Some 0%nat
  /\ cell_in (cells res.1.2) = Some 1%nat.
Proof.
  cbv zeta. split; [reflexivity|]. split; [vm_compute; eauto|].
  split; [scene_hit|].
  repeat split; vm_compute; reflexivity.
Qed.

Lemma dispatch_detects_destroyed_child_witness :
  let s := two_rects "a" "close" in
  hit s.1.2 s.2 click 1%nat click_in_top
  /\ hit s.1.2 s.2 drag 1%nat drag_in_top
  /\ is_Some (heap s.1.2 !! 1%nat)
  /\ (exists w' impl',
        OnMouseEvent_loop (view None) click [1; 0]%nat s.1.2 s.2
        = (Returned EVENT_RESULT_HANDLED, w', impl')
        /\ heap w' !! 1%nat = None /\ children_ impl' = [0%nat])
  /\ (exists w' impl',
        OnDragEvent_loop (view None) drag [1; 0]%nat s.1.2 s.2
        = (Returned EVENT_RESULT_HANDLED, w', impl')
        /\ heap w' !! 1%nat = None /\ children_ impl' = [0%nat])
  /\ (OnMouseEvent (view None) click s.1.2 s.2).1.1 <> Undefined
  /\ (OnDragEvent (view None) drag s.1.2 s.2).1.1 <> Undefined.
Proof.
  cbv zeta.
  assert (hit (two_rects "a" "close").1.2 (two_rects "a" "close").2
            click 1%nat click_in_top) as Hclick by scene_hit.
  assert (hit (two_rects "a" "close").1.2 (two_rects "a" "close").2
            drag 1%nat drag_in_top) as Hdrag by scene_hit.
  pose proof (dispatch_detects_destroyed_child (view None) click 1%nat
                click_in_top _ _ [0%nat] []
                ltac:(intros u Hu; inversion Hu) Hclick)
    as (_ & _ & _ & Hnull & Hstop & _ & _ & Hdefined).
  pose proof (dispatch_detects_destroyed_child (view None) drag 1%nat
                drag_in_top _ _ [0%nat] []
                ltac:(intros u Hu; inversion Hu) Hdrag)
    as (_ & _ & _ & Hnull' & Hstop' & _ & _ & Hdefined').
  cbv zeta in Hnull, Hstop, Hdefined, Hnull', Hstop', Hdefined'.
  split; [exact Hclick|]. split; [exact Hdrag|].
  split; [vm_compute; eauto|].
  split; [|split; [|split]].
  - eexists _, _. split; [|split].
    + change [1; 0]%nat with (rev ([0] ++ 1 :: []))%nat.
      rewrite (proj1 Hstop).
      * vm_compute. reflexivity.
      * apply (proj1 (Hnull [] [])). vm_compute. reflexivity.
    + vm_compute. reflexivity.
    + vm_compute. reflexivity.
  - eexists _, _. split; [|split].
    + change [1; 0]%nat with (rev ([0] ++ 1 :: []))%nat.
      rewrite (proj2 Hstop').
      * vm_compute. reflexivity.
      * apply (proj2 (Hnull' [] [])). vm_compute. reflexivity.
    + vm_compute. reflexivity.
    + vm_compute. reflexivity.
  - apply (Hdefined (two_rects "a" "close").1.2 (two_rects "a" "close").2).
    + two_children_live.
    + intros a Ha. discriminate Ha.
    + exact scene_handlers_tame.
  - apply (Hdefined' (two_rects "a" "close").1.2 (two_rects "a" "close").2).
    + two_children_live.
    + intros a Ha. discriminate Ha.
    + exact scene_handlers_tame.
Defined.

(** The dispatch as the specification words it for a child that returns
    UNHANDLED does not hold.  The event hits both rectangles.  The handler
    of the upper one fires the event and returns UNHANDLED: the dispatcher
    returns UNHANDLED at once, with the upper rectangle as the fired
    element, and the lower rectangle, whose handler would have returned
    HANDLED, is not tried. *)
Lemma fired_unhandled_stops_dispatch :
  let s := two_rects "a" "shy" in
  let w0 := write_cell CellFired None (write_cell CellIn None s.1.2) in
  let res := OnMouseEvent (view None) click s.1.2 s.2 in
  children_ s.2 = [0; 1]%nat
  /\ hit w0 s.2 click 1%nat click_in_top
  /\ hit w0 s.2 click 0%nat (SetXY click (75 - 0 + 0)%Q (75 - 0 + 0)%Q)
  /\ (Element_OnMouseEvent 1%nat click_in_top (OnMouseEvent_enter 1%nat w0) s.2).1
     = EVENT_RESULT_UNHANDLED
  /\ (Element_OnMouseEvent 0%nat (SetXY click (75 - 0 + 0)%Q (75 - 0 + 0)%Q)
        (OnMouseEvent_enter 0%nat w0) s.2).1
     = EVENT_RESULT_HANDLED
  /\ res.1.1 = Returned EVENT_RESULT_UNHANDLED
  /\ cell_fired (cells res.1.2) = Some 1%nat
  /\ res.1.2 = set_in_element 1%nat
                 (OnMouseEvent_call (view None) 1%nat click_in_top w0 s.2).1.2.
Proof.
  cbv zeta. split; [reflexivity|].
  split; [scene_hit|]. split; [scene_hit|].
  repeat split; vm_compute; reflexivity.
Qed.

Lemma OnMouseEvent_topmost_fired_wins_witness :
  let s := two_rects "a" "pass" in
  let w0 := write_cell CellFired None (write_cell CellIn None s.1.2) in
  let res := OnMouseEvent (view None) click s.1.2 s.2 in
  hit w0 s.2 click 1%nat click_in_top
  /\ (Element_OnMouseEvent 1%nat click_in_top (OnMouseEvent_enter 1%nat w0) s.2).1
     = EVENT_RESULT_UNHANDLED
  /\ res = OnMouseEvent_loop (view None) click [0%nat]
             (set_in_element 1%nat
                (OnMouseEvent_call (view None) 1%nat click_in_top w0 s.2).1.2)
             s.2
  /\ res.1.1 = Returned EVENT_RESULT_HANDLED
  /\ cell_fired (cells res.1.2) = Some 0%nat
  /\ OnMouseEvent (view None) click world0 root
     = (Returned EVENT_RESULT_UNHANDLED,
        write_cell CellFired None (write_cell CellIn None world0), root)
  /\ res.1.1 <> Undefined.
Proof.
  cbv zeta.
  pose proof (OnMouseEvent_topmost_fired_wins (view None) click)
    as (Htop & _ & Hnone & Hhit & Hdefined).
  assert (hit (write_cell CellFired None
                 (write_cell CellIn None (two_rects "a" "pass").1.2))
            (two_rects "a" "pass").2 click 1%nat click_in_top) as Hclick
    by scene_hit.
  split; [exact Hclick|]. split; [vm_compute; reflexivity|].
  split; [|split; [|split; [|split]]].
  - rewrite Htop.
    change (rev (children_ (two_rects "a" "pass").2))
      with (rev ([0%nat] ++ 1%nat :: [])).
    rewrite (Hhit [0%nat] [] 1%nat click_in_top _ _
               ltac:(intros u Hu; inversion Hu) Hclick).
    vm_compute. reflexivity.
  - vm_compute. reflexivity.
  - vm_compute. reflexivity.
  - rewrite Htop. apply (Hnone []). intros u Hu. inversion Hu.
  - apply Hdefined.
    + two_children_live.
    + intros a Ha. discriminate Ha.
    + exact scene_handlers_tame.
Defined.

(** ** Layout *)

(** The extent after [Layout] as the specification words it does not hold.
    A collection that is not scrollable, owned by a panel 10.5 pixels wide,
    gets the width 11, the panel's width rounded up; and a scrollable
    collection that has been drawn, from which the larger of two
    rectangles is then removed, keeps the extent (150, 150) through the
    next [Layout] while the bounding extent of the rectangle left is
    (100, 100). *)
Lemma Layout_extent_differs :
  (let s := laid_out (view None) panel in
   exists owner,
     scrollable_ s.2 = false
     /\ owner_ s.2 = Some 7%nat /\ heap s.1 !! 7%nat = Some owner
     /\ GetPixelWidth owner = (21 # 2)%Q
     /\ width_ s.2 = 11%Q
     /\ ~ (width_ s.2 == GetPixelWidth owner)%Q)
  /\ (let s := laid_out (view None) scroll_a in
      Layout (view None) scroll_a.1 scroll_a.2 = Some s
      /\ scrollable_ s.2 = true
      /\ children_ s.2 = [0%nat]
      /\ (width_ s.2, height_ s.2) = (150%Q, 150%Q)
      /\ bounding_extent (children_elements (heap s.1) (children_ s.2))
         = (100%Q, 100%Q)).
Proof.
  split; cbv zeta.
  - eexists. split; [reflexivity|]. split; [reflexivity|].
    split; [vm_compute; reflexivity|]. split; [reflexivity|].
    split; [vm_compute; reflexivity|]. vm_compute. discriminate.
  - repeat split; vm_compute; reflexivity.
Qed.

(** The cheap estimate covers the extent of the rectangles of the scene. *)
Lemma rect_estimate_covers (x y : Q) (parent : ElementPtr) (name : option string) :
  estimate_covers (rect x y 100 100 parent name).
Proof.
  intros ew eh. simpl. unfold std_max. simpl.
  rewrite !negb_false_iff, !Qle_bool_iff. intros. split; lra.
Qed.

Lemma Layout_extent_witness :
  let s := (two_rects "a" "b") in
  exists w' impl',
    Layout (view None) s.1.2 (SetScrollable true s.2) = Some (w', impl')
    /\ (width_ impl', height_ impl') = (150%Q, 150%Q)
    /\ (width_ impl', height_ impl')
       = bounding_extent (children_elements (heap w') [0; 1]%nat).
Proof.
  cbv zeta.
  pose proof (proj2 (Layout_extent (view None) (two_rects "a" "b").1.2
                       (SetScrollable true (two_rects "a" "b").2)))
    as Hextent.
  eassert (Layout (view None) (two_rects "a" "b").1.2
             (SetScrollable true (two_rects "a" "b").2) = Some (_, _)) as Hl
    by (vm_compute; reflexivity).
  destruct (Hextent _ _ Hl) as (Hscroll & _ & _).
  eexists _, _. split; [exact Hl|]. split; [reflexivity|].
  apply Hscroll.
  - reflexivity.
  - right. reflexivity.
  - match goal with
    | |- Forall _ ?l =>
        assert (l = [rect 0 0 100 100 None (Some "a"%string);
                     rect 50 50 100 100 None (Some "b"%string)]) as ->
          by (vm_compute; reflexivity)
    end.
    repeat first [apply List.Forall_nil | apply List.Forall_cons];
      apply rect_estimate_covers.
Defined.

(** ** Draw *)

(** Two calls of [Draw] in a row as the specification words them do not
    hold.  For two rectangles that were never laid out the extent is zero,
    and both calls report a change and return no canvas; and for two
    rectangles, laid out, of which the lower is the view's popup, the first
    call returns a canvas and the second, with nothing changed in between,
    reports a change again. *)
Lemma Draw_twice_reports_change :
  (exists r1 r2,
      drawn_once None scene_ab = Some r1
      /\ drawn_again None scene_ab = Some r2
      /\ ret_changed r1 = true /\ ret_canvas r1 = None
      /\ ret_changed r2 = true /\ ret_canvas r2 = None)
  /\ (exists r1 r2 c,
        drawn_once (Some 0%nat) (laid_out (view None) scene_ab) = Some r1
        /\ drawn_again (Some 0%nat) (laid_out (view None) scene_ab) = Some r2
        /\ ret_canvas r1 = Some c
        /\ ret_changed r2 = true).
Proof.
  split.
  - eexists _, _. split; [vm_compute; reflexivity|].
    split; [vm_compute; reflexivity|]. repeat split.
  - eexists _, _, _. split; [vm_compute; reflexivity|].
    split; [vm_compute; reflexivity|]. split; reflexivity.
Qed.

Lemma Draw_twice_witness :
  exists r1 c1 r2,
    drawn_once None (laid_out (view None) scene_ab) = Some r1
    /\ ret_canvas r1 = Some c1
    /\ Draw (view None) (ret_graphics r1) (ret_world r1) (ret_impl r1)
       = Some r2
    /\ ret_changed r2 = false
    /\ ret_canvas r2 = Some c1
    /\ ret_graphics r2 = ret_graphics r1.
Proof.
  eassert (drawn_once None (laid_out (view None) scene_ab) = Some _) as Hd
    by (vm_compute; reflexivity).
  match type of Hd with
  | _ = Some ?r => eassert (ret_canvas r = Some _) as Hc by reflexivity
  end.
  destruct (Draw_twice (view None) graphics0
              (laid_out (view None) scene_ab).1
              (laid_out (view None) scene_ab).2 _ _ Hd Hc)
    as (r2 & Hr2 & Hch & Hcan & Hg).
  - assert (children_ (laid_out (view None) scene_ab).2 = [0; 1]%nat) as ->
      by (vm_compute; reflexivity).
    apply NoDup_cons. split; [|apply NoDup_singleton].
    rewrite list_elem_of_singleton. discriminate.
  - left. intros a _. discriminate.
  - intros a el1 Ha _ Hel.
    assert (children_ (laid_out (view None) scene_ab).2 = [0; 1]%nat) as Hv
      by (vm_compute; reflexivity).
    rewrite Hv in Ha.
    repeat (apply elem_of_cons in Ha as [->|Ha];
            [vm_compute in Hel; injection Hel as <-; vm_compute; reflexivity|]).
    inversion Ha.
  - eexists _, _, r2. split; [exact Hd|]. split; [exact Hc|]. auto.
Defined.

(** The report of changes as the specification words it does not hold.
    A single rectangle that is the view's popup keeps its position-changed
    flag through a first [Draw], and the next [Draw] reports no change;
    and for two rectangles never laid out, [Draw] reports a change but
    returns no canvas and leaves the position-changed flag set. *)
Lemma popup_change_not_reported :
  (exists r1 r2 el,
      drawn_once (Some 0%nat) (laid_out (view None) scene_a) = Some r1
      /\ children_ (ret_impl r1) = [0%nat]
      /\ heap (ret_world r1) !! 0%nat = Some el
      /\ IsPositionChanged el = true
      /\ Draw (view (Some 0%nat)) (ret_graphics r1) (ret_world r1) (ret_impl r1)
         = Some r2
      /\ ret_changed r2 = false)
  /\ (exists r el,
        drawn_once None scene_ab = Some r
        /\ ret_changed r = true /\ ret_canvas r = None
        /\ heap (ret_world r) !! 0%nat = Some el
        /\ IsPositionChanged el = true).
Proof.
  split.
  - eexists _, _, _. split; [vm_compute; reflexivity|].
    split; [reflexivity|]. split; [vm_compute; reflexivity|].
    split; [reflexivity|]. split; [vm_compute; reflexivity|]. reflexivity.
  - eexists _, _. split; [vm_compute; reflexivity|].
    split; [reflexivity|]. split; [reflexivity|].
    split; [vm_compute; reflexivity|]. reflexivity.
Qed.

Lemma Draw_reports_change_witness :
  exists r,
    drawn_once None (laid_out (view None) scene_ab) = Some r
    /\ ret_changed r = true
    /\ exists el', heap (ret_world r) !! 1%nat = Some el'
                   /\ IsPositionChanged el' = false.
Proof.
  eassert (drawn_once None (laid_out (view None) scene_ab) = Some _) as Hd
    by (vm_compute; reflexivity).
  destruct (proj2 (Draw_reports_change (view None) graphics0
                     (laid_out (view None) scene_ab).1
                     (laid_out (view None) scene_ab).2) _ Hd)
    as (Hcount & _ & _ & _ & Hclear).
  eexists. split; [exact Hd|]. split.
  - apply Hcount. reflexivity.
  - eapply Hclear.
    + simpl. reflexivity.
    + assert (children_ (laid_out (view None) scene_ab).2 = [0; 1]%nat) as ->
        by (vm_compute; reflexivity).
      apply elem_of_cons. right. apply elem_of_cons. left. reflexivity.
    + discriminate.
Defined.

(** ** The image hit test *)

(** The hit test as the specification words it does not hold.  For an
    image whose pixels cannot be read back, a point within the bounds is in
    the element although no pixel of opacity greater than zero is found
    under it. *)
Lemma unreadable_pixel_is_in :
  ImgElement_IsPointIn in_bounds stretch_middle img_element
    (img_impl blind_image) 50%Q 50%Q = true
  /\ forall x y : Q, GetPointValue blind_image x y = None.
Proof. split; [vm_compute; reflexivity | reflexivity]. Qed.

Lemma ImgElement_IsPointIn_opacity_witness :
  ImgElement_IsPointIn in_bounds stretch_middle img_element
    (img_impl clear_image) 50%Q 50%Q = false.
Proof.
  apply (proj2 (ImgElement_IsPointIn_opacity in_bounds stretch_middle
                  img_element (img_impl clear_image) 50%Q 50%Q)
           clear_image 0%Q); reflexivity.
Defined.

(** * Properties of the other string utilities *)

Module StringUtilsMoreFacts.
Import StringUtils StringSpec StringUtilsFacts StringUtilsMore StringMoreSpec.

(** A property of characters holds of all of them when it holds of each
    of the 256. *)
Ltac each_char c := destruct c as [[] [] [] [] [] [] [] []].

(** The two cases of a test for the terminator. *)
Ltac is_NUL c E :=
  destruct (Ascii.eqb c NUL) eqn:E;
  [apply Ascii.eqb_eq in E; try subst c | apply Ascii.eqb_neq in E].

Lemma tolower_toupper (c : ascii) : tolower (toupper c) = tolower c.
Proof. each_char c; reflexivity. Qed.

Lemma toupper_tolower (c : ascii) : toupper (tolower c) = toupper c.
Proof. each_char c; reflexivity. Qed.

Lemma tolower_idem (c : ascii) : tolower (tolower c) = tolower c.
Proof. each_char c; reflexivity. Qed.

Lemma toupper_idem (c : ascii) : toupper (toupper c) = toupper c.
Proof. each_char c; reflexivity. Qed.

Lemma toupper_keeps_NUL : keeps_NUL toupper.
Proof.
  intros c. split.
  - each_char c; vm_compute; congruence.
  - intros ->. reflexivity.
Qed.

Lemma char_val_inj (a b : ascii) : char_val a = char_val b -> a = b.
Proof.
  unfold char_val. intros E. apply byte_val_inj.
  assert (forall c, 0 <= byte_val c < 256) as Hr.
  { intros c. unfold byte_val. each_char c; vm_compute; split; congruence. }
  pose proof (Hr a). pose proof (Hr b).
  destruct (byte_val a <? 128) eqn:Ea, (byte_val b <? 128) eqn:Eb; lia.
Qed.

Lemma same_case_fold (a b : ascii) :
  toupper a = toupper b <-> tolower a = tolower b.
Proof.
  split; intros E.
  - rewrite <- (tolower_toupper a), <- (tolower_toupper b). now rewrite E.
  - rewrite <- (toupper_tolower a), <- (toupper_tolower b). now rewrite E.
Qed.

Lemma GadgetCharCmp_0 (cs : bool) (c1 c2 : ascii) :
  GadgetCharCmp cs c1 c2 = 0 <->
  if cs then c1 = c2 else tolower c1 = tolower c2.
Proof.
  unfold GadgetCharCmp. destruct cs.
  - split; [intros E; apply char_val_inj; lia | intros ->; lia].
  - rewrite <- same_case_fold.
    split; [intros E; apply char_val_inj; lia | intros ->; lia].
Qed.

(** The character comparison follows the policy of the string comparison:
    two characters compare equal exactly when the one-character strings
    they make do; in a case-sensitive build that is when they are the same
    character, and otherwise when they are the same after lower-casing. *)
Theorem GadgetCharCmp_follows_GadgetStrCmp (cs : bool) (c1 c2 : ascii) :
  (GadgetCharCmp cs c1 c2 = 0 <->
   GadgetStrCmp cs (String c1 EmptyString) (String c2 EmptyString) = 0)
  /\ (GadgetCharCmp cs c1 c2 = 0 <->
      if cs then c1 = c2 else tolower c1 = tolower c2).
Proof.
  split; [|apply GadgetCharCmp_0].
  rewrite GadgetCharCmp_0. unfold GadgetStrCmp, strcmp, strcasecmp.
  destruct cs.
  - rewrite str_compare_0_iff by apply id_keeps_NUL. simpl.
    is_NUL c1 E1; is_NUL c2 E2; simpl; split; congruence.
  - rewrite str_compare_0_iff by apply tolower_keeps_NUL. simpl.
    is_NUL c1 E1; is_NUL c2 E2; simpl; split; try congruence.
    + intros E. exfalso. apply E2. apply tolower_keeps_NUL. now rewrite <- E.
    + intros E. exfalso. apply E1. apply tolower_keeps_NUL. now rewrite E.
Qed.


(** ** [GadgetStrNCmp] *)

Lemma bytes_c_str (s : string) :
  bytes (c_str s) =
  if Ascii.eqb (head_byte s) NUL then []
  else head_byte s :: bytes (c_str (tail s)).
Proof.
  destruct s as [|c r]; simpl; [reflexivity|].
  destruct (Ascii.eqb c NUL); reflexivity.
Qed.



Lemma strn_compare_0_iff (fold : ascii -> ascii) (n : nat) :
  keeps_NUL fold ->
  forall s1 s2 : string,
    strn_compare fold s1 s2 n = 0 <->
    fold <$> take n (bytes (c_str s1)) = fold <$> take n (bytes (c_str s2)).
Proof.
  intros Hf. induction n as [|n IH]; intros s1 s2; simpl.
  - tauto.
  - rewrite (bytes_c_str s1), (bytes_c_str s2).
    is_NUL (head_byte s1) E1; simpl.
    + rewrite E1. is_NUL (head_byte s2) E2; simpl.
      * rewrite E2. split; [reflexivity | lia].
      * split; [|discriminate]. intros E. exfalso. apply E2. apply Hf.
        assert (fold NUL = fold (head_byte s2)) as <-
          by (apply byte_val_inj; lia).
        now apply Hf.
    + destruct (Ascii.eqb (fold (head_byte s1)) (fold (head_byte s2))) eqn:E3;
        simpl.
      * apply Ascii.eqb_eq in E3.
        assert (head_byte s2 <> NUL) as E2.
        { intros E. apply E1. apply Hf. rewrite E3, E. now apply Hf. }
        apply Ascii.eqb_neq in E2. rewrite E2. simpl. rewrite IH, E3.
        split; [intros E; f_equal; exact E | intros [= E]; exact E].
      * apply Ascii.eqb_neq in E3. split.
        -- intros E. exfalso. apply E3. apply byte_val_inj. lia.
        -- intros E. exfalso. apply E3.
           destruct (Ascii.eqb (head_byte s2) NUL); simpl in E;
             [discriminate | congruence].
Qed.



(** ** [AssignIfDiffer] *)

Lemma c_str_idem (s : string) : c_str (c_str s) = c_str s.
Proof.
  induction s as [|c r IH]; simpl; [reflexivity|].
  is_NUL c E; simpl; [reflexivity|].
  apply Ascii.eqb_neq in E. rewrite E. now rewrite IH.
Qed.

Lemma str_compare_c_str (fold : ascii -> ascii) (s : string) :
  keeps_NUL fold -> str_compare fold s (c_str s) = 0.
Proof.
  intros Hf. apply str_compare_0_iff; [exact Hf|]. now rewrite c_str_idem.
Qed.

(** [AssignIfDiffer], for a comparator that finds a C string equal to
    itself: it reports a change exactly when it has changed [*dest]; after
    it, [*dest] compares equal to a source that is not empty and is empty
    for a null or empty source; and a second call with the same source
    changes nothing and reports no change. *)
Theorem AssignIfDiffer_settles (comparator : string -> string -> Z)
    (source : option string) (dest : string) :
  (forall s, comparator s (c_str s) = 0) ->
  let r := AssignIfDiffer source dest comparator in
  (r.1 = true <-> r.2 <> dest)
  /\ match source with
     | Some s =>
         if Ascii.eqb (head_byte s) NUL then r.2 = EmptyString
         else comparator s (c_str r.2) = 0
     | None => r.2 = EmptyString
     end
  /\ AssignIfDiffer source r.2 comparator = (false, r.2).
Proof.
  intros Hrefl. cbv zeta. unfold AssignIfDiffer.
  assert (Hclear :
    let r := if negb (empty dest) then (true, EmptyString) else (false, dest) in
    (r.1 = true <-> r.2 <> dest) /\ r.2 = EmptyString
    /\ (if negb (empty r.2) then (true, EmptyString) else (false, r.2))
       = (false, r.2)).
  { destruct dest; simpl; repeat split; try congruence; discriminate. }
  destruct source as [s|]; [|cbv zeta in Hclear; tauto].
  is_NUL (head_byte s) E; simpl; [cbv zeta in Hclear; tauto|].
  destruct (comparator s (c_str dest) =? 0) eqn:Ec; simpl.
  - apply Z.eqb_eq in Ec. rewrite Ec. simpl.
    split; [split; [discriminate | congruence]|]. split; reflexivity.
  - apply Z.eqb_neq in Ec. rewrite c_str_idem, Hrefl. simpl.
    split; [|split; reflexivity].
    split; [|reflexivity]. intros _ E'. apply Ec. rewrite <- E'.
    rewrite c_str_idem. apply Hrefl.
Qed.


(** ** [TrimString] *)

Lemma bytes_substring (s : string) :
  forall n m : nat, bytes (substring n m s) = take m (drop n (bytes s)).
Proof.
  induction s as [|c r IH]; intros [|n] [|m]; simpl; try reflexivity.
  - now rewrite (IH O m).
  - apply (IH n O).
  - apply (IH n (S m)).
Qed.

Lemma bytes_inj (s t : string) : bytes s = bytes t -> s = t.
Proof.
  unfold bytes. intros E.
  rewrite <- (string_of_list_ascii_of_string s),
          <- (string_of_list_ascii_of_string t).
  now rewrite E.
Qed.

Lemma bytes_length (s : string) : length (bytes s) = String.length s.
Proof. induction s as [|c r IH]; simpl; [reflexivity | now rewrite IH]. Qed.

Lemma find_first_not_of_None (chars s : string) :
  find_first_not_of chars s = None ->
  Forall (fun c => contains chars c = true) (bytes s).
Proof.
  induction s as [|c r IH]; simpl; [constructor|].
  destruct (contains chars c) eqn:Ec; [|discriminate].
  destruct (find_first_not_of chars r); [discriminate|].
  intros _. constructor; auto.
Qed.

Lemma find_first_not_of_Some (chars s : string) :
  forall k : nat,
    find_first_not_of chars s = Some k ->
    Forall (fun c => contains chars c = true) (take k (bytes s))
    /\ exists c, bytes s !! k = Some c /\ contains chars c = false.
Proof.
  induction s as [|c r IH]; intros k; simpl; [discriminate|].
  destruct (contains chars c) eqn:Ec.
  - destruct (find_first_not_of chars r) as [j|]; [|discriminate].
    intros [= <-]. destruct (IH j eq_refl) as [Hall Hk].
    split; [constructor; auto | exact Hk].
  - intros [= <-]. split; [constructor | eauto].
Qed.

Lemma find_last_not_of_None (chars s : string) :
  find_last_not_of chars s = None ->
  Forall (fun c => contains chars c = true) (bytes s).
Proof.
  induction s as [|c r IH]; simpl; [constructor|].
  destruct (find_last_not_of chars r); [discriminate|].
  destruct (contains chars c) eqn:Ec; [|discriminate].
  intros _. constructor; auto.
Qed.

Lemma find_last_not_of_Some (chars s : string) :
  forall e : nat,
    find_last_not_of chars s = Some e ->
    Forall (fun c => contains chars c = true) (drop (S e) (bytes s))
    /\ exists c, bytes s !! e = Some c /\ contains chars c = false.
Proof.
  induction s as [|c r IH]; intros e; simpl; [discriminate|].
  destruct (find_last_not_of chars r) as [j|] eqn:Ej.
  - intros [= <-]. apply (IH j eq_refl).
  - destruct (contains chars c) eqn:Ec; [discriminate|].
    intros [= <-]. split; [|eauto].
    simpl. rewrite drop_0. now apply find_last_not_of_None.
Qed.

Lemma find_last_not_of_end (chars s : string) (c0 : ascii) :
  last (bytes s) = Some c0 -> contains chars c0 = false ->
  find_last_not_of chars s = Some (String.length s - 1)%nat.
Proof.
  induction s as [|c r IH]; simpl; [discriminate|].
  destruct r as [|c' r'].
  - simpl. intros [= ->] ->. reflexivity.
  - intros Hl Hc. rewrite IH by auto. simpl. f_equal. lia.
Qed.

Lemma substring_whole (s : string) : substring 0 (String.length s) s = s.
Proof. induction s as [|c r IH]; simpl; [reflexivity | now rewrite IH]. Qed.

(** The string [TrimString] gives, between what it removed. *)
Lemma TrimString_parts (s : string) :
  exists l r : list ascii,
    bytes s = l ++ bytes (TrimString s) ++ r
    /\ Forall (fun c => trim_char c = true) l
    /\ Forall (fun c => trim_char c = true) r
    /\ (forall c, head (bytes (TrimString s)) = Some c -> trim_char c = false)
    /\ (forall c, last (bytes (TrimString s)) = Some c -> trim_char c = false).
Proof.
  unfold TrimString, trim_char.
  destruct (find_first_not_of kTrimChars s) as [k|] eqn:Ek.
  - destruct (find_first_not_of_Some _ _ _ Ek) as (Hl & ck & Hck & Hk).
    destruct (find_last_not_of kTrimChars s) as [e|] eqn:Ee.
    + destruct (find_last_not_of_Some _ _ _ Ee) as (Hr & ce & Hce & He).
      assert (k <= e)%nat as Hke.
      { destruct (decide (k <= e)%nat) as [|Hn]; [assumption|]. exfalso.
        assert (take k (bytes s) !! e = Some ce) as Hin
          by (rewrite lookup_take_lt by lia; exact Hce).
        rewrite Forall_lookup in Hl. specialize (Hl _ _ Hin). congruence. }
      exists (take k (bytes s)), (drop (S e) (bytes s)).
      rewrite bytes_substring.
      assert (e < length (bytes s))%nat as Hlen
        by (apply lookup_lt_is_Some; eauto).
      split; [|split; [exact Hl|split; [exact Hr|split]]].
      * rewrite <- (take_drop k (bytes s)) at 1. f_equal.
        rewrite <- (take_drop (e - k + 1) (drop k (bytes s))) at 1. f_equal.
        rewrite drop_drop. f_equal. lia.
      * intros c Hc. rewrite head_lookup in Hc.
        rewrite lookup_take_lt in Hc by lia.
        rewrite lookup_drop, Nat.add_0_r in Hc. congruence.
      * intros c Hc. rewrite last_lookup in Hc.
        rewrite length_take, length_drop in Hc.
        rewrite lookup_take_lt in Hc by lia.
        rewrite lookup_drop in Hc.
        match type of Hc with
        | _ !! ?i = _ => replace i with e in Hc by lia
        end.
        congruence.
    + exfalso. apply find_last_not_of_None in Ee.
      rewrite Forall_lookup in Ee. specialize (Ee _ _ Hck). congruence.
  - exists (bytes s), []. change (bytes EmptyString) with (@nil ascii).
    rewrite !app_nil_r.
    split; [reflexivity|]. split; [now apply find_first_not_of_None|].
    split; [constructor|]. split; intros c Hc; discriminate.
Qed.

(** A string that neither begins nor ends with a character [TrimString]
    removes is given back as it is. *)
Lemma TrimString_tidy (t : string) :
  (forall c, head (bytes t) = Some c -> trim_char c = false) ->
  (forall c, last (bytes t) = Some c -> trim_char c = false) ->
  TrimString t = t.
Proof.
  intros Hh Hl. unfold TrimString. destruct t as [|c r]; [reflexivity|].
  cbn [find_first_not_of].
  unfold trim_char in Hh. rewrite (Hh c eq_refl).
  destruct (last (bytes (String c r))) as [c0|] eqn:El.
  - rewrite (find_last_not_of_end _ _ c0 El (Hl c0 eq_refl)).
    replace (String.length (String c r) - 1 - 0 + 1)%nat
      with (String.length (String c r)) by (simpl; lia).
    apply substring_whole.
  - apply last_None in El. discriminate.
Qed.

(** [TrimString] gives the string without the spaces, tabs, carriage
    returns and line feeds at its two ends: the string is what was removed
    at the front, the result, and what was removed at the back; all that
    was removed is such characters; and the result neither begins nor ends
    with one. *)
Theorem TrimString_removes_both_ends (s : string) :
  exists l r : list ascii,
    bytes s = l ++ bytes (TrimString s) ++ r
    /\ Forall (fun c => c ∈ bytes kTrimChars) l
    /\ Forall (fun c => c ∈ bytes kTrimChars) r
    /\ (forall c, head (bytes (TrimString s)) = Some c -> c ∉ bytes kTrimChars)
    /\ (forall c, last (bytes (TrimString s)) = Some c -> c ∉ bytes kTrimChars).
Proof.
  assert (Hin : forall c, trim_char c = true <-> c ∈ bytes kTrimChars).
  { intros c. unfold trim_char, kTrimChars. simpl.
    rewrite orb_false_r, !orb_true_iff, !Ascii.eqb_eq.
    rewrite !elem_of_cons, elem_of_nil. tauto. }
  destruct (TrimString_parts s) as (l & r & E & Hl & Hr & Hh & Ht).
  exists l, r. split; [exact E|].
  split; [eapply Forall_impl; [exact Hl | intros c; apply Hin]|].
  split; [eapply Forall_impl; [exact Hr | intros c; apply Hin]|].
  split; intros c Hc Hm; apply Hin in Hm.
  - rewrite (Hh c Hc) in Hm. discriminate.
  - rewrite (Ht c Hc) in Hm. discriminate.
Qed.

(** [TrimString] leaves alone what it has trimmed: trimming twice gives
    what trimming once gives, and a string is given back unchanged exactly
    when it neither begins nor ends with a character to remove. *)
Theorem TrimString_idempotent (s : string) :
  TrimString (TrimString s) = TrimString s
  /\ (TrimString s = s <->
      (forall c, head (bytes s) = Some c -> trim_char c = false)
      /\ (forall c, last (bytes s) = Some c -> trim_char c = false)).
Proof.
  destruct (TrimString_parts s) as (l & r & E & Hl & Hr & Hh & Ht).
  split; [now apply TrimString_tidy|]. split.
  - intros Es. rewrite Es in Hh, Ht. auto.
  - intros [H1 H2]. now apply TrimString_tidy.
Qed.


(** ** [ToLower] and [ToUpper] *)

Lemma transform_transform (f g : ascii -> ascii) (s : string) :
  transform f (transform g s) = transform (fun c => f (g c)) s.
Proof. induction s as [|c r IH]; simpl; [reflexivity | now rewrite IH]. Qed.

Lemma transform_ext (f g : ascii -> ascii) (s : string) :
  (forall c, f c = g c) -> transform f s = transform g s.
Proof.
  intros E. induction s as [|c r IH]; simpl; [reflexivity|].
  now rewrite E, IH.
Qed.

Lemma transform_length (f : ascii -> ascii) (s : string) :
  String.length (transform f s) = String.length s.
Proof. induction s as [|c r IH]; simpl; [reflexivity | now rewrite IH]. Qed.

Lemma c_str_transform (f : ascii -> ascii) (s : string) :
  keeps_NUL f -> c_str (transform f s) = transform f (c_str s).
Proof.
  intros Hf. induction s as [|c r IH]; simpl; [reflexivity|].
  is_NUL c E.
  - replace (f NUL) with NUL by (symmetry; now apply Hf). reflexivity.
  - assert (f c <> NUL) as E' by (intros E'; apply E; now apply Hf).
    apply Ascii.eqb_neq in E'. rewrite E'. simpl. now rewrite IH.
Qed.

Lemma map_string_transform (f g : ascii -> ascii) (s : string) :
  map_string f (transform g s) = map_string (fun c => f (g c)) s.
Proof. induction s as [|c r IH]; simpl; [reflexivity | now rewrite IH]. Qed.

Lemma map_string_ext (f g : ascii -> ascii) (s : string) :
  (forall c, f c = g c) -> map_string f s = map_string g s.
Proof.
  intros E. induction s as [|c r IH]; simpl; [reflexivity|].
  now rewrite E, IH.
Qed.

(** Case folding keeps the length of a string; folding twice is folding
    once; and the later of two foldings decides the case. *)
Theorem ToLower_ToUpper_fold (s : string) :
  String.length (ToLower s) = String.length s
  /\ String.length (ToUpper s) = String.length s
  /\ ToLower (ToLower s) = ToLower s
  /\ ToUpper (ToUpper s) = ToUpper s
  /\ ToLower (ToUpper s) = ToLower s
  /\ ToUpper (ToLower s) = ToUpper s.
Proof.
  unfold ToLower, ToUpper. rewrite !transform_length, !transform_transform.
  repeat split; apply transform_ext; intros c.
  - apply tolower_idem.
  - apply toupper_idem.
  - apply tolower_toupper.
  - apply toupper_tolower.
Qed.

(** A string and its lower-case and upper-case forms compare equal under
    the comparison that ignores case; under the case-sensitive comparison
    the lower-case form compares equal to the string only when the two
    agree up to the terminator. *)
Theorem GadgetStrCmp_ignores_ToLower_ToUpper (s : string) :
  GadgetStrCmp false (ToLower s) s = 0
  /\ GadgetStrCmp false (ToUpper s) s = 0
  /\ GadgetStrCmp false (ToLower s) (ToUpper s) = 0
  /\ (GadgetStrCmp true (ToLower s) s = 0 <-> c_str (ToLower s) = c_str s).
Proof.
  unfold GadgetStrCmp, strcmp, strcasecmp, ToLower, ToUpper.
  rewrite !str_compare_0_iff
    by first [apply tolower_keeps_NUL | apply id_keeps_NUL].
  rewrite !c_str_transform
    by first [apply tolower_keeps_NUL | apply toupper_keeps_NUL].
  rewrite !map_string_transform.
  split; [apply map_string_ext, tolower_idem|].
  split; [apply map_string_ext, tolower_toupper|].
  split; [apply map_string_ext; intros c;
          now rewrite tolower_idem, tolower_toupper|].
  assert (forall f t, map_string f t = transform f t) as Hmap.
  { intros f t. induction t as [|c r IH]; simpl; [reflexivity | now rewrite IH]. }
  assert (forall t, transform (fun c => c) t = t) as Hid.
  { induction t as [|c r IH]; simpl; [reflexivity | now rewrite IH]. }
  rewrite !Hmap, Hid. tauto.
Qed.


(** ** [EncodeURL] and [IsValidRSSURL] *)

Lemma kHexChars_valid (c : ascii) :
  IsValidURLChar (kHexChars (N.shiftr (N_of_ascii c) 4)) = true
  /\ IsValidURLChar (kHexChars (N.land (N_of_ascii c) 15)) = true.
Proof. each_char c; split; reflexivity. Qed.

Lemma EncodeURL_valid (s : string) :
  Forall (fun c => IsValidURLChar c = true) (bytes (EncodeURL s)).
Proof.
  induction s as [|c r IH]; simpl; [constructor|].
  destruct (Ascii.eqb c kBackSlash); [constructor; [reflexivity | exact IH]|].
  destruct (IsValidURLChar c) eqn:Ev; simpl.
  - constructor; assumption.
  - destruct (kHexChars_valid c) as [Hh Hl].
    repeat (constructor; [first [reflexivity | assumption]|]). exact IH.
Qed.

Lemma EncodeURL_keeps_valid (s : string) :
  Forall (fun c => IsValidURLChar c = true) (bytes s) -> EncodeURL s = s.
Proof.
  induction s as [|c r IH]; simpl; [reflexivity|].
  intros Hall. inversion Hall as [|? ? Hc Hr]; subst.
  destruct (Ascii.eqb c kBackSlash) eqn:Eb.
  - apply Ascii.eqb_eq in Eb. subst c. discriminate.
  - rewrite Hc. simpl. now rewrite IH.
Qed.

(** [EncodeURL] gives a string of valid URL characters only, at least as
    long as the source and at most three times as long. *)
Theorem EncodeURL_output_valid (s : string) :
  Forall (fun c => IsValidURLChar c = true) (bytes (EncodeURL s))
  /\ (String.length s <= String.length (EncodeURL s) <= 3 * String.length s)%nat.
Proof.
  split; [apply EncodeURL_valid|].
  induction s as [|c r IH]; simpl; [lia|].
  destruct (Ascii.eqb c kBackSlash); simpl; [lia|].
  destruct (IsValidURLChar c); simpl; lia.
Qed.

(** [EncodeURL] gives back unchanged exactly the strings that hold valid
    URL characters only, so encoding twice is encoding once. *)
Theorem EncodeURL_fixed_points (s : string) :
  (EncodeURL s = s <-> Forall (fun c => IsValidURLChar c = true) (bytes s))
  /\ EncodeURL (EncodeURL s) = EncodeURL s.
Proof.
  split; [split|].
  - intros E. rewrite <- E. apply EncodeURL_valid.
  - apply EncodeURL_keeps_valid.
  - apply EncodeURL_keeps_valid, EncodeURL_valid.
Qed.

Lemma all_valid_url_chars_c_str (u : string) :
  all_valid_url_chars u = true ->
  Forall (fun c => IsValidURLChar c = true) (bytes (c_str u)).
Proof.
  induction u as [|c r IH]; simpl; [constructor|].
  is_NUL c E; [constructor|].
  intros Hv. apply andb_true_iff in Hv as [Hc Hr].
  constructor; auto.
Qed.

(** [IsValidRSSURL] refuses a null pointer; a URL it accepts begins with
    one of the three prefixes, case ignored, and needs no encoding:
    [EncodeURL] gives it back unchanged. *)
Theorem IsValidRSSURL_accepts (kHttpUrlPrefix kHttpsUrlPrefix kFeedUrlPrefix
    : string) :
  IsValidRSSURL kHttpUrlPrefix kHttpsUrlPrefix kFeedUrlPrefix None = false
  /\ forall u : string,
      IsValidRSSURL kHttpUrlPrefix kHttpsUrlPrefix kFeedUrlPrefix (Some u)
      = true ->
      EncodeURL (c_str u) = c_str u
      /\ exists p : string,
          p ∈ [kHttpUrlPrefix; kHttpsUrlPrefix; kFeedUrlPrefix]
          /\ tolower <$> take (String.length p) (bytes (c_str u)) =
             tolower <$> take (String.length p) (bytes (c_str p)).
Proof.
  split; [reflexivity|]. intros u. unfold IsValidRSSURL.
  destruct (strncasecmp u kHttpUrlPrefix _ =? 0) eqn:E1;
    [|destruct (strncasecmp u kHttpsUrlPrefix _ =? 0) eqn:E2;
      [|destruct (strncasecmp u kFeedUrlPrefix _ =? 0) eqn:E3]];
    simpl; try discriminate; intros Hv;
    (split; [apply EncodeURL_keeps_valid, all_valid_url_chars_c_str, Hv|]).
  - exists kHttpUrlPrefix. split; [rewrite !elem_of_cons; auto|].
    apply Z.eqb_eq in E1.
    now apply (strn_compare_0_iff tolower _ tolower_keeps_NUL) in E1.
  - exists kHttpsUrlPrefix.
    split; [rewrite !elem_of_cons; auto|].
    apply Z.eqb_eq in E2.
    now apply (strn_compare_0_iff tolower _ tolower_keeps_NUL) in E2.
  - exists kFeedUrlPrefix.
    split; [rewrite !elem_of_cons; auto|].
    apply Z.eqb_eq in E3.
    now apply (strn_compare_0_iff tolower _ tolower_keeps_NUL) in E3.
Qed.


(** ** [EncodeJavaScriptString] *)

Lemma append_String (c : ascii) (s t : string) :
  append (String c s) t = String c (append s t).
Proof. reflexivity. Qed.

Lemma append_EmptyString (t : string) : append EmptyString t = t.
Proof. reflexivity. Qed.

Lemma bytes_append (s t : string) : bytes (append s t) = bytes s ++ bytes t.
Proof.
  induction s as [|c r IH]; [reflexivity|].
  rewrite append_String. simpl. now rewrite IH.
Qed.

Lemma hex_digit_upper_printable (i : N) : printable (hex_digit_upper i).
Proof.
  unfold printable, hex_digit_upper.
  pose proof (N.mod_lt i 16 ltac:(lia)) as Hd.
  generalize dependent (i mod 16)%N. intros d Hd.
  destruct (d <? 10)%N; rewrite N_ascii_embedding; lia.
Qed.

Lemma hex_digit_upper_inj (a b : N) :
  hex_digit_upper a = hex_digit_upper b -> (a mod 16 = b mod 16)%N.
Proof.
  unfold hex_digit_upper.
  pose proof (N.mod_lt a 16 ltac:(lia)) as Ha.
  pose proof (N.mod_lt b 16 ltac:(lia)) as Hb.
  generalize dependent (a mod 16)%N. intros da Ha.
  generalize dependent (b mod 16)%N. intros db Hb.
  destruct (da <? 10)%N eqn:Ea, (db <? 10)%N eqn:Eb;
    intros E; apply (f_equal N_of_ascii) in E;
    rewrite !N_ascii_embedding in E by lia;
    try apply N.ltb_lt in Ea; try apply N.ltb_ge in Ea;
    try apply N.ltb_lt in Eb; try apply N.ltb_ge in Eb; lia.
Qed.

(** A code unit is its four hexadecimal digits. *)
Lemma four_hex_digits (c : N) :
  (c < 65536)%N ->
  c = (4096 * ((c / 4096) mod 16) + 256 * ((c / 256) mod 16)
       + 16 * ((c / 16) mod 16) + c mod 16)%N.
Proof.
  intros Hc.
  assert (c / 16 / 16 = c / 256)%N as Q1
    by (rewrite N.Div0.div_div; reflexivity).
  assert (c / 256 / 16 = c / 4096)%N as Q2
    by (rewrite N.Div0.div_div; reflexivity).
  pose proof (N.div_mod' c 16) as A0.
  pose proof (N.div_mod' (c / 16) 16) as A1. rewrite Q1 in A1.
  pose proof (N.div_mod' (c / 256) 16) as A2. rewrite Q2 in A2.
  assert (c / 4096 < 16)%N as A3 by (apply N.Div0.div_lt_upper_bound; lia).
  clear Q1 Q2.
  rewrite (N.mod_small (c / 4096) 16) by exact A3.
  generalize dependent (c mod 16)%N. intros d0.
  generalize dependent ((c / 16) mod 16)%N. intros d1.
  generalize dependent ((c / 256) mod 16)%N. intros d2.
  generalize dependent (c / 4096)%N. intros d3.
  generalize dependent (c / 256)%N. intros q2.
  generalize dependent (c / 16)%N. intros q1.
  lia.
Qed.

Lemma u_escape_inj (c1 c2 : UTF16Char) :
  (c1 < 65536)%N -> (c2 < 65536)%N -> u_escape c1 = u_escape c2 -> c1 = c2.
Proof.
  intros H1 H2 E. unfold u_escape in E.
  injection E as E3 E2 E1 E0.
  apply hex_digit_upper_inj in E3, E2, E1, E0.
  rewrite (four_hex_digits c1 H1), (four_hex_digits c2 H2).
  now rewrite E3, E2, E1, E0.
Qed.

Lemma encode_js_char_printable (c : UTF16Char) :
  Forall printable (bytes (encode_js_char c)).
Proof.
  unfold encode_js_char, u_escape.
  repeat match goal with
         | |- context [if ?b then _ else _] => destruct b eqn:?
         end;
    repeat first [ apply List.Forall_nil
                 | apply List.Forall_cons ];
    try apply hex_digit_upper_printable;
    try (unfold printable; simpl; lia).
  unfold printable. apply orb_false_iff in Heqb3 as [Hhi Hlo].
  apply N.leb_gt in Hhi. apply N.ltb_ge in Hlo.
  rewrite N_ascii_embedding; lia.
Qed.

(** The escapes form a prefix code: what follows the escape of one code
    unit is read back without doubt. *)
Lemma encode_js_char_prefix_free (c1 c2 : UTF16Char) (t1 t2 : string) :
  (c1 < 65536)%N -> (c2 < 65536)%N ->
  append (encode_js_char c1) t1 = append (encode_js_char c2) t2 ->
  c1 = c2 /\ t1 = t2.
Proof.
  intros H1 H2.
  assert (Hplain : forall c : N,
             (127 <=? c)%N || (c <? 32)%N = false ->
             N_of_ascii (ascii_of_N c) = c).
  { intros c Hc. apply orb_false_iff in Hc as [Hhi Hlo].
    apply N.leb_gt in Hhi. apply N_ascii_embedding. lia. }
  unfold encode_js_char.
  destruct (N.eqb_spec c1 34) as [->|N1]; [|
  destruct (N.eqb_spec c1 92) as [->|N2]; [|
  destruct (N.eqb_spec c1 10) as [->|N3]; [|
  destruct (N.eqb_spec c1 13) as [->|N4]; [|
  destruct ((127 <=? c1)%N || (c1 <? 32)%N) eqn:N5]]]];
  (destruct (N.eqb_spec c2 34) as [->|M1]; [|
   destruct (N.eqb_spec c2 92) as [->|M2]; [|
   destruct (N.eqb_spec c2 10) as [->|M3]; [|
   destruct (N.eqb_spec c2 13) as [->|M4]; [|
   destruct ((127 <=? c2)%N || (c2 <? 32)%N) eqn:M5]]]]);
  unfold u_escape; rewrite ?append_String, ?append_EmptyString; intros E;
  try discriminate E;
  try (injection E as E; split; [reflexivity | exact E]);
  try (injection E as E0 E; apply (f_equal N_of_ascii) in E0;
       rewrite ?Hplain in E0 by assumption; vm_compute in E0;
       first [ congruence | split; [congruence | exact E] ]).
  injection E as E3 E2 E1 E0 E. split; [|exact E].
  apply u_escape_inj; [assumption..|]. unfold u_escape. congruence.
Qed.

Lemma encode_js_char_not_empty (c : UTF16Char) (t : string) :
  append (encode_js_char c) t <> EmptyString.
Proof.
  unfold encode_js_char, u_escape.
  repeat match goal with
         | |- context [if ?b then _ else _] => destruct b
         end; rewrite append_String; discriminate.
Qed.

(** [EncodeJavaScriptString] gives printable US-ASCII only, whatever the
    source holds. *)
Theorem EncodeJavaScriptString_printable (source : list UTF16Char) :
  Forall (fun c => (32 <= N_of_ascii c <= 126)%N)
         (bytes (EncodeJavaScriptString source)).
Proof.
  induction source as [|c r IH]; simpl; [constructor|].
  destruct (c =? 0)%N; [constructor|].
  rewrite bytes_append. apply Forall_app. split; [|exact IH].
  apply encode_js_char_printable.
Qed.

(** [EncodeJavaScriptString] loses nothing: two sources of 16-bit code
    units with the same encoding hold the same code units up to their
    terminators. *)
Theorem EncodeJavaScriptString_injective (source1 source2 : list UTF16Char) :
  Forall (fun c => (c < 65536)%N) source1 ->
  Forall (fun c => (c < 65536)%N) source2 ->
  EncodeJavaScriptString source1 = EncodeJavaScriptString source2 ->
  until_zero source1 = until_zero source2.
Proof.
  revert source2. induction source1 as [|c1 r1 IH]; intros source2 H1 H2.
  - simpl. destruct source2 as [|c2 r2]; simpl; [reflexivity|].
    destruct (c2 =? 0)%N; [reflexivity|].
    intros E. symmetry in E. now apply encode_js_char_not_empty in E.
  - simpl. destruct (c1 =? 0)%N.
    + destruct source2 as [|c2 r2]; simpl; [reflexivity|].
      destruct (c2 =? 0)%N; [reflexivity|].
      intros E. symmetry in E. now apply encode_js_char_not_empty in E.
    + destruct source2 as [|c2 r2]; simpl.
      * intros E. now apply encode_js_char_not_empty in E.
      * destruct (c2 =? 0)%N.
        -- intros E. now apply encode_js_char_not_empty in E.
        -- inversion H1; inversion H2; subst. intros E.
           apply encode_js_char_prefix_free in E as [-> E]; [|assumption..].
           f_equal. now apply IH.
Qed.


(** ** [SplitString] *)

Lemma prefix_append (sep s : string) :
  String.prefix sep s = true <-> exists r, s = append sep r.
Proof.
  revert s. induction sep as [|a sep IH]; intros s.
  - split; [intros _; exists s; reflexivity | now destruct s].
  - destruct s as [|b s]; simpl.
    + split; [discriminate | intros [r E]; discriminate E].
    + destruct (ascii_dec a b) as [->|Hne].
      * rewrite IH. split; intros [r E]; exists r.
        -- rewrite append_String. now rewrite E.
        -- rewrite append_String in E. now injection E.
      * split; [discriminate|]. intros [r E].
        rewrite append_String in E. congruence.
Qed.

Lemma length_append (s t : string) :
  String.length (append s t) = (String.length s + String.length t)%nat.
Proof.
  induction s as [|c r IH]; [reflexivity|].
  rewrite append_String. simpl. now rewrite IH.
Qed.

Lemma substr_from_append (s t : string) :
  substr_from (String.length s) (append s t) = t.
Proof.
  unfold substr_from. induction s as [|c r IH].
  - rewrite append_EmptyString. simpl. rewrite Nat.sub_0_r.
    apply substring_whole.
  - rewrite append_String. simpl. exact IH.
Qed.

Lemma find_unfold (source sep : string) :
  find source sep =
  if String.prefix sep source then Some O
  else match source with
       | EmptyString => None
       | String _ r => S <$> find r sep
       end.
Proof. destruct source; reflexivity. Qed.

Lemma find_Some (sep : string) (source : string) :
  forall k : nat,
    find source sep = Some k ->
    exists l r : string,
      source = append l (append sep r)
      /\ String.length l = k
      /\ substring 0 k source = l
      /\ substr_from (k + String.length sep) source = r.
Proof.
  assert (Hfront : forall s : string,
             String.prefix sep s = true ->
             exists l r : string,
               s = append l (append sep r)
               /\ String.length l = O
               /\ substring 0 0 s = l
               /\ substr_from (0 + String.length sep) s = r).
  { intros s Ep. apply prefix_append in Ep as [r E].
    exists EmptyString, r. rewrite append_EmptyString.
    split; [exact E|]. split; [reflexivity|].
    split; [now destruct s|]. rewrite E. apply substr_from_append. }
  induction source as [|c source IH]; intros k; rewrite find_unfold;
    destruct (String.prefix sep _) eqn:Ep;
    try (intros [= <-]; now apply Hfront); try discriminate.
  destruct (find source sep) as [j|]; [|discriminate].
  intros [= <-]. destruct (IH j eq_refl) as (l & r & E & Hl & Hs & Hr).
  exists (String c l), r. rewrite append_String.
  split; [now rewrite E|]. split; [simpl; now rewrite Hl|].
  split; [simpl; now rewrite Hs|]. exact Hr.
Qed.

Lemma find_first (sep : string) (source : string) :
  forall (k : nat) (l r : string),
    find source sep = Some k -> source = append l (append sep r) ->
    (k <= String.length l)%nat.
Proof.
  induction source as [|c source IH]; intros k l r; rewrite find_unfold;
    destruct (String.prefix sep _) eqn:Ep;
    try (intros [= <-] _; lia); try discriminate.
  destruct (find source sep) as [j|] eqn:Ej; [|discriminate].
  intros [= <-] E. destruct l as [|c' l].
  - rewrite append_EmptyString in E.
    assert (String.prefix sep (String c source) = true) as Ep'
      by (apply prefix_append; eauto).
    congruence.
  - rewrite append_String in E. injection E as -> E.
    simpl. apply le_n_S. now apply (IH j l r).
Qed.

Lemma find_None (sep : string) (source : string) :
  find source sep = None -> ~ occurs sep source.
Proof.
  induction source as [|c source IH]; rewrite find_unfold;
    destruct (String.prefix sep _) eqn:Ep; try discriminate.
  - intros _ (l & r & E). destruct l as [|c' l].
    + rewrite append_EmptyString in E.
      assert (String.prefix sep EmptyString = true) as Ep'
        by (apply prefix_append; eauto).
      congruence.
    + rewrite append_String in E. discriminate.
  - destruct (find source sep) as [j|]; [discriminate|].
    intros _ (l & r & E). destruct l as [|c' l].
    + rewrite append_EmptyString in E.
      assert (String.prefix sep (String c source) = true) as Ep'
        by (apply prefix_append; eauto).
      congruence.
    + rewrite append_String in E. injection E as -> E.
      apply IH; [reflexivity|]. exists l, r. exact E.
Qed.

(** [SplitString] splits at the first occurrence of the separator: when it
    returns true, the source is the left part, the separator and the right
    part, and the separator occurs nowhere earlier; when it returns false,
    the separator does not occur in the source, the left part is the whole
    source and the right part is empty.  An output behind a null pointer is
    left alone. *)
Theorem SplitString_first_occurrence (source separator : string)
    (result_left result_right : option string) :
  let '(found, new_left, new_right) :=
    SplitString source separator result_left result_right in
  (is_Some new_left <-> is_Some result_left)
  /\ (is_Some new_right <-> is_Some result_right)
  /\ (found = true <-> occurs separator source)
  /\ forall l r : string,
      new_left = Some l -> new_right = Some r ->
      if found
      then source = append l (append separator r)
           /\ forall l' r' : string,
               source = append l' (append separator r') ->
               (String.length l <= String.length l')%nat
      else l = source /\ r = EmptyString.
Proof.
  unfold SplitString. destruct (find source separator) as [k|] eqn:Ek.
  - destruct (find_Some _ _ _ Ek) as (l0 & r0 & E & Hl & Hs & Hr).
    split; [destruct result_left; split; intros [? ?]; eauto; discriminate|].
    split; [destruct result_right; split; intros [? ?]; eauto; discriminate|].
    split; [split; [intros _; exists l0, r0; exact E | reflexivity]|].
    intros l r El Er.
    destruct result_left; [|discriminate].
    destruct result_right; [|discriminate].
    injection El as <-. injection Er as <-. rewrite Hs, Hr.
    split; [exact E|]. intros l' r' E'. rewrite Hl.
    now apply (find_first separator source k l' r').
  - split; [destruct result_left; split; intros [? ?]; eauto; discriminate|].
    split; [destruct result_right; split; intros [? ?]; eauto; discriminate|].
    split; [split; [discriminate | intros Ho; now apply find_None in Ek]|].
    intros l r El Er.
    destruct result_left; [|discriminate].
    destruct result_right; [|discriminate].
    injection El as <-. injection Er as <-. split; reflexivity.
Qed.

Lemma find_single (c : ascii) (key value : string) :
  contains key c = false ->
  find (append key (String c value)) (String c EmptyString)
  = Some (String.length key).
Proof.
  induction key as [|k key IH]; intros Hc; rewrite find_unfold.
  - rewrite append_EmptyString. simpl.
    destruct (ascii_dec c c); [|congruence]. now destruct value.
  - rewrite append_String. simpl in Hc.
    apply orb_false_iff in Hc as [Hk Hc]. apply Ascii.eqb_neq in Hk.
    simpl String.prefix. destruct (ascii_dec c k); [congruence|].
    rewrite (IH Hc). reflexivity.
Qed.

Lemma substring_append_left (s t : string) :
  substring 0 (String.length s) (append s t) = s.
Proof.
  induction s as [|c r IH].
  - rewrite append_EmptyString. now destruct t.
  - rewrite append_String. simpl. now rewrite IH.
Qed.

(** A line made of a key that is free of the separator character, the
    separator and a value is split into the key and the value, whatever
    the value holds. *)
Theorem SplitString_key_value (c : ascii) (key value : string)
    (old_left old_right : string) :
  contains key c = false ->
  SplitString (append key (String c value)) (String c EmptyString)
    (Some old_left) (Some old_right)
  = (true, Some key, Some value).
Proof.
  intros Hc. unfold SplitString. rewrite (find_single c key value Hc).
  rewrite substring_append_left. do 3 f_equal.
  change (String.length (String c EmptyString)) with 1%nat.
  replace (String.length key + 1)%nat
    with (String.length (append key (String c EmptyString)))
    by (rewrite length_append; reflexivity).
  replace (append key (String c value))
    with (append (append key (String c EmptyString)) value).
  - apply substr_from_append.
  - clear Hc. induction key as [|k key IH]; [reflexivity|].
    rewrite !append_String. now rewrite IH.
Qed.


(** ** [CompressWhiteSpaces] *)

Lemma append_assoc (s t u : string) :
  append (append s t) u = append s (append t u).
Proof.
  induction s as [|c r IH]; [reflexivity|].
  rewrite !append_String. now rewrite IH.
Qed.

Lemma empty_append_char (s : string) (c : ascii) :
  empty (append s (String c EmptyString)) = false.
Proof. destruct s; reflexivity. Qed.

(** The loop appends to its result what [compress_tail] describes. *)
Lemma CompressWhiteSpaces_loop_tail (source : string) :
  forall (result : string) (in_space : bool),
    CompressWhiteSpaces_loop source result in_space =
    append result (compress_tail source in_space (negb (empty result))).
Proof.
  assert (Hnil : forall t, append t EmptyString = t).
  { induction t as [|c r IH]; [reflexivity|].
    rewrite append_String. now rewrite IH. }
  induction source as [|c r IH]; intros result in_space; simpl.
  - now rewrite Hnil.
  - is_NUL c E; [now rewrite Hnil|].
    destruct (isspace c); [apply IH|].
    rewrite IH, empty_append_char. simpl.
    destruct (in_space && negb (empty result));
      rewrite !append_assoc; reflexivity.
Qed.

Lemma isspace_NUL : isspace NUL = false.
Proof. reflexivity. Qed.

Lemma isspace_space : isspace " " = true.
Proof. reflexivity. Qed.

(** What [compress_tail] gives is spaced, and begins with a space only to
    part it from a result that is not empty. *)
Lemma compress_tail_spaced (source : string) :
  forall in_space nonempty : bool,
    spaced (bytes (compress_tail source in_space nonempty))
    /\ (forall c, head (bytes (compress_tail source in_space nonempty)) = Some c ->
        isspace c = true -> nonempty = true).
Proof.
  induction source as [|c r IH]; intros in_space nonempty; simpl.
  - split; [exact I | discriminate].
  - is_NUL c E; [split; [exact I | discriminate]|].
    destruct (isspace c) eqn:Es; [apply IH|].
    destruct (IH false true) as [IH1 _].
    assert (spaced (c :: bytes (compress_tail r false true))) as Hc.
    { simpl. rewrite Es. auto. }
    destruct (in_space && nonempty) eqn:Eb.
    + apply andb_true_iff in Eb as [_ ->]. split; [|reflexivity].
      change (spaced (" "%char :: c :: bytes (compress_tail r false true))).
      cbn [spaced]. rewrite isspace_space. auto.
    + split; [exact Hc|]. simpl. intros c0 [= <-]. congruence.
Qed.

Lemma compress_tail_keeps_text (source : string) :
  forall in_space nonempty : bool,
    filter (fun c => isspace c = false)
           (bytes (compress_tail source in_space nonempty))
    = filter (fun c => isspace c = false) (bytes (c_str source)).
Proof.
  induction source as [|c r IH]; intros in_space nonempty; simpl;
    [reflexivity|].
  is_NUL c E; [reflexivity|].
  destruct (isspace c) eqn:Es.
  - simpl. rewrite filter_cons_False by congruence. apply IH.
  - assert (filter (fun c => isspace c = false)
              (bytes (String c (compress_tail r false true)))
            = filter (fun c => isspace c = false) (bytes (String c (c_str r))))
      as Hc.
    { simpl. rewrite !filter_cons_True by exact Es. now rewrite IH. }
    destruct (in_space && nonempty); [|exact Hc].
    change (bytes (String " " (String c (compress_tail r false true))))
      with (" "%char :: bytes (String c (compress_tail r false true))).
    rewrite filter_cons_False by (rewrite isspace_space; discriminate).
    exact Hc.
Qed.

(** A spaced text passes through [compress_tail] unchanged, but for the
    space that parts it from what came before. *)
Lemma compress_tail_of_spaced (t : string) :
  spaced (bytes t) ->
  compress_tail t false true = t
  /\ (forall c, head (bytes t) = Some c -> isspace c = false ->
      compress_tail t true true = String " " t).
Proof.
  induction t as [|c r IH]; [split; [reflexivity | discriminate]|].
  intros Hs. cbn [bytes list_ascii_of_string spaced] in Hs.
  fold (bytes r) in Hs. destruct Hs as [Hc Hr].
  destruct (IH Hr) as [IH1 IH2]. cbn [compress_tail].
  destruct (isspace c) eqn:Es.
  - destruct Hc as [-> Hnext]. cbn [Ascii.eqb Bool.eqb].
    destruct (bytes r) as [|c' l'] eqn:Er; [contradiction|].
    split; [|intros c0 [= <-]; congruence].
    rewrite (IH2 c' eq_refl Hnext). reflexivity.
  - apply Ascii.eqb_neq in Hc. rewrite Hc. rewrite IH1.
    split; [reflexivity | intros _ _ _; reflexivity].
Qed.

Lemma CompressWhiteSpaces_tail (s : string) :
  CompressWhiteSpaces s = compress_tail s false false.
Proof.
  unfold CompressWhiteSpaces. now rewrite CompressWhiteSpaces_loop_tail.
Qed.

(** In what [CompressWhiteSpaces] gives, white space is single spaces
    between other characters: the text neither begins nor ends with white
    space, every white-space character in it is a space, and after a space
    comes a character that is not white space. *)
Theorem CompressWhiteSpaces_single_spaces (source : string) :
  let out := bytes (CompressWhiteSpaces source) in
  (forall c, head out = Some c -> isspace c = false)
  /\ (forall c, last out = Some c -> isspace c = false)
  /\ (forall c, c ∈ out -> isspace c = true -> c = " "%char)
  /\ (forall i c, out !! i = Some c -> isspace c = true ->
      exists c', out !! S i = Some c' /\ isspace c' = false)
  /\ NUL ∉ out.
Proof.
  cbv zeta. rewrite CompressWhiteSpaces_tail.
  destruct (compress_tail_spaced source false false) as [Hs Hh].
  generalize dependent (bytes (compress_tail source false false)).
  intros out Hs Hh.
  assert (Hnext : forall i c, out !! i = Some c -> isspace c = true ->
                    c = " "%char
                    /\ exists c', out !! S i = Some c' /\ isspace c' = false).
  { clear Hh. induction out as [|c0 r IH]; intros i c Hi Hc; [discriminate|].
    cbn [spaced] in Hs. destruct Hs as [H0 Hr]. destruct i as [|i].
    - injection Hi as ->. rewrite Hc in H0. destruct H0 as [-> Hn].
      split; [reflexivity|]. destruct r as [|c' r']; [contradiction|]. eauto.
    - apply (IH Hr i c Hi Hc). }
  split; [|split; [|split; [|split]]].
  - intros c Hc. destruct (isspace c) eqn:Es; [|reflexivity].
    specialize (Hh c Hc Es). discriminate.
  - intros c Hc. destruct (isspace c) eqn:Es; [|reflexivity]. exfalso.
    rewrite last_lookup in Hc.
    destruct (Hnext _ _ Hc Es) as (_ & c' & Hc' & _).
    apply lookup_lt_Some in Hc'. destruct out; simpl in *; [discriminate|lia].
  - intros c Hc Es. apply list_elem_of_lookup in Hc as [i Hi].
    now destruct (Hnext i c Hi Es).
  - intros i c Hi Es. now destruct (Hnext i c Hi Es).
  - clear Hh Hnext. induction out as [|c0 r IH]; [apply not_elem_of_nil|].
    cbn [spaced] in Hs. destruct Hs as [H0 Hr]. specialize (IH Hr).
    intros Hin. apply elem_of_cons in Hin as [<-|Hin]; [|contradiction].
    rewrite isspace_NUL in H0. congruence.
Qed.

(** [CompressWhiteSpaces] removes white space only: the characters of the
    C string that are not white space are kept, in order. *)
Theorem CompressWhiteSpaces_keeps_text (source : string) :
  filter (fun c => isspace c = false) (bytes (CompressWhiteSpaces source))
  = filter (fun c => isspace c = false) (bytes (c_str source)).
Proof.
  rewrite CompressWhiteSpaces_tail. apply compress_tail_keeps_text.
Qed.

(** [CompressWhiteSpaces] leaves alone what it has compressed. *)
Theorem CompressWhiteSpaces_idempotent (source : string) :
  CompressWhiteSpaces (CompressWhiteSpaces source) = CompressWhiteSpaces source.
Proof.
  rewrite !CompressWhiteSpaces_tail.
  destruct (compress_tail_spaced source false false) as [Hs Hh].
  destruct (compress_tail source false false) as [|c r]; [reflexivity|].
  cbn [bytes list_ascii_of_string spaced] in Hs. fold (bytes r) in Hs.
  destruct Hs as [Hc Hr]. cbn [compress_tail].
  destruct (isspace c) eqn:Es; [specialize (Hh c eq_refl Es); discriminate|].
  apply Ascii.eqb_neq in Hc. rewrite Hc. simpl.
  now rewrite (proj1 (compress_tail_of_spaced r Hr)).
Qed.


(** ** [SimpleMatchXPath] *)

Lemma head_byte_c_str (s : string) :
  head_byte s <> NUL ->
  c_str s = String (head_byte s) (c_str (tail s)).
Proof.
  destruct s as [|c r]; simpl; [congruence|].
  intros Hc. apply Ascii.eqb_neq in Hc. now rewrite Hc.
Qed.

Lemma c_str_empty (s : string) : head_byte s = NUL -> c_str s = EmptyString.
Proof. destruct s as [|c r]; simpl; [reflexivity|]. now intros ->. Qed.

(** Without an index in the path, [SimpleMatchXPath] is the comparison of
    the two strings under the policy of [GadgetStrCmp]. *)
Lemma SimpleMatchXPath_plain (cs : bool) (pattern : string) :
  forall xpath : string,
    contains (c_str xpath) "[" = false ->
    SimpleMatchXPath cs xpath pattern = true <->
    map_string (if cs then fun c => c else tolower) (c_str xpath) =
    map_string (if cs then fun c => c else tolower) (c_str pattern).
Proof.
  set (fold := if cs then fun c => c else tolower).
  assert (Hf : keeps_NUL fold)
    by (destruct cs; [apply id_keeps_NUL | apply tolower_keeps_NUL]).
  assert (Hcmp : forall a b, GadgetCharCmp cs a b = 0 <-> fold a = fold b)
    by (intros a b; rewrite GadgetCharCmp_0; unfold fold; now destruct cs).
  assert (Hend : forall xpath p : string,
             head_byte p = NUL ->
             Ascii.eqb (head_byte xpath) NUL = true <->
             map_string fold (c_str xpath) = map_string fold (c_str p)).
  { intros xpath p Hp. rewrite (c_str_empty p Hp). rewrite Ascii.eqb_eq.
    split; [intros E; now rewrite (c_str_empty xpath E)|].
    destruct xpath as [|x r]; simpl; [reflexivity|].
    is_NUL x E; [reflexivity | discriminate]. }
  induction pattern as [|p pattern IH]; intros xpath Hb; cbn [SimpleMatchXPath].
  - now apply Hend.
  - is_NUL p Ep; [now apply Hend|].
    rewrite (head_byte_c_str (String p pattern)) by exact Ep.
    cbn [head_byte tail map_string].
    is_NUL (head_byte xpath) Ex.
    + rewrite (c_str_empty xpath Ex). simpl. split; discriminate.
    + rewrite (head_byte_c_str xpath Ex) in Hb |- *. cbn [map_string].
      cbn [contains] in Hb. apply orb_false_iff in Hb as [Hx Hb].
      destruct (GadgetCharCmp cs (head_byte xpath) p =? 0) eqn:Ec; simpl.
      * apply Z.eqb_eq, Hcmp in Ec.
        assert (Ascii.eqb (head_byte (tail xpath)) "[" = false) as Hnb.
        { is_NUL (head_byte (tail xpath)) Et; [now rewrite Et|].
          rewrite (head_byte_c_str _ Et) in Hb. cbn [contains] in Hb.
          apply orb_false_iff in Hb as [Hb _].
          rewrite Ascii.eqb_sym. exact Hb. }
        rewrite Hnb, (IH _ Hb), Ec.
        split; [intros E; now rewrite E | intros [= E]; exact E].
      * apply Z.eqb_neq in Ec. split; [discriminate|].
        intros [= E _]. exfalso. apply Ec, Hcmp, E.
Qed.

(** A path without an index matches a pattern exactly when the two compare
    equal under [GadgetStrCmp]. *)
Theorem SimpleMatchXPath_without_index (cs : bool) (xpath pattern : string) :
  contains (c_str xpath) "[" = false ->
  SimpleMatchXPath cs xpath pattern = true <->
  GadgetStrCmp cs xpath pattern = 0.
Proof.
  intros Hb. rewrite (SimpleMatchXPath_plain cs pattern xpath Hb).
  unfold GadgetStrCmp, strcmp, strcasecmp.
  destruct cs; rewrite str_compare_0_iff;
    first [tauto | apply id_keeps_NUL | apply tolower_keeps_NUL].
Qed.

Lemma skip_index_closed (idx b : string) :
  contains idx "]" = false -> contains idx NUL = false ->
  skip_index (append idx (String "]" b)) = b.
Proof.
  induction idx as [|c r IH]; intros H1 H2.
  - reflexivity.
  - rewrite append_String. cbn [contains] in H1, H2.
    apply orb_false_iff in H1 as [H1 H1'].
    apply orb_false_iff in H2 as [H2 H2'].
    cbn [skip_index]. rewrite (Ascii.eqb_sym c NUL), H2.
    rewrite (Ascii.eqb_sym c "]"), H1. now apply IH.
Qed.

(** An index after a path element is ignored: a path with [[idx]] put in
    after a character of it matches the patterns the path without the
    index matches. *)
Theorem SimpleMatchXPath_ignores_index (cs : bool) (a idx b pattern : string) :
  a <> EmptyString ->
  contains a "[" = false -> contains a NUL = false ->
  contains idx "]" = false -> contains idx NUL = false ->
  Ascii.eqb (head_byte b) "[" = false ->
  SimpleMatchXPath cs
    (append a (String "[" (append idx (String "]" b)))) pattern
  = SimpleMatchXPath cs (append a b) pattern.
Proof.
  intros Ha Hab Han Hi1 Hi2 Hb. revert pattern.
  induction a as [|x a IH]; [congruence|]. intros pattern.
  rewrite !append_String. cbn [contains] in Hab, Han.
  apply orb_false_iff in Hab as [Hx1 Hab].
  apply orb_false_iff in Han as [Hx2 Han].
  destruct pattern as [|p pattern]; [reflexivity|].
  cbn [SimpleMatchXPath head_byte tail].
  destruct (Ascii.eqb p NUL); [reflexivity|].
  destruct (Ascii.eqb x NUL); [reflexivity|].
  destruct (negb (GadgetCharCmp cs x p =? 0)); [reflexivity|].
  destruct a as [|y a].
  - rewrite !append_EmptyString. cbn [head_byte]. rewrite Ascii.eqb_refl.
    rewrite Hb. cbn [skip_index]. cbn [Ascii.eqb Bool.eqb].
    now rewrite (skip_index_closed idx b Hi1 Hi2).
  - rewrite !append_String. cbn [head_byte].
    cbn [contains] in Hab. apply orb_false_iff in Hab as [Hy Hab].
    rewrite (Ascii.eqb_sym y "["), Hy.
    rewrite <- !append_String. apply IH; [discriminate | | exact Han].
    cbn [contains]. now rewrite Hy.
Qed.

End StringUtilsMoreFacts.

(** * Properties of the other operations of the collection *)

Section RemovalFacts.

Context {D St : Type} `{Double D}.

Implicit Types (w : World D St) (impl : Impl D St) (view : View D St).

Lemma std_find_split (v : list nat) (a : nat) :
  a ∈ v ->
  exists v1 v2,
    v = v1 ++ a :: v2 /\ (a ∉ v1) /\ std_find v (Some a) = length v1.
Proof.
  induction v as [|b r IH]; intros Hin; [inversion Hin|]. simpl.
  destruct (decide (Some b = Some a)) as [E|E].
  - injection E as ->. exists [], r. split; [reflexivity|].
    split; [apply not_elem_of_nil | reflexivity].
  - assert (a ∈ r) as Hr by (inversion Hin; subst; [congruence | assumption]).
    destruct (IH Hr) as (v1 & v2 & -> & Hn & Hf).
    exists (b :: v1), v2. split; [reflexivity|]. split.
    + intros Hb. apply elem_of_cons in Hb as [->|Hb]; [congruence | auto].
    + simpl. now rewrite Hf.
Qed.

Lemma vector_erase_middle (v1 v2 : list nat) (a : nat) :
  vector_erase (length v1) (v1 ++ a :: v2) = v1 ++ v2.
Proof.
  unfold vector_erase.
  rewrite take_app_length.
  replace (S (length v1)) with (length (v1 ++ [a]))
    by (rewrite length_app; simpl; lia).
  rewrite (cons_middle a v1 v2), app_assoc. now rewrite drop_app_length.
Qed.

(** The two ways [RemoveElement] can go. *)
Lemma RemoveElement_child_split (element : ElementPtr) w impl :
  let '(removed, w', impl') := RemoveElement element w impl in
  (w' = w /\ impl' = impl)
  \/ exists (a : nat) (v1 v2 : list nat),
       children_ impl = v1 ++ a :: v2 /\ (a ∉ v1)
       /\ children_ impl' = v1 ++ v2
       /\ heap w' = delete a (heap w).
Proof.
  unfold RemoveElement.
  destruct (children_ impl !! std_find (children_ impl) element) as [a|] eqn:E;
    [|now left].
  right. destruct element as [b|].
  - pose proof (std_find_lookup _ _ _ E) as ->.
    assert (b ∈ children_ impl) as Hin
      by (eapply list_elem_of_lookup_2; exact E).
    destruct (std_find_split _ _ Hin) as (v1 & v2 & Ev & Hn1 & Hf).
    exists b, v1, v2. simpl. rewrite Hf. rewrite Ev at 2.
    rewrite vector_erase_middle. auto.
  - rewrite std_find_None in E. apply lookup_lt_Some in E. lia.
Qed.




Lemma std_find_insert (v : list nat) (e : nat) :
  e ∉ v ->
  forall k : nat,
    (k <= length v)%nat ->
    std_find (vector_insert k e v) (Some e) = k
    /\ vector_erase k (vector_insert k e v) = v.
Proof.
  intros Hn k Hk. unfold vector_insert.
  assert (e ∉ take k v) as Hnk.
  { intros Hin. apply Hn. rewrite <- (take_drop k v).
    apply elem_of_app. now left. }
  assert (length (take k v) = k) as Hlen by (rewrite length_take; lia).
  split.
  - assert (e ∈ take k v ++ e :: drop k v) as Hin
      by (apply elem_of_app; right; left).
    destruct (std_find_split _ _ Hin) as (v1 & v2 & Ev & Hn1 & ->).
    rewrite <- Hlen.
    destruct (decide (length v1 = length (take k v))) as [E|E]; [exact E|].
    exfalso.
    assert ((take k v ++ e :: drop k v) !! length v1 = Some e) as Hl
      by (rewrite Ev; apply list_lookup_middle; reflexivity).
    destruct (decide (length v1 < length (take k v))%nat) as [Hlt|Hge].
    + rewrite lookup_app_l in Hl by exact Hlt.
      apply Hnk. eapply list_elem_of_lookup_2. exact Hl.
    + assert ((v1 ++ e :: v2) !! length (take k v) = Some e) as Hl'
        by (rewrite <- Ev; apply list_lookup_middle; reflexivity).
      rewrite lookup_app_l in Hl' by lia.
      apply Hn1. eapply list_elem_of_lookup_2. exact Hl'.
  - rewrite <- Hlen at 1. rewrite vector_erase_middle. apply take_drop.
Qed.

(** A successful call and its element: the element is new, alive, a child,
    and none of the children there were. *)
Lemma do_call_created view (c : Call) w impl (e : nat) w1 impl1 :
  do_call view c w impl = (Some e, w1, impl1) ->
  heap w !! e = None
  /\ (exists el, heap w1 = <[e := el]> (heap w))
  /\ (exists k, (k <= length (children_ impl))%nat
                /\ children_ impl1 = vector_insert k e (children_ impl))
  /\ cells w1 = cells w
  /\ death_detected_elements_ w1 = death_detected_elements_ w.
Proof.
  assert (Hfresh : heap w !! ElementFactory.allocate (heap w) = None)
    by (apply not_elem_of_dom, is_fresh).
  destruct c as [tag_name name|tag_name before name]; simpl;
    unfold AppendElement, InsertElement, ElementFactory.CreateElement;
    destruct (factory_ impl !! tag_name) as [creator|]; try discriminate;
    simpl; destruct (OnElementAdd view _ _); try discriminate;
    intros [= <- <- <-]; simpl;
    (split; [exact Hfresh|]); (split; [eauto|]); (split; [|auto]).
  - exists (length (children_ impl)). split; [lia|].
    now rewrite vector_insert_end.
  - exists (std_find (children_ impl) before). split; [apply std_find_le|].
    reflexivity.
Qed.

(** Removing the element a call has just added undoes the call: the
    children and the elements alive are those before the call.  Only the
    mark that the count changed stays. *)
Theorem RemoveElement_undoes_call view (c : Call) w impl (e : nat) w1 impl1 :
  children_live w impl ->
  do_call view c w impl = (Some e, w1, impl1) ->
  exists w2 impl2,
    RemoveElement (Some e) w1 impl1 = (true, w2, impl2)
    /\ children_ impl2 = children_ impl
    /\ heap w2 = heap w
    /\ count_changed_ impl2 = true.
Proof.
  intros Hlive Hc.
  destruct (do_call_created _ _ _ _ _ _ _ Hc)
    as (Hnew & (el & Hheap) & (k & Hk & Hv) & _ & _).
  assert (e ∉ children_ impl) as Hn.
  { intros Hin. destruct (Hlive e Hin) as [x Hx]. congruence. }
  destruct (std_find_insert _ _ Hn k Hk) as [Hf He].
  unfold RemoveElement. rewrite Hv, Hf.
  assert (vector_insert k e (children_ impl) !! k = Some e) as ->.
  { unfold vector_insert. apply list_lookup_middle. rewrite length_take. lia. }
  eexists _, _. split; [reflexivity|]. simpl.
  split; [exact He|]. split; [|reflexivity].
  rewrite Hheap, delete_insert_eq. now apply delete_id.
Qed.

(** Every child once, every child alive: the constructing calls, whether
    they succeed or fail, and the two removals keep a collection so. *)
Theorem well_formed_kept view w impl :
  well_formed w impl ->
  (forall c : Call,
      well_formed (do_call view c w impl).1.2 (do_call view c w impl).2)
  /\ (forall element : ElementPtr,
        well_formed (RemoveElement element w impl).1.2
                    (RemoveElement element w impl).2)
  /\ well_formed (RemoveAllElements w impl).1 (RemoveAllElements w impl).2.
Proof.
  intros [Hnd Hlive]. split; [|split].
  - intros c. destruct (do_call view c w impl) as [[[e|] w1] impl1] eqn:Hc.
    + destruct (do_call_created _ _ _ _ _ _ _ Hc)
        as (Hnew & (el & Hheap) & (k & Hk & Hv) & _ & _).
      assert (e ∉ children_ impl) as Hn.
      { intros Hin. destruct (Hlive e Hin) as [x Hx]. congruence. }
      simpl. split.
      * rewrite Hv. unfold vector_insert.
        rewrite <- (take_drop k (children_ impl)) in Hnd, Hn.
        apply NoDup_app in Hnd as (H1 & H2 & H3).
        apply NoDup_app. split; [exact H1|]. split.
        -- intros x Hx Hin. apply elem_of_cons in Hin as [->|Hin].
           ++ apply Hn. apply elem_of_app. now left.
           ++ now apply (H2 x).
        -- apply NoDup_cons. split; [|exact H3].
           intros Hin. apply Hn. apply elem_of_app. now right.
      * intros a Ha. rewrite Hv in Ha. unfold vector_insert in Ha.
        rewrite Hheap.
        destruct (decide (a = e)) as [->|Hae];
          [rewrite lookup_insert_eq; eauto|].
        rewrite lookup_insert_ne by congruence. apply Hlive.
        rewrite <- (take_drop k (children_ impl)).
        apply elem_of_app in Ha as [Ha|Ha]; apply elem_of_app;
          [now left | right].
        apply elem_of_cons in Ha as [->|Ha]; [congruence | exact Ha].
    + simpl. revert Hc.
      destruct c as [tag_name name|tag_name before name]; simpl;
        unfold AppendElement, InsertElement, ElementFactory.CreateElement;
        destruct (factory_ impl !! tag_name) as [creator|]; simpl;
        try destruct (OnElementAdd view _ _); try discriminate;
        intros [= <- <-]; (split; [exact Hnd|]); intros a Ha; simpl;
        try (now apply Hlive);
        (rewrite delete_insert_eq, delete_id;
         [now apply Hlive | apply not_elem_of_dom, is_fresh]).
  - intros element.
    pose proof (RemoveElement_child_split element w impl) as Hr.
    destruct (RemoveElement element w impl) as [[removed w'] impl'].
    destruct Hr as [[-> ->]|(a & v1 & v2 & Ev & Hn1 & Ev' & Hh)];
      [split; assumption|].
    simpl. rewrite Ev in Hnd.
    apply NoDup_app in Hnd as (H1 & H2 & H3).
    apply NoDup_cons in H3 as [H3 H4]. split.
    + rewrite Ev'. apply NoDup_app. split; [exact H1|]. split; [|exact H4].
      intros x Hx Hin. apply (H2 x Hx). now right.
    + intros b Hb. rewrite Ev' in Hb. rewrite Hh.
      assert (b <> a) as Hba.
      { intros ->. apply elem_of_app in Hb as [Hb|Hb]; [|contradiction].
        apply (H2 a Hb). left. }
      rewrite lookup_delete_ne by congruence. apply Hlive. rewrite Ev.
      apply elem_of_app in Hb as [Hb|Hb]; apply elem_of_app;
        [now left | right; now right].
  - simpl. split; [apply NoDup_nil_2 | intros a Ha; inversion Ha].
Qed.

End RemovalFacts.

(** * More on the dispatch *)

Section DispatchMore.

Context {D St : Type} `{Double D} `{ElementMethods D St} `{MathUtils D}
        `{ElementHandlers D St}.

Implicit Types (w : World D St) (impl : Impl D St)
         (event ev : PositionEvent D) (c : nat).

(** The drag dispatch clears [*fired_element] and examines the children
    from the last of the vector, the topmost, down.  A child that is
    invisible, or that does not contain the point the event's coordinates
    are mapped to in its own space, is passed over: its handler is not
    run.  When every child is passed over, the result is UNHANDLED.
    Otherwise the handler of the topmost child that is visible and
    contains the mapped point is run on the mapped event, and the dispatch
    ends with that handler's result and the world as that call left it
    when the child was destroyed or [*fired_element] is set; when the
    child is alive and [*fired_element] is null, the dispatch goes on in
    the same way with the children below.  With tame handlers and live
    children and owner the dispatch is defined. *)
Theorem OnDragEvent_topmost_fired_wins (view : View D St) event :
  (forall w impl,
     OnDragEvent view event w impl =
     OnDragEvent_loop view event (rev (children_ impl))
       (write_cell CellFired None w) impl)
  /\ (forall (v : list nat) w impl,
        (forall u, u ∈ v -> passed_over w impl event u) ->
        OnDragEvent_loop view event (rev v) w impl
        = (Returned EVENT_RESULT_UNHANDLED, after_passing (rev v) w, impl))
  /\ (forall (lower upper : list nat) c ev w impl,
        (forall u, u ∈ upper -> passed_over w impl event u) ->
        hit w impl event c ev ->
        let w2 :=
          ScopedDeathDetector_enter CellChild (write_cell CellChild (Some c) w) in
        let h := Element_OnDragEvent c ev w2 impl in
        let s := run_actions view None h.2 (w2, impl) in
        let w4 := ScopedDeathDetector_leave s.1 in
        OnDragEvent_loop view event (rev (lower ++ c :: upper)) w impl =
        match cell_child (cells w4), cell_fired (cells w4) with
        | Some _, None =>
            if decide (children_ s.2 = children_ impl)
            then OnDragEvent_loop view event (rev lower) w4 s.2
            else (Undefined, w4, s.2)
        | _, _ => (Returned h.1, w4, s.2)
        end)
  /\ (forall w impl,
        children_live w impl ->
        (forall a, owner_ impl = Some a -> is_Some (heap w !! a)) ->
        handlers_tame (children_ impl) (owner_ impl) ->
        (OnDragEvent view event w impl).1.1 <> Undefined).
Proof.
  split; [reflexivity|]. split; [|split].
  - intros v w impl Hv.
    rewrite <- (app_nil_r (rev v)) at 1.
    rewrite OnDragEvent_loop_pass_all; [reflexivity|].
    intros u Hu. apply Hv. now apply elem_of_rev_1.
  - intros lower upper c ev w impl Hupper Hhit. cbv zeta.
    pose proof (OnDragEvent_call_eq view c ev
                  (write_cell CellChild (Some c) w) impl) as Ecall.
    cbv zeta in Ecall.
    exact (OnDragEvent_loop_topmost view event lower upper c ev w impl
             _ _ _ Hupper Hhit Ecall).
  - intros w impl Hlive Howner Htame.
    apply (OnDragEvent_loop_returns view event (children_ impl) (owner_ impl));
      auto.
    intros a Ha. now apply elem_of_rev_1.
Qed.

(** The loop after a handler whose one step is a call of [AppendElement]
    that succeeds: the child is alive and, [*fired_element] being null,
    the loop goes on over a vector that has grown. *)
Lemma OnMouseEvent_loop_added_child (view : View D St) event c ev
    (rest : list nat) w impl (tag_name : string) (name : option string)
    (r : EventResult) :
  hit w impl event c ev ->
  cell_fired (cells w) = None ->
  Element_OnMouseEvent c ev (OnMouseEvent_enter c w) impl
  = (r, [ActAppendElement tag_name name]) ->
  is_Some (AppendElement view tag_name name (OnMouseEvent_enter c w) impl).1.1 ->
  exists e,
    (AppendElement view tag_name name (OnMouseEvent_enter c w) impl).1.1 = Some e
    /\ children_ (OnMouseEvent_call view c ev w impl).2 = children_ impl ++ [e]
    /\ (OnMouseEvent_loop view event (c :: rest) w impl).1.1 = Undefined.
Proof.
  intros Hhit Hfired Hhandler [e He].
  pose proof (OnMouseEvent_call_eq view c ev w impl) as Ecall.
  cbv zeta in Ecall. rewrite Hhandler in Ecall.
  cbn [fst snd run_actions foldl run_action] in Ecall.
  pose proof (proj1 (construct_frame view tag_name None name
                       (OnMouseEvent_enter c w) impl)) as (Hcells & _).
  assert (children_ (AppendElement view tag_name name (OnMouseEvent_enter c w)
                       impl).2 = children_ impl ++ [e]) as Hchildren.
  { revert He. unfold AppendElement.
    destruct (ElementFactory.CreateElement _ _ _ _ _) as [[e'|] w1];
      [|discriminate].
    destruct (OnElementAdd view (heap w1) e'); [|discriminate].
    now intros [= ->]. }
  destruct (AppendElement view tag_name name (OnMouseEvent_enter c w) impl)
    as [[p w'] impl'].
  cbn [fst snd] in *.
  exists e. split; [exact He|].
  rewrite Ecall. split; [exact Hchildren|].
  rewrite (OnMouseEvent_loop_hit view event c ev rest w impl _ _ _ Hhit Ecall).
  cbn [ScopedDeathDetector_leave cells]. rewrite Hcells.
  cbn [OnMouseEvent_enter ScopedDeathDetector_enter write_cell cells
       set_cell cell_child cell_fired].
  rewrite Hfired, Hchildren.
  rewrite decide_False; [reflexivity|].
  intros E. apply (f_equal length) in E. rewrite length_app in E.
  simpl in E. lia.
Qed.

(** A handler that adds a child to the collection the event is dispatched
    from breaks the loop.  Let the event hit the topmost child, the last
    of the vector, and let the one step of its handler be a call of
    [AppendElement] that succeeds.  The child is alive and
    [*fired_element] is null, so the loop goes on, with a reverse iterator
    that stood at the end of a vector that has grown since: [push_back]
    has invalidated it.  The dispatch is undefined. *)
Theorem OnMouseEvent_added_child_undefined (view : View D St) event c ev
    (lower : list nat) w impl (tag_name : string) (name : option string)
    (r : EventResult) :
  children_ impl = lower ++ [c] ->
  let w0 := write_cell CellFired None (write_cell CellIn None w) in
  hit w0 impl event c ev ->
  Element_OnMouseEvent c ev (OnMouseEvent_enter c w0) impl
  = (r, [ActAppendElement tag_name name]) ->
  is_Some (AppendElement view tag_name name (OnMouseEvent_enter c w0) impl).1.1 ->
  exists e,
    (AppendElement view tag_name name (OnMouseEvent_enter c w0) impl).1.1
    = Some e
    /\ children_ (OnMouseEvent_call view c ev w0 impl).2 = lower ++ [c; e]
    /\ (OnMouseEvent view event w impl).1.1 = Undefined.
Proof.
  intros Hchildren w0 Hhit Hhandler Happend.
  destruct (OnMouseEvent_loop_added_child view event c ev (rev lower) w0 impl
              tag_name name r Hhit eq_refl Hhandler Happend)
    as (e & He & Hgrown & Hundefined).
  exists e. split; [exact He|]. split.
  - rewrite Hgrown, Hchildren, <- app_assoc. reflexivity.
  - unfold OnMouseEvent. fold w0. rewrite Hchildren, rev_app_cons.
    exact Hundefined.
Qed.

End DispatchMore.

(** * More on drawing *)

Section DrawMore.

Context {D St : Type} `{Double D} `{ElementMethods D St} `{MathUtils D}.

Implicit Types (w : World D St) (impl : Impl D St) (view : View D St)
         (g : Graphics) (ret : DrawReturn D St) (c : Canvas D)
         (ops : list (CanvasOp D)).

Lemma painted_app ops1 ops2 :
  painted (ops1 ++ ops2) = painted ops1 ++ painted ops2.
Proof. apply omap_app. Qed.

Lemma state_depth_app ops1 : forall (n : nat) ops2,
  state_depth n (ops1 ++ ops2) =
  match state_depth n ops1 with
  | Some m => state_depth m ops2
  | None => None
  end.
Proof.
  induction ops1 as [|op r IH]; intros n ops2; [reflexivity|].
  destruct op; simpl; auto. destruct n; auto.
Qed.

(** The calls for one child paint its canvas, once, between a [PushState]
    and its [PopState], and do not clear the canvas. *)
Lemma composite_child_painted (el : BasicElement D St) (cc : nat) :
  painted (composite_child el cc) = [cc]
  /\ (forall n : nat, state_depth n (composite_child el cc) = Some n)
  /\ ClearCanvas ∉ composite_child el cc.
Proof.
  unfold composite_child.
  destruct (deqb (GetRotation el) d0), (GetMaskCanvas el);
    (split; [reflexivity|]); (split; [intros depth; reflexivity|]);
    simpl; rewrite !elem_of_cons, elem_of_nil; intros Hx;
    repeat (destruct Hx as [Hx|Hx]; [discriminate|]); exact Hx.
Qed.

Lemma composite_children_painted (h : gmap nat (BasicElement D St))
    (v : list nat) (f : nat -> option nat) : forall ops,
  composite_children h v (f <$> v) = Some ops ->
  painted ops = omap f v
  /\ (forall n : nat, state_depth n ops = Some n)
  /\ ClearCanvas ∉ ops.
Proof.
  induction v as [|a v IH]; intros ops Hops.
  - injection Hops as <-.
    split; [reflexivity|]. split; [reflexivity|]. apply not_elem_of_nil.
  - rewrite fmap_cons in Hops. cbn [composite_children] in Hops.
    assert (omap f (a :: v) = match f a with
                              | Some cc => cc :: omap f v
                              | None => omap f v
                              end) as -> by reflexivity.
    destruct (f a) as [cc|] eqn:Ef.
    + destruct (h !! a) as [el|]; [|discriminate].
      destruct (composite_children h v (f <$> v)) as [ops'|] eqn:Hv;
        [|discriminate].
      assert (ops = composite_child el cc ++ ops') as -> by congruence.
      destruct (IH ops' eq_refl) as (IH1 & IH2 & IH3).
      destruct (composite_child_painted el cc) as (Hp & Hd & Hc).
      split; [|split].
      * now rewrite painted_app, Hp, IH1.
      * intros n. now rewrite state_depth_app, Hd.
      * intros Hx. apply elem_of_app in Hx as [Hx|Hx]; auto.
    + exact (IH ops Hops).
Qed.

Lemma debug_box_lines (view : View D St) c :
  let box := if 0 <? GetDebugMode view then debug_box c else [] in
  painted box = []
  /\ (forall n : nat, state_depth n box = Some n)
  /\ ClearCanvas ∉ box.
Proof.
  cbv zeta. destruct (0 <? GetDebugMode view).
  - split; [reflexivity|]. split; [reflexivity|].
    unfold debug_box. rewrite !elem_of_cons, elem_of_nil. intros Hx.
    repeat (destruct Hx as [Hx|Hx]; [discriminate|]). exact Hx.
  - split; [reflexivity|]. split; [reflexivity|]. apply not_elem_of_nil.
Qed.

(** When [Draw] reports a change and returns a canvas, it has cleared the
    canvas and then painted on it the canvases the children handed over,
    each once, from the first of the vector to the last, so that a higher
    child covers a lower one; the popup and a child without a canvas are
    left out.  Every [PushState] has met its [PopState]: the canvas is
    left with the state stack it had. *)
Theorem Draw_paints_in_z_order view g w impl ret c :
  Draw view g w impl = Some ret ->
  ret_canvas ret = Some c ->
  ret_changed ret = true ->
  NoDup (children_ impl) ->
  exists prior ops,
    canvas_ops c = prior ++ ClearCanvas :: ops
    /\ (ClearCanvas ∉ ops)
    /\ painted ops =
       omap (child_canvas (GetPopupElement view) (heap w)) (children_ impl)
    /\ (forall n : nat, state_depth n ops = Some n).
Proof.
  intros Hdraw Hcanvas Hchanged Hnd.
  assert (forall g0 c0 (changed : bool),
             Draw_children view g0 w impl c0 changed = Some ret ->
             exists prior ops,
               canvas_ops c = prior ++ ClearCanvas :: ops
               /\ (ClearCanvas ∉ ops)
               /\ painted ops =
                  omap (child_canvas (GetPopupElement view) (heap w))
                       (children_ impl)
               /\ (forall n : nat, state_depth n ops = Some n)) as Hdc.
  { intros g0 c0 changed Hd.
    destruct (Draw_children_inv view g0 w impl c0 changed ret Hd)
      as (s' & c' & Hs' & Hch & _ & _ & Hc' & _ & _ & _ & _ & Hops).
    rewrite Hcanvas in Hc'. injection Hc' as <-.
    rewrite Hchanged in Hch. symmetry in Hch.
    destruct (Hops Hch) as (ops & Hcomp & Hcanvas_ops).
    pose proof (draw_children_canvases _ _ _ _ Hs' Hnd) as Hccs.
    simpl in Hccs. rewrite Hccs in Hcomp.
    destruct (composite_children_painted _ _ _ _ Hcomp) as (Hp & Hd' & Hcl).
    destruct (debug_box_lines view c0) as (Bp & Bd & Bcl).
    cbv zeta in Bp, Bd, Bcl.
    eexists _, _. split; [exact Hcanvas_ops|]. split; [|split].
    - rewrite elem_of_cons, elem_of_app. intros [Hx|[Hx|Hx]];
        [discriminate | auto | auto].
    - change (painted (IntersectRectClipRegion d0 d0 (width_ impl) (height_ impl)
                       :: ops ++ (if 0 <? GetDebugMode view
                                  then debug_box c0 else [])))
        with (painted (ops ++ (if 0 <? GetDebugMode view
                               then debug_box c0 else []))).
      rewrite painted_app, Bp, app_nil_r. exact Hp.
    - intros n.
      change (state_depth n (ops ++ (if 0 <? GetDebugMode view
                                     then debug_box c0 else [])) = Some n).
      now rewrite state_depth_app, Hd'. }
  destruct (Draw_inv view g w impl ret Hdraw)
    as [(_ & Hnone & _)|[(_ & _ & Hnone & _)|[(_ & _ & c0 & g0 & _ & _ & Hd)
                                               |(_ & c0 & _ & _ & _ & Hd)]]].
  - rewrite Hcanvas in Hnone. discriminate.
  - rewrite Hcanvas in Hnone. discriminate.
  - exact (Hdc g0 c0 true Hd).
  - exact (Hdc g c0 _ Hd).
Qed.

(** [Draw_children] hands the canvas it was given on, under the same
    identity, and leaves the backend alone. *)
Lemma Draw_children_canvas view g w impl c (changed : bool) ret :
  Draw_children view g w impl c changed = Some ret ->
  ret_graphics ret = g
  /\ exists c', ret_canvas ret = Some c'
                /\ canvas_ (ret_impl ret) = Some c'
                /\ canvas_id c' = canvas_id c.
Proof.
  unfold Draw_children.
  destruct (draw_children _ _ _) as [s'|]; [|discriminate].
  destruct (dl_changed s').
  - destruct (composite_children _ _ _) as [ops|]; [|discriminate].
    intros [= <-]. simpl. eauto.
  - intros [= <-]. simpl. eauto.
Qed.

Lemma graphics_ok_destroy g c :
  graphics_ok g (Some c) -> graphics_ok (DestroyCanvas g c) (@None (Canvas D)).
Proof.
  intros (Hnd & Hold & Hc). destruct (Hc c eq_refl) as [Hlt Hnot].
  split; [|split].
  - simpl. apply NoDup_app. split; [exact Hnd|].
    split; [|apply NoDup_singleton].
    intros x Hx Hx'. apply list_elem_of_singleton in Hx' as ->. contradiction.
  - simpl. intros x Hx. apply elem_of_app in Hx as [Hx|Hx]; [auto|].
    now apply list_elem_of_singleton in Hx as ->.
  - intros c' Hc'. discriminate.
Qed.

Lemma graphics_ok_forget g c :
  graphics_ok g (Some c) -> graphics_ok g (@None (Canvas D)).
Proof.
  intros (Hnd & Hold & _). split; [exact Hnd|]. split; [exact Hold|].
  intros c' Hc'. discriminate.
Qed.

Lemma graphics_ok_same_id g c c' :
  canvas_id c' = canvas_id c ->
  graphics_ok g (Some c) -> graphics_ok g (Some c').
Proof.
  intros Hid (Hnd & Hold & Hc). split; [exact Hnd|]. split; [exact Hold|].
  intros c0 [= <-]. rewrite Hid. now apply Hc.
Qed.

(** The rebuilding branch of [Draw], entered with no canvas cached. *)
Lemma Draw_rebuild_lifecycle view g w impl (nw nh : Z) ret :
  graphics_ok g (@None (Canvas D)) ->
  Draw_rebuild view g w impl nw nh = Some ret ->
  graphics_ok (ret_graphics ret) (canvas_ (ret_impl ret))
  /\ canvas_ (ret_impl ret) = ret_canvas ret
  /\ gfx_destroyed (ret_graphics ret) = gfx_destroyed g
  /\ (gfx_next_id g <= gfx_next_id (ret_graphics ret))%nat.
Proof.
  intros Hok. unfold Draw_rebuild.
  destruct (_ || _); [intros [= <-]; simpl; auto|].
  unfold NewCanvas. destruct (gfx_can_allocate g nw nh).
  - intros Hd.
    destruct (Draw_children_canvas _ _ _ _ _ _ _ Hd)
      as (Hg & c' & Hret & Himpl & Hid).
    rewrite Hg, Hret, Himpl. simpl in *.
    destruct Hok as (Hnd & Hold & _).
    split; [|split; [reflexivity|split; [reflexivity|lia]]].
    split; [exact Hnd|]. split.
    + simpl. intros x Hx. specialize (Hold x Hx). lia.
    + intros c0 [= <-]. rewrite Hid. simpl. split; [lia|].
      intros Hx. specialize (Hold _ Hx). lia.
  - intros [= <-]. simpl. auto.
Qed.

(** The canvases of the collection are handed out and destroyed in
    order.  If, before [Draw], no canvas was destroyed twice, every
    canvas destroyed had been handed out, and the cached canvas had been
    handed out and was not destroyed, the same holds after it.  With
    children, the canvas returned is the one cached; without, the cache
    and the backend are left alone.  And the canvas cached before is
    either still the cached one or destroyed: none is lost. *)
Theorem Draw_canvas_lifecycle view g w impl ret :
  graphics_ok g (canvas_ impl) ->
  Draw view g w impl = Some ret ->
  graphics_ok (ret_graphics ret) (canvas_ (ret_impl ret))
  /\ (children_ impl <> [] -> canvas_ (ret_impl ret) = ret_canvas ret)
  /\ (children_ impl = [] ->
      canvas_ (ret_impl ret) = canvas_ impl /\ ret_graphics ret = g)
  /\ (forall c0, canvas_ impl = Some c0 ->
      (exists c, canvas_ (ret_impl ret) = Some c /\ canvas_id c = canvas_id c0)
      \/ canvas_id c0 ∈ gfx_destroyed (ret_graphics ret))
  /\ (gfx_next_id g <= gfx_next_id (ret_graphics ret))%nat.
Proof.
  intros Hok. unfold Draw.
  destruct (bool_decide (children_ impl = [])) eqn:Hempty.
  { apply bool_decide_eq_true in Hempty. intros [= <-]. simpl.
    split; [exact Hok|]. split; [intros Hx; contradiction|].
    split; [auto|]. split; [|lia]. intros c0 Hc0. left. eauto. }
  apply bool_decide_eq_false in Hempty.
  destruct (canvas_ impl) as [c|] eqn:Hc.
  - destruct (negb (_ =? canvas_width c) || negb (_ =? canvas_height c)).
    + intros Hr.
      destruct (Draw_rebuild_lifecycle _ _ _ _ _ _ _
                  (graphics_ok_destroy g c Hok) Hr)
        as (Hok' & Hsame & Hdestroyed & Hnext).
      split; [exact Hok'|]. split; [auto|].
      split; [intros Hx; contradiction|]. split; [|exact Hnext].
      intros c0 [= <-]. right. rewrite Hdestroyed. simpl.
      apply elem_of_app. right. apply list_elem_of_singleton. reflexivity.
    + intros Hd.
      destruct (Draw_children_canvas _ _ _ _ _ _ _ Hd)
        as (Hg & c' & Hret & Himpl & Hid).
      rewrite Hg, Hret, Himpl.
      split; [exact (graphics_ok_same_id g c c' Hid Hok)|].
      split; [auto|]. split; [intros Hx; contradiction|]. split; [|lia].
      intros c0 [= <-]. left. eauto.
  - intros Hr.
    destruct (Draw_rebuild_lifecycle _ _ _ _ _ _ _ Hok Hr)
      as (Hok' & Hsame & _ & Hnext).
    split; [exact Hok'|]. split; [auto|].
    split; [intros Hx; contradiction|]. split; [|exact Hnext].
    intros c0 Hc0. discriminate.
Qed.

End DrawMore.

(** * More on the layout *)

Section LayoutMore.

Context {D St : Type} `{Double D} `{ElementMethods D St} `{MathUtils D}.

Implicit Types (w : World D St) (impl : Impl D St) (view : View D St).



End LayoutMore.

(** * The other operations on examples *)

(** ** The string utilities *)

Lemma AssignIfDiffer_settles_witness :
  (StringUtilsMore.AssignIfDiffer (Some "Clock"%string) "clock"
     (StringUtils.GadgetStrCmp true)).2 = "Clock"%string
  /\ StringUtilsMore.AssignIfDiffer (Some "Clock"%string) "Clock"
       (StringUtils.GadgetStrCmp true)
     = (false, "Clock"%string).
Proof.
  pose proof (StringUtilsMoreFacts.AssignIfDiffer_settles
                (StringUtils.GadgetStrCmp true) (Some "Clock"%string) "clock"
                (fun s => StringUtilsMoreFacts.str_compare_c_str
                            (fun c => c) s StringUtilsFacts.id_keeps_NUL))
    as (_ & _ & Hagain).
  split; [vm_compute; reflexivity | exact Hagain].
Defined.

Lemma EncodeJavaScriptString_injective_witness :
  StringUtilsMore.EncodeJavaScriptString [104; 10; 0; 105]%N
  = StringUtilsMore.EncodeJavaScriptString [104; 10; 0; 7]%N
  /\ StringMoreSpec.until_zero [104; 10; 0; 105]%N
     = StringMoreSpec.until_zero [104; 10; 0; 7]%N.
Proof.
  assert (StringUtilsMore.EncodeJavaScriptString [104; 10; 0; 105]%N
          = StringUtilsMore.EncodeJavaScriptString [104; 10; 0; 7]%N) as E
    by (vm_compute; reflexivity).
  split; [exact E|].
  apply StringUtilsMoreFacts.EncodeJavaScriptString_injective;
    [repeat constructor .. | exact E].
Defined.

Lemma SplitString_key_value_witness :
  StringUtilsMore.contains "name" "=" = false
  /\ StringUtilsMore.SplitString "name=a=b" "=" (Some "x"%string) (Some "y"%string)
     = (true, Some "name"%string, Some "a=b"%string).
Proof.
  split; [reflexivity|].
  apply (StringUtilsMoreFacts.SplitString_key_value "=" "name" "a=b" "x" "y").
  reflexivity.
Defined.

Lemma SimpleMatchXPath_without_index_witness :
  StringUtilsMore.contains (StringUtils.c_str "Item/Title") "[" = false
  /\ StringUtilsMore.SimpleMatchXPath false "Item/Title" "item/title" = true.
Proof.
  split; [reflexivity|].
  apply (StringUtilsMoreFacts.SimpleMatchXPath_without_index false
           "Item/Title" "item/title"); reflexivity.
Defined.

Lemma SimpleMatchXPath_ignores_index_witness :
  StringUtilsMore.SimpleMatchXPath true "item[2]/title" "item/title"
  = StringUtilsMore.SimpleMatchXPath true "item/title" "item/title"
  /\ StringUtilsMore.SimpleMatchXPath true "item[2]/title" "item/title" = true.
Proof.
  assert (StringUtilsMore.SimpleMatchXPath true "item[2]/title" "item/title"
          = StringUtilsMore.SimpleMatchXPath true "item/title" "item/title")
    as E.
  { apply (StringUtilsMoreFacts.SimpleMatchXPath_ignores_index true
             "item" "2" "/title" "item/title");
      [discriminate | reflexivity ..]. }
  split; [exact E|]. rewrite E. reflexivity.
Defined.

(** ** The collection *)

Lemma scene_ab_well_formed : well_formed scene_ab.1 scene_ab.2.
Proof.
  split.
  - change (children_ scene_ab.2) with [0; 1]%nat.
    apply NoDup_cons. split; [|apply NoDup_singleton].
    rewrite list_elem_of_singleton. discriminate.
  - two_children_live.
Qed.

Lemma RemoveElement_undoes_call_witness :
  exists w1 impl1 w2 impl2,
    do_call (view None) (CallAppend "rect50" (Some "b"%string))
      scene_a.1 scene_a.2 = (Some 1%nat, w1, impl1)
    /\ RemoveElement (Some 1%nat) w1 impl1 = (true, w2, impl2)
    /\ children_ impl2 = [0%nat]
    /\ heap w2 = heap scene_a.1.
Proof.
  eassert (do_call (view None) (CallAppend "rect50" (Some "b"%string))
             scene_a.1 scene_a.2 = (Some 1%nat, _, _)) as Hcall
    by (vm_compute; reflexivity).
  destruct (RemoveElement_undoes_call (view None) _ scene_a.1 scene_a.2 _ _ _
              ltac:(intros a Ha; apply list_elem_of_singleton in Ha as ->;
                    vm_compute; eauto)
              Hcall)
    as (w2 & impl2 & Hremove & Hchildren & Hheap & _).
  eexists _, _, w2, impl2. split; [exact Hcall|].
  split; [exact Hremove|]. split; [exact Hchildren | exact Hheap].
Defined.

Lemma well_formed_kept_witness :
  well_formed scene_ab.1 scene_ab.2
  /\ well_formed
       (do_call (view None) (CallInsert "rect" (Some 0%nat) None)
          scene_ab.1 scene_ab.2).1.2
       (do_call (view None) (CallInsert "rect" (Some 0%nat) None)
          scene_ab.1 scene_ab.2).2
  /\ well_formed (RemoveElement (Some 0%nat) scene_ab.1 scene_ab.2).1.2
                 (RemoveElement (Some 0%nat) scene_ab.1 scene_ab.2).2.
Proof.
  pose proof (well_formed_kept (view None) scene_ab.1 scene_ab.2
                scene_ab_well_formed) as (Hcall & Hremove & _).
  split; [exact scene_ab_well_formed|].
  split; [apply Hcall | apply Hremove].
Defined.

(** ** The layout *)


(** ** Drawing *)

Lemma Draw_paints_in_z_order_witness :
  exists r c prior ops,
    drawn_once None (laid_out (view None) scene_ab) = Some r
    /\ ret_canvas r = Some c
    /\ canvas_ops c = prior ++ ClearCanvas :: ops
    /\ painted ops = [1; 1]%nat
    /\ state_depth 0 ops = Some 0%nat.
Proof.
  eassert (drawn_once None (laid_out (view None) scene_ab) = Some _) as Hd
    by (vm_compute; reflexivity).
  match type of Hd with
  | _ = Some ?r => eassert (ret_canvas r = Some _) as Hc by reflexivity
  end.
  destruct (Draw_paints_in_z_order (view None) graphics0
              (laid_out (view None) scene_ab).1
              (laid_out (view None) scene_ab).2 _ _ Hd Hc)
    as (prior & ops & Hops & _ & Hpainted & Hdepth).
  - reflexivity.
  - change (children_ (laid_out (view None) scene_ab).2) with [0; 1]%nat.
    apply NoDup_cons. split; [|apply NoDup_singleton].
    rewrite list_elem_of_singleton. discriminate.
  - eexists _, _, prior, ops. split; [exact Hd|]. split; [exact Hc|].
    split; [exact Hops|]. split; [|apply Hdepth].
    rewrite Hpainted. vm_compute. reflexivity.
Defined.

Lemma Draw_canvas_lifecycle_witness :
  exists r c,
    drawn_once None (laid_out (view None) scene_ab) = Some r
    /\ ret_canvas r = Some c
    /\ canvas_ (ret_impl r) = Some c
    /\ graphics_ok (ret_graphics r) (Some c).
Proof.
  eassert (drawn_once None (laid_out (view None) scene_ab) = Some _) as Hd
    by (vm_compute; reflexivity).
  match type of Hd with
  | _ = Some ?r => eassert (ret_canvas r = Some _) as Hc by reflexivity
  end.
  assert (graphics_ok graphics0 (canvas_ (laid_out (view None) scene_ab).2))
    as Hok0.
  { split; [apply NoDup_nil_2|]. split.
    - intros id Hid. inversion Hid.
    - intros c0 Hc0. vm_compute in Hc0. discriminate Hc0. }
  destruct (Draw_canvas_lifecycle (view None) graphics0
              (laid_out (view None) scene_ab).1
              (laid_out (view None) scene_ab).2 _ Hok0 Hd)
    as (Hok & Hsame & _).
  eexists _, _. split; [exact Hd|]. split; [exact Hc|].
  split; [reflexivity|]. exact Hok.
Defined.

(** ** The dispatch *)

Section Growing.

(** In this section the handlers are those that add a child. *)
#[local] Existing Instance ElementHandlers_growing | 0.

Lemma OnMouseEvent_added_child_undefined_witness :
  let s := two_rects "a" "grow" in
  let w0 := write_cell CellFired None (write_cell CellIn None s.1.2) in
  children_ s.2 = [0; 1]%nat
  /\ hit w0 s.2 click 1%nat click_in_top
  /\ children_ (OnMouseEvent_call (view None) 1%nat click_in_top w0 s.2).2
     = [0; 1; 2]%nat
  /\ (OnMouseEvent (view None) click s.1.2 s.2).1.1 = Undefined.
Proof.
  cbv zeta.
  assert (hit (write_cell CellFired None
                 (write_cell CellIn None (two_rects "a" "grow").1.2))
            (two_rects "a" "grow").2 click 1%nat click_in_top) as Hclick
    by scene_hit.
  destruct (OnMouseEvent_added_child_undefined (view None) click 1%nat
              click_in_top [0%nat] (two_rects "a" "grow").1.2
              (two_rects "a" "grow").2
              "rect" (Some "new"%string) EVENT_RESULT_UNHANDLED)
    as (e & He & Hchildren & Hundefined).
  - reflexivity.
  - exact Hclick.
  - vm_compute. reflexivity.
  - vm_compute. eauto.
  - split; [reflexivity|]. split; [exact Hclick|].
    split; [vm_compute; reflexivity | exact Hundefined].
Defined.

End Growing.
